(** * Open vStorage frontend, [lib/ovs/generic.js]: search, equality,
      cross-fill and merge helpers

    A shallow embedding of the array search methods patched onto
    [Array.prototype] ([getItemUnwrap], [brSearch], [brSearchFirst],
    [brSearchLast], [equals]) and of the module functions [arrayEquals],
    [objectEquals], [crossFiller] and [merge], with the properties the
    specification states about them.

    Further sections embed helpers of the same module that the
    specification does not describe ([contains], [remove], [isEmpty],
    [arrayFilterUnique], [arrayHasElementWithProperty],
    [trySet], [padRight], [numberSort], [ipSort], [chainPromises],
    [setDecimals], [cleanDeviceName]) and, from
    [viewmodels/containers/disk.js], [fillData] and [fullPartitions]. *)

From Stdlib Require Import ZArith Bool List Ascii String Lia.
From stdpp Require Import base option list strings pretty gmap.
From Equations Require Import Equations.

Set Warnings "-register-all".
Local Open Scope Z_scope.

(** ** JavaScript values

    The fragment of the value universe the helpers are exercised on:
    [undefined], [null], booleans, numbers, strings, arrays and objects.
    Numbers are the integers together with [NaN]; fractions, the
    infinities and the sign of zero play no role in the code below, which
    never does arithmetic on an element.  Arrays and objects carry the
    identity [id] that [===] compares; an object records the name of its
    constructor and its own enumerable properties in insertion order.
    Strings are sequences of 8-bit characters, ordered character by
    character.  Values are finite trees: a cyclic structure has no
    representation.  Functions (hence Knockout observables) are left out. *)

Inductive value : Type :=
| VUndef
| VNull
| VBool (b : bool)
| VNum (n : Z)
| VNaN
| VStr (s : string)
| VArr (id : positive) (items : list value)
| VObj (id : positive) (ctor : string) (props : list (string * value)).

(** Induction over values that reaches inside arrays and objects. *)
Section value_induction.
Variable P : value -> Prop.
Hypothesis HUndef : P VUndef.
Hypothesis HNull : P VNull.
Hypothesis HBool : forall b, P (VBool b).
Hypothesis HNum : forall n, P (VNum n).
Hypothesis HNaN : P VNaN.
Hypothesis HStr : forall s, P (VStr s).
Hypothesis HArr : forall id items, Forall P items -> P (VArr id items).
Hypothesis HObj : forall id ctor props,
    Forall (fun px => P (snd px)) props -> P (VObj id ctor props).

Fixpoint value_nested_ind (v : value) : P v :=
  match v with
  | VUndef => HUndef
  | VNull => HNull
  | VBool b => HBool b
  | VNum n => HNum n
  | VNaN => HNaN
  | VStr s => HStr s
  | VArr id items =>
      HArr id items
        ((fix go (l : list value) : Forall P l :=
            match l with
            | [] => @List.Forall_nil _ P
            | x :: l' => @List.Forall_cons _ P x l' (value_nested_ind x) (go l')
            end) items)
  | VObj id ctor props =>
      HObj id ctor props
        ((fix go (l : list (string * value)) : Forall (fun px => P (snd px)) l :=
            match l with
            | [] => @List.Forall_nil _ _
            | px :: l' =>
                @List.Forall_cons _ (fun px => P (snd px)) px l'
                  (value_nested_ind (snd px)) (go l')
            end) props)
  end.
End value_induction.

(** [a === b]: same type and same value; [NaN] differs from itself;
    arrays and objects are compared by identity. *)
Definition strict_eq (a b : value) : bool :=
  match a, b with
  | VUndef, VUndef => true
  | VNull, VNull => true
  | VBool x, VBool y => Bool.eqb x y
  | VNum x, VNum y => x =? y
  | VStr s, VStr t => String.eqb s t
  | VArr i _, VArr j _ => Pos.eqb i j
  | VObj i _ _, VObj j _ _ => Pos.eqb i j
  | _, _ => false
  end.

(** [a !== b] *)
Definition strict_neq (a b : value) : bool := negb (strict_eq a b).

(** [!v] is true on the falsy values. *)
Definition falsy (v : value) : bool :=
  match v with
  | VUndef | VNull | VNaN => true
  | VBool b => negb b
  | VNum n => n =? 0
  | VStr s => String.eqb s ""
  | VArr _ _ | VObj _ _ _ => false
  end.

(** [v instanceof Array] *)
Definition instanceof_Array (v : value) : bool :=
  match v with VArr _ _ => true | _ => false end.

(** [v instanceof Object] *)
Definition instanceof_Object (v : value) : bool :=
  match v with VArr _ _ | VObj _ _ _ => true | _ => false end.

(** [typeof v === "object"] ([null] included, as in the language). *)
Definition typeof_object (v : value) : bool :=
  match v with VNull | VArr _ _ | VObj _ _ _ => true | _ => false end.

(** First binding of [p] in a property list. *)
Fixpoint assoc (p : string) (props : list (string * value)) : option value :=
  match props with
  | [] => None
  | (q, x) :: rest => if String.eqb q p then Some x else assoc p rest
  end.

(** What [v.constructor] reads on an array or object: the field of that
    name when the object has one of its own, and otherwise the
    constructor function it inherits, known by its name. *)
Inductive constructor_value : Type :=
| Inherited (name : string)
| OwnField (x : value).

Definition constructor (v : value) : constructor_value :=
  match v with
  | VArr _ _ => Inherited "Array"
  | VObj _ c props =>
      match assoc "constructor" props with
      | Some x => OwnField x
      | None => Inherited c
      end
  | _ => Inherited ""
  end.

(** [a.constructor !== b.constructor].  A function is no value of the
    universe: it differs from every field. *)
Definition constructor_neq (a b : constructor_value) : bool :=
  match a, b with
  | Inherited s, Inherited t => negb (String.eqb s t)
  | OwnField x, OwnField y => strict_neq x y
  | _, _ => true
  end.

(** The array index a property name denotes, below [n]. *)
Definition index_of_key (p : string) (n : nat) : option nat :=
  find (fun i => String.eqb (pretty i) p) (seq 0 n).

(** The own enumerable properties a [for ... in] loop visits. *)
Definition own_props (v : value) : list (string * value) :=
  match v with
  | VArr _ items => imap (fun i x => (pretty i, x)) items
  | VObj _ _ props => props
  | _ => []
  end.

(** The test that the built-in [Object.prototype.hasOwnProperty] makes
    on an array or object [v]: whether [p] is a property of its own; an
    array also has its (non-enumerable) [length]. *)
Definition has_field (v : value) (p : string) : bool :=
  match v with
  | VArr _ items => String.eqb p "length" || bool_decide (is_Some (index_of_key p (length items)))
  | VObj _ _ props => bool_decide (is_Some (assoc p props))
  | _ => false
  end.

(** ** Outcomes: a call returns or throws *)

Inductive exn : Type := TypeError.

Inductive result (A : Type) : Type :=
| Ok (a : A)
| Throw (e : exn).
Arguments Ok {A} a.
Arguments Throw {A} e.

#[global] Instance result_ret : MRet result := fun A a => Ok a.
#[global] Instance result_bind : MBind result := fun A B f m =>
  match m with Ok a => f a | Throw e => Throw e end.
#[global] Instance result_fmap : FMap result := fun A B f m =>
  match m with Ok a => Ok (f a) | Throw e => Throw e end.

(** [v[p]].  Reading a property of [undefined] or [null] throws.  A
    string has a [length] and its characters, an array its [length] and
    items; every other name reads as [undefined] (the methods that the
    built-in prototypes would supply are functions, outside the universe). *)
Definition get_prop (v : value) (p : string) : result value :=
  match v with
  | VUndef | VNull => Throw TypeError
  | VBool _ | VNum _ | VNaN => Ok VUndef
  | VStr s =>
      if String.eqb p "length" then Ok (VNum (Z.of_nat (String.length s)))
      else match index_of_key p (String.length s) with
           | Some i => Ok (VStr (String.substring i 1 s))
           | None => Ok VUndef
           end
  | VArr _ items =>
      if String.eqb p "length" then Ok (VNum (Z.of_nat (length items)))
      else match index_of_key p (length items) with
           | Some i => Ok (nth i items VUndef)
           | None => Ok VUndef
           end
  | VObj _ _ props => Ok (default VUndef (assoc p props))
  end.

(** An object with a field of its own named [hasOwnProperty] hides the
    built-in method behind that field. *)
Definition shadows (v : value) : bool :=
  match v with
  | VObj _ _ props => bool_decide (is_Some (assoc "hasOwnProperty" props))
  | _ => false
  end.

(** [v.hasOwnProperty(p)], the method call.  It throws on [undefined]
    and [null], and on an object that has a field of its own named
    [hasOwnProperty]: that field is what [v.hasOwnProperty] reads, and no
    value of the universe is a function.  Everywhere else the built-in
    method answers; a string has its [length] and its characters, the
    other primitives have nothing of their own. *)
Definition hasOwnProperty (v : value) (p : string) : result bool :=
  match v with
  | VUndef | VNull => Throw TypeError
  | VStr s =>
      Ok (String.eqb p "length" || bool_decide (is_Some (index_of_key p (String.length s))))
  | _ => if shadows v then Throw TypeError else Ok (has_field v p)
  end.

(** [ko.unwrapObservable(v)] returns [v] itself unless [v] is an
    observable; the universe has none. *)
Definition unwrapObservable (v : value) : value := v.

(** ** Ordered search *)

Section Search.

(** [a < b] for operand pairs that the language first converts with
    ToPrimitive and ToNumber (a string against a number, an object
    against anything).  Those conversions are not reproduced: the
    outcome of such a comparison is left open. *)
Variable coerced_lt : value -> value -> bool.

(** ToNumber on the primitives where it is immediate: [null] is 0, the
    booleans are 0 and 1. *)
Definition prim_number (v : value) : option Z :=
  match v with
  | VNull => Some 0
  | VBool b => Some (if b then 1 else 0)
  | VNum n => Some n
  | _ => None
  end.

(** [a < b].  Two strings compare by code units; [undefined] and [NaN]
    compare false with everything; numbers, [null] and booleans compare
    as numbers. *)
Definition js_lt (a b : value) : bool :=
  match a, b with
  | VStr s, VStr t => String.ltb s t
  | (VUndef | VNaN), _ => false
  | _, (VUndef | VNaN) => false
  | _, _ =>
      match prim_number a, prim_number b with
      | Some x, Some y => x <? y
      | _, _ => coerced_lt a b
      end
  end.

(** [a > b] is [b < a]. *)
Definition js_gt (a b : value) : bool := js_lt b a.

(** [Array.prototype.getItemUnwrap] *)
Definition getItemUnwrap (this : list value) (index : Z) (prop : option string)
  : result value :=
  if (index >? Z.of_nat (length this) - 1) || (index <? 0) then Ok VUndef
  else
    let foundItem := unwrapObservable (nth (Z.to_nat index) this VUndef) in
    match prop with
    | Some p => unwrapObservable <$> get_prop foundItem p
    | None => Ok foundItem
    end.

(** [this.slice(from, to)] for [0 <= from] and [to <= this.length]. *)
Definition slice (this : list value) (from to : nat) : list value :=
  take (to - from) (drop from this).

(** [Array.prototype.brSearch] *)
Equations? brSearch (this : list value) (value0 : value) (prop : option string)
  : result Z by wf (length this) lt :=
brSearch [] value0 prop := Ok (-1);
brSearch (x :: xs) value0 prop :=
  let this := x :: xs in
  let middleIndex := (length this / 2)%nat in
  match getItemUnwrap this (Z.of_nat middleIndex) prop with
  | Throw e => Throw e
  | Ok middleItem =>
      if (length this =? 1)%nat && strict_neq middleItem value0 then Ok (-1)
      else if strict_eq value0 middleItem then Ok (Z.of_nat middleIndex)
      else if js_gt value0 middleItem then
        match brSearch (slice this (middleIndex + 1) (length this)) value0 prop with
        | Throw e => Throw e
        | Ok additionalIndex =>
            if additionalIndex =? -1 then Ok (-1)
            else Ok (Z.of_nat middleIndex + 1 + additionalIndex)
        end
      else brSearch (slice this 0 middleIndex) value0 prop
  end.
Proof.
  - unfold slice. rewrite length_take, length_drop. simpl length.
    clearbody middleIndex. lia.
  - unfold slice. rewrite length_take, length_drop. simpl length.
    assert (middleIndex < S (length xs))%nat as Hlt
        by (apply (Nat.div_lt (S (length xs)) 2); lia).
    clearbody middleIndex. lia.
Qed.

(** The bounds a call works with: [start === undefined ? 0 : start] and
    [end === undefined ? this.length - 1 : end]. *)
Definition start_of (start : option Z) : Z := default 0 start.
Definition end_of (this : list value) (end_ : option Z) : Z :=
  default (Z.of_nat (length this) - 1) end_.

(** Number of indices between the two bounds. *)
Definition span (this : list value) (start end_ : option Z) : nat :=
  Z.to_nat (end_of this end_ - start_of start + 1).

(** [Array.prototype.brSearchFirst] *)
Equations? brSearchFirst (this : list value) (value0 : value) (prop : option string)
  (start end_ : option Z) : result Z by wf (span this start end_) lt :=
brSearchFirst this value0 prop start end_
  with Z_lt_dec (end_of this end_) (start_of start) := {
  | left _ => Ok (-1)
  | right _ =>
      let start' := start_of start in
      let end' := end_of this end_ in
      let middleIndex := start' + (end' - start') / 2 in
      match getItemUnwrap this middleIndex prop with
      | Throw e => Throw e
      | Ok middleItem =>
          match getItemUnwrap this (middleIndex - 1) prop with
          | Throw e => Throw e
          | Ok previousItem =>
              if (strict_eq previousItem VUndef || js_gt value0 previousItem)
                 && strict_eq middleItem value0
              then Ok middleIndex
              else if js_gt value0 middleItem
              then brSearchFirst this value0 prop (Some (middleIndex + 1)) (Some end')
              else brSearchFirst this value0 prop (Some start') (Some (middleIndex - 1))
          end
      end }.
Proof.
  all: unfold span, start_of, end_of in *; simpl;
    assert (0 <= (end' - start') / 2 <= end' - start')
      by (split; [apply Z.div_pos | apply Z.div_le_upper_bound]; subst start' end';
          unfold start_of, end_of in *; lia);
    subst middleIndex; fold start' end' in n |- *;
    clearbody start' end'; lia.
Qed.

(** [Array.prototype.brSearchLast] *)
Equations? brSearchLast (this : list value) (value0 : value) (prop : option string)
  (start end_ : option Z) : result Z by wf (span this start end_) lt :=
brSearchLast this value0 prop start end_
  with Z_lt_dec (end_of this end_) (start_of start) := {
  | left _ => Ok (-1)
  | right _ =>
      let start' := start_of start in
      let end' := end_of this end_ in
      let middleIndex := start' + (end' - start') / 2 in
      match getItemUnwrap this middleIndex prop with
      | Throw e => Throw e
      | Ok middleItem =>
          match getItemUnwrap this (middleIndex + 1) prop with
          | Throw e => Throw e
          | Ok nextItem =>
              if (strict_eq nextItem VUndef || js_lt value0 nextItem)
                 && strict_eq middleItem value0
              then Ok middleIndex
              else if js_lt value0 middleItem
              then brSearchLast this value0 prop (Some start') (Some (middleIndex - 1))
              else brSearchLast this value0 prop (Some (middleIndex + 1)) (Some end')
          end
      end }.
Proof.
  all: unfold span, start_of, end_of in *; simpl;
    assert (0 <= (end' - start') / 2 <= end' - start')
      by (split; [apply Z.div_pos | apply Z.div_le_upper_bound]; subst start' end';
          unfold start_of, end_of in *; lia);
    subst middleIndex; fold start' end' in n |- *;
    clearbody start' end'; lia.
Qed.

End Search.

(** The element at an index as the searches read it: unwrapped, and
    projected on [prop] when one is given. *)
Definition project (prop : option string) (x : value) : result value :=
  match prop with
  | Some p => unwrapObservable <$> get_prop (unwrapObservable x) p
  | None => Ok (unwrapObservable x)
  end.

(** [ks] lists the projections of the elements of [this]. *)
Definition projected (prop : option string) (this ks : list value) : Prop :=
  Forall2 (fun x k => project prop x = Ok k) this ks.



(** What a successful search hands back besides the sentinel: the index
    of an element whose projection is strictly equal to the value. *)
Definition hit (this : list value) (value0 : value) (prop : option string)
  (r : Z) : Prop :=
  exists (i : nat) (x k : value),
    r = Z.of_nat i /\ this !! i = Some x /\ project prop x = Ok k /\
    strict_eq k value0 = true.

(** The order of a sequence of numbers, or of strings; values of other
    or of different types are not ordered. *)
Definition value_le (a b : value) : Prop :=
  match a, b with
  | VNum x, VNum y => x <= y
  | VStr s, VStr t => String.leb s t = true
  | _, _ => False
  end.

(** Sorted in non-decreasing order: an earlier element is below every
    later one. *)
Definition non_decreasing (ks : list value) : Prop :=
  forall (i j : nat) (a b : value),
    (i < j)%nat -> ks !! i = Some a -> ks !! j = Some b -> value_le a b.

(** The element at index [i] is strictly equal to [v]. *)
Definition occurs (v : value) (ks : list value) (i : nat) : Prop :=
  exists k, ks !! i = Some k /\ strict_eq k v = true.

(** The lowest and the highest index at which [v] occurs. *)
Definition lowest (v : value) (ks : list value) (f : nat) : Prop :=
  occurs v ks f /\ forall i, occurs v ks i -> (f <= i)%nat.
Definition highest (v : value) (ks : list value) (l : nat) : Prop :=
  occurs v ks l /\ forall i, occurs v ks i -> (i <= l)%nat.

(** A comparison of converted operands that is never the case; any other
    choice serves as well where no such comparison is reached. *)
Definition never_lt (a b : value) : bool := false.


(** ** Structural equality *)

(** A counted [for] loop over an array that returns [false] from the
    first index whose test fails, and [true] after the last one. *)
Fixpoint each_index {A : Type} (test : nat -> A -> bool) (i : nat) (l : list A) : bool :=
  match l with
  | [] => true
  | x :: rest => if test i x then each_index test (S i) rest else false
  end.

(** The body that [Array.prototype.equals] and [arrayEquals] share, with
    [items1] the elements of [this] (respectively of [array1]) and
    [nested] the function called on two elements that are both arrays.
    Once [array2] is known to be truthy, reading its properties cannot
    throw. *)
Definition equals_body (nested : value -> value -> bool)
  (items1 : list value) (array2 : value) : bool :=
  if falsy array2 then false
  else
    match get_prop array2 "length" with
    | Throw _ => false
    | Ok length2 =>
        if strict_neq (VNum (Z.of_nat (length items1))) length2 then false
        else
          each_index
            (fun i x =>
               match get_prop array2 (pretty i) with
               | Throw _ => false
               | Ok y =>
                   if instanceof_Array x && instanceof_Array y
                   then (if negb (nested x y) then false else true)
                   else if strict_neq x y then false else true
               end) 0%nat items1
    end.

(** [arrayEquals(array1, array2)].  The function is private to the
    module and [array1] is an array at both of its call sites. *)
Fixpoint arrayEquals (array1 array2 : value) {struct array1} : bool :=
  match array1 with
  | VArr _ items1 => equals_body arrayEquals items1 array2
  | _ => false
  end.

(** [Array.prototype.equals], called on the array [this]. *)
Definition Array_equals (this : list value) (other : value) : bool :=
  equals_body arrayEquals this other.

(** A [for] loop whose body either goes on with the next entry
    ([None]) or makes the function return ([Some]); a throw ends it. *)
Fixpoint for_each {A : Type} (body : A -> result (option bool)) (l : list A)
  : result (option bool) :=
  match l with
  | [] => Ok None
  | x :: rest =>
      match body x with
      | Throw e => Throw e
      | Ok (Some b) => Ok (Some b)
      | Ok None => for_each body rest
      end
  end.

(** The same over the items of an array, with their index. *)
Fixpoint for_each_index {A : Type} (body : nat -> A -> result (option bool))
  (i : nat) (l : list A) : result (option bool) :=
  match l with
  | [] => Ok None
  | x :: rest =>
      match body i x with
      | Throw e => Throw e
      | Ok (Some b) => Ok (Some b)
      | Ok None => for_each_index body (S i) rest
      end
  end.

(** One turn of the second loop of [objectEquals], on the property [p]
    of [object2]. *)
Definition second_turn (object1 object2 : value) (p : string) : result (option bool) :=
  match hasOwnProperty object2 p with
  | Throw e => Throw e
  | Ok false => Ok None
  | Ok true =>
      match hasOwnProperty object1 p with
      | Throw e => Throw e
      | Ok false => Ok (Some false)
      | Ok true => Ok None
      end
  end.

(** [objectEquals(object1, object2)].  The first loop runs over the own
    enumerable properties of [object1], [x] being what [object1[p]]
    reads, the second over those of [object2]; the enumerable properties
    an array inherits from the patched [Array.prototype] are passed over
    by both.  Every [hasOwnProperty] is a method call on the object and
    can throw. *)
Fixpoint objectEquals (object1 object2 : value) {struct object1} : result bool :=
  if strict_eq object1 object2 then Ok true
  else if negb (instanceof_Object object1) || negb (instanceof_Object object2) then Ok false
  else if constructor_neq (constructor object1) (constructor object2) then Ok false
  else
    let visit (p : string) (x : value) (nested : value -> result bool)
      : result (option bool) :=
      match hasOwnProperty object1 p with
      | Throw e => Throw e
      | Ok false => Ok None
      | Ok true =>
          match hasOwnProperty object2 p with
          | Throw e => Throw e
          | Ok false => Ok (Some false)
          | Ok true =>
              match get_prop object2 p with
              | Throw e => Throw e
              | Ok y =>
                  if strict_eq x y then Ok None
                  else if negb (typeof_object x) then Ok (Some false)
                  else
                    match nested y with
                    | Throw e => Throw e
                    | Ok false => Ok (Some false)
                    | Ok true => Ok None
                    end
              end
          end
      end in
    let first_loop :=
      match object1 with
      | VArr _ items =>
          for_each_index (fun i x => visit (pretty i) x (objectEquals x)) 0%nat items
      | VObj _ _ props => for_each (fun '(p, x) => visit p x (objectEquals x)) props
      | _ => Ok None
      end in
    match first_loop with
    | Throw e => Throw e
    | Ok (Some b) => Ok b
    | Ok None =>
        match for_each (fun '(p, _) => second_turn object1 object2 p)
                (own_props object2) with
        | Throw e => Throw e
        | Ok (Some b) => Ok b
        | Ok None => Ok true
        end
    end.

(** No [NaN] among the elements of an array, nor inside its nested
    arrays. *)
Fixpoint nan_free (v : value) : bool :=
  match v with
  | VNaN => false
  | VArr _ items => forallb nan_free items
  | _ => true
  end.

(** A primitive is a value that is not [instanceof Object]. *)
Definition is_primitive (v : value) : bool := negb (instanceof_Object v).

(** Equal field values in the words of the specification: primitives
    by value, non-primitives recursively. *)
Definition fields_agree (x y : value) : Prop :=
  if is_primitive x then strict_eq x y = true else objectEquals x y = Ok true.

(** Record equality in the words of the specification: both values are
    non-primitive, share their constructor (what [constructor] reads is
    the same on both), and every field present in one is present in the
    other, with an equal value. *)
Definition record_equal (a b : value) : Prop :=
  is_primitive a = false /\ is_primitive b = false /\
  constructor_neq (constructor a) (constructor b) = false /\
  (forall p x, In (p, x) (own_props a) ->
     has_field b p = true /\ exists y, get_prop b p = Ok y /\ fields_agree x y) /\
  (forall p y, In (p, y) (own_props b) -> has_field a p = true).

(** One turn of the first loop of [objectEquals], on the property [p] of
    [object1] with value [x]. *)
Definition visit_field (object1 object2 : value) (p : string) (x : value)
  : result (option bool) :=
  match hasOwnProperty object1 p with
  | Throw e => Throw e
  | Ok false => Ok None
  | Ok true =>
      match hasOwnProperty object2 p with
      | Throw e => Throw e
      | Ok false => Ok (Some false)
      | Ok true =>
          match get_prop object2 p with
          | Throw e => Throw e
          | Ok y =>
              if strict_eq x y then Ok None
              else if negb (typeof_object x) then Ok (Some false)
              else
                match objectEquals x y with
                | Throw e => Throw e
                | Ok false => Ok (Some false)
                | Ok true => Ok None
                end
          end
      end
  end.

(** No object, at any depth, has a field of its own named
    [hasOwnProperty]: every [hasOwnProperty] call reaches the built-in
    method. *)
Fixpoint ordinary (v : value) : bool :=
  match v with
  | VArr _ items => forallb ordinary items
  | VObj _ _ props =>
      negb (bool_decide (is_Some (assoc "hasOwnProperty" props)))
      && forallb (fun '(_, x) => ordinary x) props
  | _ => true
  end.

(** ** Cross-fill *)

(** [$.inArray(x, arr)]: the index of the first element of [arr] that is
    strictly equal to [x], or -1. *)
Fixpoint inArray_from (x : value) (arr : list value) (i : Z) : Z :=
  match arr with
  | [] => -1
  | y :: rest => if strict_eq y x then i else inArray_from x rest (i + 1)
  end.
Definition inArray (x : value) (arr : list value) : Z := inArray_from x arr 0.

Section CrossFill.

(** The objects of the observable array, with the read [o[key]()] of
    their observable key. *)
Variable elem : Type.
Variable key_of : elem -> value.

(** [objectLoader(k)] returns an object or [undefined]; it may act on
    the rest of the application, whose state is threaded through. *)
Variable world : Type.
Variable objectLoader : value -> world -> option elem * world.

(** The second loop of [crossFiller], over [newKeyList]. *)
Fixpoint load_missing (newKeyList currentKeyList : list value)
  (objectList : list elem) (w : world) : list elem * world :=
  match newKeyList with
  | [] => (objectList, w)
  | k :: rest =>
      if inArray k currentKeyList =? -1 then
        let (loadedObject, w') := objectLoader k w in
        match loadedObject with
        | Some o => load_missing rest currentKeyList (objectList ++ [o]) w'
        | None => load_missing rest currentKeyList objectList w'
        end
      else load_missing rest currentKeyList objectList w
  end.

(** The innermost loop: [splice(j, 1)] at the first [j] whose key is
    strictly equal to [k], then [break]. *)
Fixpoint splice_first (k : value) (objectList : list elem) : list elem :=
  match objectList with
  | [] => []
  | o :: rest =>
      if strict_eq (key_of o) k then rest else o :: splice_first k rest
  end.

(** The third loop, over [currentKeyList]. *)
Fixpoint remove_stale (currentKeyList newKeyList : list value)
  (objectList : list elem) : list elem :=
  match currentKeyList with
  | [] => objectList
  | k :: rest =>
      if inArray k newKeyList =? -1
      then remove_stale rest newKeyList (splice_first k objectList)
      else remove_stale rest newKeyList objectList
  end.

(** [crossFiller(newKeyList, objectList, objectLoader, key, clean)];
    [clean] is [undefined] when the argument is omitted. *)
Definition crossFiller (newKeyList : list value) (objectList : list elem)
  (clean : value) (w : world) : list elem * world :=
  let currentKeyList := map key_of objectList in
  let (objectList', w') := load_missing newKeyList currentKeyList objectList w in
  if strict_neq clean (VBool false)
  then (remove_stale currentKeyList newKeyList objectList', w')
  else (objectList', w').

(** The loader run on a list of keys in turn; the objects it returns,
    in order. *)
Fixpoint load_all (keys : list value) (w : world) : list elem * world :=
  match keys with
  | [] => ([], w)
  | k :: rest =>
      let (loadedObject, w') := objectLoader k w in
      let (added, w'') := load_all rest w' in
      (match loadedObject with Some o => o :: added | None => added end, w'')
  end.

(** An element that the pruning pass removes: its key is missing from
    [newKeyList] (and is strictly equal to itself, as every key but
    [NaN] is). *)
Definition pruned (newKeyList : list value) (o : elem) : bool :=
  (inArray (key_of o) newKeyList =? -1) && strict_eq (key_of o) (key_of o).

(** The loader, made to record the keys it is called with. *)
Definition recording (k : value) (s : world * list value)
  : option elem * (world * list value) :=
  let (loadedObject, w') := objectLoader k (fst s) in
  (loadedObject, (w', snd s ++ [k])).

End CrossFill.

(** The number of elements of [l] strictly equal to [x]. *)
Definition occurrences (x : value) (l : list value) : nat :=
  length (List.filter (fun y => strict_eq y x) l).

(** The scenario of the specification: records [{id: n}], keyed by their
    [id], and a loader that builds the record of the key it is given. *)
Definition record_of_id (n : Z) : value :=
  VObj (Z.to_pos n) "Object" [("id"%string, VNum n)].
Definition id_of (o : value) : value :=
  match get_prop o "id" with Ok k => k | Throw _ => VUndef end.
Definition id_loader (k : value) (w : unit) : option value * unit :=
  (match k with VNum n => Some (record_of_id n) | _ => None end, w).

(** ** Selective merge *)

(** The objects [merge] works on live in a heap: a reference denotes the
    record of own properties of its object, and two arguments of a call
    may be the same object.  The objects are ordinary ones: extensible,
    their fields writable and configurable, their prototype chain ending
    in [Object.prototype]. *)
Definition heap : Type := positive -> gmap string value.

(** The test that the built-in [Object.prototype.hasOwnProperty] makes
    on the object [o]. *)
Definition owns (h : heap) (o : positive) (key : string) : bool :=
  bool_decide (is_Some (h o !! key)).

(** The object [o] has no field of its own named [hasOwnProperty], so
    that [o.hasOwnProperty] is the built-in method. *)
Definition finds_built_in (h : heap) (o : positive) : Prop :=
  h o !! "hasOwnProperty"%string = None.

(** [o.hasOwnProperty(key)], a method call.  No field holds a function:
    an object with a field of its own named [hasOwnProperty] has hidden
    the built-in method behind a value that cannot be called. *)
Definition has_own (h : heap) (o : positive) (key : string) : result bool :=
  if owns h o "hasOwnProperty" then Throw TypeError else Ok (owns h o key).

(** [a && b] and [!a] on tests that can throw; [b] is not evaluated
    when [a] is false. *)
Definition and_test (a b : result bool) : result bool :=
  match a with
  | Ok true => b
  | _ => a
  end.
Definition not_test (a : result bool) : result bool :=
  match a with
  | Ok x => Ok (negb x)
  | Throw e => Throw e
  end.

(** [o[key]] on an own property, the creation or overwriting of an own
    field, and [delete o[key]]. *)
Definition own (h : heap) (o : positive) (key : string) : value :=
  default VUndef (h o !! key).
Definition update (h : heap) (o : positive) (m : gmap string value) : heap :=
  fun o' => if Pos.eqb o' o then m else h o'.
Definition assign (h : heap) (o : positive) (key : string) (v : value) : heap :=
  update h o (<[key := v]> (h o)).
Definition remove (h : heap) (o : positive) (key : string) : heap :=
  update h o (delete key (h o)).

(** How a run of [merge] ends, as far as it is followed here: it
    returns, it throws, or it has replaced the prototype of the target,
    after which what [targetObject.hasOwnProperty] finds depends on the
    new prototype chain. *)
Inductive completion : Type :=
| Returned
| Threw (e : exn)
| Reprototyped.

(** [o[key] = v].  An object that has no field of its own named
    [__proto__] inherits the accessor of that name from
    [Object.prototype], and the assignment calls its setter instead of
    creating a field: a value that is neither an object nor [null] is
    ignored, any other becomes the prototype of [o]. *)
Definition assign_field (h : heap) (o : positive) (key : string) (v : value)
  : heap * completion :=
  if String.eqb key "__proto__" && negb (owns h o key) then
    if typeof_object v then (h, Reprototyped) else (h, Returned)
  else (assign h o key v, Returned).

(** The callback that [merge] hands to [$.each], for one key. *)
Definition merge_key (originalObject newObject targetObject : positive)
  (h : heap) (key : string) : heap * completion :=
  match and_test (has_own h originalObject key) (has_own h targetObject key) with
  | Throw e => (h, Threw e)
  | Ok true =>
      if strict_eq (own h originalObject key) (own h targetObject key) then
        match has_own h newObject key with
        | Throw e => (h, Threw e)
        | Ok true => assign_field h targetObject key (own h newObject key)
        | Ok false => (remove h targetObject key, Returned)
        end
      else (h, Returned)
  | Ok false =>
      match and_test (not_test (has_own h originalObject key))
                     (not_test (has_own h targetObject key)) with
      | Throw e => (h, Threw e)
      | Ok true =>
          match has_own h newObject key with
          | Throw e => (h, Threw e)
          | Ok true => assign_field h targetObject key (own h newObject key)
          | Ok false => (h, Returned)
          end
      | Ok false => (h, Returned)
      end
  end.

(** [merge(originalObject, newObject, targetObject, keys)]: the heap it
    leaves and how it ends.  The callback returns nothing, so that
    [$.each] goes through all of [keys] unless a turn throws. *)
Fixpoint merge (originalObject newObject targetObject : positive)
  (keys : list string) (h : heap) : heap * completion :=
  match keys with
  | [] => (h, Returned)
  | key :: rest =>
      match merge_key originalObject newObject targetObject h key with
      | (h', Returned) => merge originalObject newObject targetObject rest h'
      | stopped => stopped
      end
  end.

(** The two situations in which [merge] lets the incoming field through:
    original and target both define it with strictly equal values, or
    neither defines it. *)
Definition unmodified (original target : option value) : bool :=
  match original, target with
  | Some a, Some b => strict_eq a b
  | None, None => true
  | _, _ => false
  end.

(** A field that a turn of [merge] has nothing to write to: where the
    target is unmodified it holds what the incoming object holds, or the
    key is [__proto__], which neither has, with an incoming value that
    the setter ignores. *)
Definition settled (originalObject newObject targetObject : positive)
  (h : heap) (key : string) : Prop :=
  unmodified (h originalObject !! key) (h targetObject !! key) = true ->
  h newObject !! key = h targetObject !! key \/
  (key = "__proto__"%string /\ h targetObject !! key = None /\
   exists v, h newObject !! key = Some v /\ typeof_object v = false).

(** The three objects of a call all find the built-in method. *)
Definition built_in_tests (originalObject newObject targetObject : positive)
  (h : heap) : Prop :=
  finds_built_in h originalObject /\ finds_built_in h newObject /\
  finds_built_in h targetObject.

(** The merge scenario of the specification: object 1 is the original
    [{x:1}], object 2 the incoming [{x:2}], object 3 a target [{x:1}]
    that was not touched and object 4 a target [{x:5}] that was. *)
Definition scenario_heap : heap := fun o =>
  match o with
  | 1%positive => {[ "x"%string := VNum 1 ]}
  | 2%positive => {[ "x"%string := VNum 2 ]}
  | 3%positive => {[ "x"%string := VNum 1 ]}
  | 4%positive => {[ "x"%string := VNum 5 ]}
  | _ => ∅
  end.

(** Two heaps on which [merge] does not do what the three cases say.
    In the first the incoming object 2 is [{x:2, hasOwnProperty:0}],
    original and target being [{x:1}]; in the second it has a field of
    its own named [__proto__], as [JSON.parse] makes them, and original
    and target are empty. *)
Definition hidden_method_heap : heap := fun o =>
  match o with
  | 1%positive => {[ "x"%string := VNum 1 ]}
  | 2%positive => <[ "hasOwnProperty"%string := VNum 0 ]> {[ "x"%string := VNum 2 ]}
  | 3%positive => {[ "x"%string := VNum 1 ]}
  | _ => ∅
  end.
Definition proto_heap : heap := fun o =>
  match o with
  | 2%positive => {[ "__proto__"%string := VNum 5 ]}
  | _ => ∅
  end.

(** ** Array helpers *)

(** [Array.prototype.contains] *)
Fixpoint contains (this : list value) (element : value) : bool :=
  match this with
  | [] => false
  | y :: rest => if strict_eq element y then true else contains rest element
  end.

(** [arrayHasElement(array, element)] *)
Fixpoint arrayHasElement (array : list value) (element : value) : bool :=
  match array with
  | [] => false
  | y :: rest => if strict_eq element y then true else arrayHasElement rest element
  end.

(** [isEmpty(value)] *)
Definition isEmpty (value0 : value) : bool :=
  contains [VStr ""; VNull; VUndef] value0 || strict_eq value0 VNull.

(** [this.indexOf(element)]: the first index holding a strictly equal
    element, or -1. *)
Definition indexOf (this : list value) (element : value) : Z :=
  inArray_from element this 0.

(** [this.splice(index, 1)] for an index inside the array. *)
Definition splice_one (this : list value) (index : Z) : list value :=
  delete (Z.to_nat index) this.

(** [Array.prototype.remove]; the array after the call. *)
Definition Array_remove (this : list value) (element : value) : list value :=
  let index := indexOf this element in
  if index >? -1 then splice_one this index else this.

(** [removeElement(array, element)]; the array after the call. *)
Definition removeElement (array : list value) (element : value) : list value :=
  let index := indexOf array element in
  if negb (index =? -1) then splice_one array index else array.

(** [array.filter(callback)] with a callback that looks at the item and
    at its position. *)
Fixpoint filter_at (callback : value -> nat -> bool) (pos : nat) (array : list value)
  : list value :=
  match array with
  | [] => []
  | item :: rest =>
      if callback item pos then item :: filter_at callback (S pos) rest
      else filter_at callback (S pos) rest
  end.

(** [arrayFilterUnique(array)] *)
Definition arrayFilterUnique (array : list value) : list value :=
  filter_at (fun item pos => indexOf array item =? Z.of_nat pos) 0%nat array.

(** [arrayHasElementWithProperty(array, property, value)] *)
Fixpoint arrayHasElementWithProperty (array : list value) (property : string)
  (value0 : value) : result bool :=
  match array with
  | [] => Ok false
  | element :: rest =>
      match hasOwnProperty element property with
      | Throw e => Throw e
      | Ok false => arrayHasElementWithProperty rest property value0
      | Ok true =>
          match get_prop element property with
          | Throw e => Throw e
          | Ok x =>
              if strict_eq x value0 then Ok true
              else arrayHasElementWithProperty rest property value0
          end
      end
  end.

(** No two elements of the list are strictly equal. *)
Fixpoint all_distinct (l : list value) : Prop :=
  match l with
  | [] => True
  | x :: rest => Forall (fun y => strict_eq x y = false) rest /\ all_distinct rest
  end.

(** [element] has [property] for its own, its [hasOwnProperty] method
    says so, and it holds there a value strictly equal to [value0]. *)
Definition has_property_value (property : string) (value0 element : value) : Prop :=
  hasOwnProperty element property = Ok true /\
  exists x, get_prop element property = Ok x /\ strict_eq x value0 = true.

(** [trySet(observable, object, key, formatFunction)]: the content of the
    observable after the call, [observable] being its content before.
    [formatFunction] is [None] when the argument is omitted or is not a
    function. *)
Definition trySet (observable object : value) (key : string)
  (formatFunction : option (value -> value)) : result value :=
  if strict_neq object VUndef then
    match hasOwnProperty object key with
    | Throw e => Throw e
    | Ok true =>
        match get_prop object key with
        | Throw e => Throw e
        | Ok x =>
            match formatFunction with
            | Some format => Ok (format x)
            | None => Ok x
            end
        end
    | Ok false => Ok observable
    end
  else Ok observable.

(** ** The disk view model, [viewmodels/containers/disk.js] *)

Module Disk.

(** What [define] hands to the view model as [generic]: the function of
    [ovs/generic] returns [new GenericService()], an object whose
    prototype is made of [properties], [patchFunctions],
    [promiseFunctions] and [formatFunction].  The table of functions that
    follows this [return] in the file is never reached, so that
    [trySet], [getTimestamp] and the other functions of the file are no
    members of it. *)
Definition generic_members : list string :=
  ["ipRegex"; "hostRegex"; "nameRegex"; "vdiskNameRegex";
   "patchPrototypes";
   "delay"; "chainPromises";
   "round"; "ceil"; "setDecimals"; "formatBytes"; "formatSpeed"; "formatNumber";
   "formatPercentage"]%string.

(** [generic.member(...)], [body] being what the function of that name
    does with the arguments: a member that the module lacks reads as
    [undefined], and the call throws. *)
Definition generic_call {A : Type} (member : string) (body : result A) : result A :=
  if bool_decide (member ∈ generic_members) then body else Throw TypeError.

(** The observables of a disk that [fillData] writes, by their content. *)
Record t : Type := mk {
  path : value;
  vendor : value;
  diskModel : value;
  state : value;
  name : value;
  size : value;
  isSsd : value;
  storageRouterGuid : value;
  loaded : value;
  loading : value;
  trigger : value
}.

(** Writing one observable. *)
Definition set_path (x : value) (s : t) : t :=
  mk x (vendor s) (diskModel s) (state s) (name s) (size s) (isSsd s)
    (storageRouterGuid s) (loaded s) (loading s) (trigger s).
Definition set_vendor (x : value) (s : t) : t :=
  mk (path s) x (diskModel s) (state s) (name s) (size s) (isSsd s)
    (storageRouterGuid s) (loaded s) (loading s) (trigger s).
Definition set_diskModel (x : value) (s : t) : t :=
  mk (path s) (vendor s) x (state s) (name s) (size s) (isSsd s)
    (storageRouterGuid s) (loaded s) (loading s) (trigger s).
Definition set_state (x : value) (s : t) : t :=
  mk (path s) (vendor s) (diskModel s) x (name s) (size s) (isSsd s)
    (storageRouterGuid s) (loaded s) (loading s) (trigger s).
Definition set_name (x : value) (s : t) : t :=
  mk (path s) (vendor s) (diskModel s) (state s) x (size s) (isSsd s)
    (storageRouterGuid s) (loaded s) (loading s) (trigger s).
Definition set_size (x : value) (s : t) : t :=
  mk (path s) (vendor s) (diskModel s) (state s) (name s) x (isSsd s)
    (storageRouterGuid s) (loaded s) (loading s) (trigger s).
Definition set_isSsd (x : value) (s : t) : t :=
  mk (path s) (vendor s) (diskModel s) (state s) (name s) (size s) x
    (storageRouterGuid s) (loaded s) (loading s) (trigger s).
Definition set_storageRouterGuid (x : value) (s : t) : t :=
  mk (path s) (vendor s) (diskModel s) (state s) (name s) (size s) (isSsd s)
    x (loaded s) (loading s) (trigger s).
Definition set_loaded (x : value) (s : t) : t :=
  mk (path s) (vendor s) (diskModel s) (state s) (name s) (size s) (isSsd s)
    (storageRouterGuid s) x (loading s) (trigger s).
Definition set_loading (x : value) (s : t) : t :=
  mk (path s) (vendor s) (diskModel s) (state s) (name s) (size s) (isSsd s)
    (storageRouterGuid s) (loaded s) x (trigger s).
Definition set_trigger (x : value) (s : t) : t :=
  mk (path s) (vendor s) (diskModel s) (state s) (name s) (size s) (isSsd s)
    (storageRouterGuid s) (loaded s) (loading s) x.

(** A statement acts on the observables and returns or throws; what it
    wrote before a throw stays written. *)
Definition statement : Type := t -> t * result unit.

(** [generic.trySet(self.x, data, key);] for the observable read by
    [get] and written by [set]. *)
Definition try_set (get : t -> value) (set : value -> t -> t) (data : value)
  (key : string) : statement :=
  fun self =>
    match generic_call "trySet" (trySet (get self) data key None) with
    | Ok x => (set x self, Ok tt)
    | Throw e => (self, Throw e)
    end.

(** [first; second] *)
Definition and_then (first second : statement) : statement :=
  fun self =>
    match first self with
    | (self', Ok _) => second self'
    | (self', Throw e) => (self', Throw e)
    end.

(** [self.fillData(data)]; [now] is what [getTimestamp] would return. *)
Definition fillData (now : Z) (data : value) : statement :=
  and_then (try_set path set_path data "path")
 (and_then (try_set vendor set_vendor data "vendor")
 (and_then (try_set diskModel set_diskModel data "model")
 (and_then (try_set state set_state data "state")
 (and_then (try_set name set_name data "name")
 (and_then (try_set size set_size data "size")
 (and_then (try_set isSsd set_isSsd data "is_ssd")
 (and_then (try_set storageRouterGuid set_storageRouterGuid data "storagerouter_guid")
 (and_then (fun self => (set_loaded (VBool true) self, Ok tt))
 (and_then (fun self => (set_loading (VBool false) self, Ok tt))
  (fun self =>
         match generic_call "getTimestamp" (Ok (VNum now)) with
         | Ok x => (set_trigger x self, Ok tt)
         | Throw e => (self, Throw e)
         end)))))))))).

(** A partition as [fullPartitions] sees it: the [guid] it was built
    with and the content of its [state], [offset] and [size]
    observables, the last two being numbers. *)
Record Partition : Type := mkPartition {
  guid : value;
  pstate : value;
  offset : Z;
  psize : Z
}.

(** [new Partition()] followed by [state('RAW')], [offset(o)] and
    [size(s)]. *)
Definition raw (o s : Z) : Partition :=
  {| guid := VUndef; pstate := VStr "RAW"; offset := o; psize := s |}.

Section Partitions.

(** The number that an addition or subtraction of two whole numbers
    makes: a double, which is the exact result up to 2^53 and the nearest
    double beyond. *)
Variable to_double : Z -> Z.

(** The callback of [$.each(self.partitions(), ...)] in
    [fullPartitions], run over the partitions in turn; the entries
    pushed on [data]. *)
Fixpoint each_partition (previousPartition : option Partition)
  (partitions : list Partition) : list Partition :=
  match partitions with
  | [] => []
  | partition :: rest =>
      (match previousPartition with
       | None =>
           if negb (offset partition =? 0) then [raw 0 (offset partition)] else []
       | Some previous =>
           if to_double (offset previous + psize previous) <? offset partition
           then [raw (to_double (offset previous + psize previous))
                   (to_double (to_double (offset partition - offset previous)
                               - psize previous))]
           else []
       end) ++ partition :: each_partition (Some partition) rest
  end.

(** The list [data] that [fullPartitions] builds for a disk of size
    [diskSize].  The two passes that follow in the source set
    [relativeSize] and [small] on its entries and leave the list, the
    offsets and the sizes as they are. *)
Definition fullPartitions (diskSize : Z) (partitions : list Partition)
  : list Partition :=
  if Z.of_nat (length partitions) >? 0 then
    let data := each_partition None partitions in
    match last partitions with
    | Some partition =>
        if to_double (offset partition + psize partition) <? diskSize
        then data ++ [raw (to_double (offset partition + psize partition))
                        (to_double (to_double (diskSize - offset partition)
                                    - psize partition))]
        else data
    | None => data
    end
  else [raw 0 diskSize].

End Partitions.

End Disk.

(** The partitions lie in order between [from] and [diskSize] without
    overlapping: each starts at or after the end of the one before. *)
Fixpoint fits (from diskSize : Z) (partitions : list Disk.Partition) : Prop :=
  match partitions with
  | [] => from <= diskSize
  | p :: rest =>
      from <= Disk.offset p /\ fits (Disk.offset p + Disk.psize p) diskSize rest
  end.

(** The entries cover the range from [from] to [to] end to end. *)
Fixpoint tiles (from to : Z) (entries : list Disk.Partition) : Prop :=
  match entries with
  | [] => from = to
  | e :: rest => Disk.offset e = from /\ tiles (from + Disk.psize e) to rest
  end.

(** Where the partition before, if any, ends: where the next entry is
    to start. *)
Definition end_of_previous (previousPartition : option Disk.Partition) : Z :=
  match previousPartition with
  | Some p => Disk.offset p + Disk.psize p
  | None => 0
  end.

(** Neither its offset nor its size is negative. *)
Definition not_negative (previousPartition : option Disk.Partition) : Prop :=
  match previousPartition with
  | Some p => 0 <= Disk.offset p /\ 0 <= Disk.psize p
  | None => True
  end.

(** ** String helpers *)

(** [padRight(value, character, length)] on strings.  The [while] loop
    is run for at most [fuel] turns; [None] when they do not suffice. *)
Fixpoint padRight (fuel : nat) (value0 character : string) (length0 : Z)
  : option string :=
  if Z.of_nat (String.length value0) <? length0 then
    match fuel with
    | O => None
    | S fuel' => padRight fuel' (value0 +:+ character) character length0
    end
  else Some value0.

(** [character] repeated [n] times. *)
Fixpoint replicate_string (n : nat) (character : string) : string :=
  match n with
  | O => ""
  | S n' => character +:+ replicate_string n' character
  end.


(** The characters of a string, each as a string of its own: what
    [s[0]], [s[1]], ... read. *)
Definition characters (s : string) : list value :=
  map (fun c => VStr (String c EmptyString)) (list_ascii_of_string s).

(** The values on which property names tell fields apart: the names of
    an object are distinct, none of them is [hasOwnProperty], and no
    object that is not an array inherits [Array] as its constructor; the
    same inside arrays and objects. *)
Fixpoint plain (v : value) : bool :=
  match v with
  | VArr _ items => forallb plain items
  | VObj _ ctor props =>
      negb (bool_decide (is_Some (assoc "hasOwnProperty" props)))
      && (negb (String.eqb ctor "Array")
          && bool_decide (NoDup (map fst props))
          && forallb (fun '(_, x) => plain x) props)
  | _ => true
  end.

(** ** Sorting helpers *)

(** [\d]: the ten decimal digits. *)
Definition is_digit (c : Ascii.ascii) : bool :=
  let n := Z.of_nat (Ascii.nat_of_ascii c) in (48 <=? n) && (n <=? 57).

(** [s.replace(/[\d]+/g, '')]: the string without its digits. *)
Fixpoint remove_digits (s : string) : string :=
  match s with
  | EmptyString => EmptyString
  | String c rest =>
      if is_digit c then remove_digits rest else String c (remove_digits rest)
  end.

(** [s.replace(/[^\d]+/g, '')]: the digits of the string. *)
Fixpoint keep_digits (s : string) : string :=
  match s with
  | EmptyString => EmptyString
  | String c rest =>
      if is_digit c then String c (keep_digits rest) else keep_digits rest
  end.

(** The integer that a string of digits denotes in base 10, read from
    the left with [acc] the value of the digits already read. *)
Fixpoint digits_value (acc : Z) (s : string) : Z :=
  match s with
  | EmptyString => acc
  | String c rest => digits_value (10 * acc + (Z.of_nat (Ascii.nat_of_ascii c) - 48)) rest
  end.

(** [s.split('.')] *)
Fixpoint split_dot (s : string) : list string :=
  match s with
  | EmptyString => [EmptyString]
  | String c rest =>
      if Ascii.eqb c "."%char then EmptyString :: split_dot rest
      else match split_dot rest with
           | part :: parts => String c part :: parts
           | [] => [String c EmptyString]
           end
  end.

Section Sorting.

(** The comparisons of [numberSort] are between two strings or between
    two numbers, where [coerced_lt] plays no role. *)
Variable coerced_lt : value -> value -> bool.

(** The number that [parseInt] makes of an integer: a double, which is
    the integer itself up to 2^53 and the nearest double beyond. *)
Variable to_double : Z -> Z.

(** [parseInt(digits, 10)] on a string of digits: [NaN] when there is
    none. *)
Definition parseInt10 (digits : string) : value :=
  if String.eqb digits "" then VNaN else VNum (to_double (digits_value 0 digits)).

(** [numberSort(itemA, itemB)].  Past the three tests on [undefined] and
    [null] both items have to be strings: nothing else has a [replace]
    method to call. *)
Definition numberSort (itemA itemB : value) : result Z :=
  if (strict_eq itemA VUndef || strict_eq itemA VNull)
     && (strict_neq itemB VUndef && strict_neq itemB VNull) then Ok (-1)
  else if (strict_eq itemA VUndef || strict_eq itemA VNull)
          && (strict_eq itemB VUndef || strict_eq itemB VNull) then Ok 0
  else if (strict_neq itemA VUndef && strict_neq itemA VNull)
          && (strict_eq itemB VUndef || strict_eq itemB VNull) then Ok 1
  else
    match itemA, itemB with
    | VStr a, VStr b =>
        let partA := VStr (remove_digits a) in
        let partB := VStr (remove_digits b) in
        if strict_eq partA partB then
          let partA := parseInt10 (keep_digits a) in
          let partB := parseInt10 (keep_digits b) in
          Ok (if strict_eq partA partB then 0
              else if js_gt coerced_lt partA partB then 1 else -1)
        else Ok (if js_gt coerced_lt partA partB then 1 else -1)
    | _, _ => Throw TypeError
    end.

(** [parts[i]], [undefined] past the end. *)
Definition part_at (parts : list string) (i : nat) : value :=
  match parts !! i with
  | Some s => VStr s
  | None => VUndef
  end.

(** The loop of [ipSort], from index [i], with [n] turns to go. *)
Fixpoint ipSort_from (n i : nat) (ipAParts ipBParts : list string) : result Z :=
  match n with
  | O => Ok 0
  | S n' =>
      match numberSort (part_at ipAParts i) (part_at ipBParts i) with
      | Throw e => Throw e
      | Ok result0 =>
          if negb (result0 =? 0) then Ok result0
          else ipSort_from n' (S i) ipAParts ipBParts
      end
  end.

(** [ipSort(ipA, ipB)] on two strings. *)
Definition ipSort (ipA ipB : string) : result Z :=
  ipSort_from 4 0 (split_dot ipA) (split_dot ipB).

End Sorting.

(** A string without digits, and a numeral: a non-empty string of
    digits. *)
Definition digit_free (s : string) : bool := String.eqb (keep_digits s) "".
Definition numeral (s : string) : bool :=
  negb (String.eqb s "") && String.eqb (remove_digits s) "".

(** The parts of an address put together again with dots. *)
Fixpoint join_dots (parts : list string) : string :=
  match parts with
  | [] => EmptyString
  | [p] => p
  | p :: rest => p ++ "." ++ join_dots rest
  end.

(** The order of two lists of numbers, entry by entry: -1, 0 or 1. *)
Fixpoint compare_entries (a b : list Z) : Z :=
  match a, b with
  | x :: a', y :: b' =>
      if x =? y then compare_entries a' b' else if x >? y then 1 else -1
  | _, _ => 0
  end.

(** ** Promise helpers *)

Section Chain.

(** The callbacks act on the rest of the application; [call f] is
    [f()] and [then_ chain f] is [chain.then(f)], each with the value it
    returns. *)
Variable world : Type.
Variable callback : Type.
Variable call : callback -> world -> value * world.
Variable then_ : value -> callback -> world -> value * world.

(** The function handed to [reduce]: an expression statement and no
    [return], so that the accumulator becomes [undefined]. *)
Definition chain_step (s : value * world) (func : callback) : value * world :=
  let (chain, w) := s in
  if negb (falsy chain) then (VUndef, snd (then_ chain func w))
  else (VUndef, snd (call func w)).

(** [chainPromises(callbackList)]: [reduce] from the initial value
    [null]. *)
Definition chainPromises (callbackList : list callback) (w : world) : value * world :=
  foldl chain_step (VNull, w) callbackList.

(** The callbacks called one after the other, none waiting for the
    one before. *)
Definition call_all (callbackList : list callback) (w : world) : world :=
  foldl (fun w' func => snd (call func w')) w callbackList.

End Chain.

(** ** Device names *)

(** [name.replace(/^(\/)+|(\/)+$/g, '')]: the name without the slashes
    it starts with and without those it ends with. *)
Fixpoint drop_leading_slashes (s : string) : string :=
  match s with
  | EmptyString => EmptyString
  | String c rest => if Ascii.eqb c "/"%char then drop_leading_slashes rest else s
  end.
Fixpoint drop_trailing_slashes (s : string) : string :=
  match s with
  | EmptyString => EmptyString
  | String c rest =>
      let rest' := drop_trailing_slashes rest in
      if Ascii.eqb c "/"%char && String.eqb rest' "" then EmptyString else String c rest'
  end.

(** [.replace(/ /g, "_")] *)
Fixpoint spaces_to_underscores (s : string) : string :=
  match s with
  | EmptyString => EmptyString
  | String c rest =>
      String (if Ascii.eqb c " "%char then "_"%char else c) (spaces_to_underscores rest)
  end.

(** The class [[a-zA-Z0-9-_\.\/]]. *)
Definition allowed_char (c : Ascii.ascii) : bool :=
  let n := Z.of_nat (Ascii.nat_of_ascii c) in
  ((97 <=? n) && (n <=? 122)) || ((65 <=? n) && (n <=? 90)) || ((48 <=? n) && (n <=? 57))
  || Ascii.eqb c "-"%char || Ascii.eqb c "_"%char || Ascii.eqb c "."%char
  || Ascii.eqb c "/"%char.

(** [.replace(/[^a-zA-Z0-9-_\.\/]+/g, "")] *)
Fixpoint keep_allowed (s : string) : string :=
  match s with
  | EmptyString => EmptyString
  | String c rest =>
      if allowed_char c then String c (keep_allowed rest) else keep_allowed rest
  end.

(** [cleaned.indexOf('//') > -1] *)
Fixpoint has_double_slash (s : string) : bool :=
  match s with
  | EmptyString => false
  | String c rest =>
      match rest with
      | EmptyString => false
      | String d _ => (Ascii.eqb c "/"%char && Ascii.eqb d "/"%char) || has_double_slash rest
      end
  end.

(** [cleaned.replace(/\/\//g, '/')]: from the left, every two slashes
    in a row become one. *)
Fixpoint halve_slashes (s : string) : string :=
  match s with
  | EmptyString => EmptyString
  | String c rest =>
      match rest with
      | EmptyString => String c EmptyString
      | String d rest' =>
          if Ascii.eqb c "/"%char && Ascii.eqb d "/"%char
          then String "/"%char (halve_slashes rest')
          else String c (halve_slashes rest)
      end
  end.

(** The [while] loop of [cleanDeviceName]. *)
Equations? collapse_slashes (cleaned : string) : string
  by wf (String.length cleaned) lt :=
collapse_slashes cleaned with bool_dec (has_double_slash cleaned) true := {
  | left _ => collapse_slashes (halve_slashes cleaned)
  | right _ => cleaned }.
Proof.
  assert (forall (n : nat) (s : string), (String.length s <= n)%nat ->
            (String.length (halve_slashes s) <= String.length s)%nat /\
            (has_double_slash s = true ->
             (String.length (halve_slashes s) < String.length s)%nat)) as H.
  { induction n as [|n IH]; intros s Hs.
    - destruct s; [|simpl in Hs; lia]. split; [reflexivity|discriminate].
    - destruct s as [|c [|d rest]]; [split; [reflexivity|discriminate]
                                     |split; [reflexivity|discriminate]|].
      change (halve_slashes (String c (String d rest)))
        with (if Ascii.eqb c "/"%char && Ascii.eqb d "/"%char
              then String "/"%char (halve_slashes rest)
              else String c (halve_slashes (String d rest))).
      change (has_double_slash (String c (String d rest)))
        with ((Ascii.eqb c "/"%char && Ascii.eqb d "/"%char)
              || has_double_slash (String d rest)).
      destruct (Ascii.eqb c "/"%char && Ascii.eqb d "/"%char).
      + destruct (IH rest) as [Hle _]; [simpl in Hs; lia|].
        cbn [String.length]. split; [lia|intros _; lia].
      + destruct (IH (String d rest)) as [Hle Hlt]; [simpl in Hs |- *; lia|].
        set (inner := halve_slashes (String d rest)) in *.
        cbn [String.length orb] in *. split; [lia|]. intros Hd. specialize (Hlt Hd). lia. }
  apply (H (String.length cleaned) cleaned); [reflexivity|assumption].
Qed.

(** [cleaned.slice(-4)] *)
Definition last_four (cleaned : string) : string :=
  String.substring (String.length cleaned - 4) 4 cleaned.

(** [cleanDeviceName(name)] on a string. *)
Definition cleanDeviceName (name : string) : string :=
  let cleaned :=
    keep_allowed (spaces_to_underscores
                    (drop_trailing_slashes (drop_leading_slashes name))) in
  let cleaned := collapse_slashes cleaned in
  if (Z.of_nat (String.length cleaned) >? 4) && String.eqb (last_four cleaned) ".raw"
  then cleaned
  else (cleaned ++ ".raw")%string.

(** A string made of characters of the class only. *)
Definition all_allowed (s : string) : bool :=
  forallb allowed_char (list_ascii_of_string s).

(** ** Number formatting *)

(** [decimals || 2]: an omitted count and a count of 0 both become 2. *)
Definition decimals_or_2 (decimals : option Z) : Z :=
  match decimals with
  | Some d => if d =? 0 then 2 else d
  | None => 2
  end.

(** The [for] loop of [setDecimals]: [turns] times [newString += '0']. *)
Fixpoint add_zeros (turns : nat) (newString : string) : string :=
  match turns with
  | O => newString
  | S turns' => add_zeros turns' (newString +:+ "0")
  end.

(** The [while] loop of [setDecimals] on [parts[1]]. *)
Equations? pad_fraction (fraction : string) (decimals : Z) : string
  by wf (Z.to_nat (decimals - Z.of_nat (String.length fraction))) lt :=
pad_fraction fraction decimals
  with Z_lt_dec (Z.of_nat (String.length fraction)) decimals := {
  | left _ => pad_fraction (fraction +:+ "0") decimals
  | right _ => fraction }.
Proof.
  assert (forall t : string, String.length (t +:+ "0") = S (String.length t)) as H.
  { intros t. induction t as [|c t IH]; [reflexivity|]. simpl. f_equal. exact IH. }
  rewrite H. lia.
Qed.

Section Decimals.

(** [isNaN(value)] and [value.toString()] are the language's own; the
    second throws on [null] and [undefined]. *)
Variable isNaN : value -> bool.
Variable toString : value -> result string.

(** [setDecimals(value, decimals)] with a whole number, or nothing, for
    [decimals]. *)
Definition setDecimals (value0 : value) (decimals : option Z) : result string :=
  let decimals := decimals_or_2 decimals in
  match (if isNaN value0 then Ok ["0"%string] else split_dot <$> toString value0) with
  | Throw e => Throw e
  | Ok parts =>
      if decimals <=? 0 then Ok (nth 0 parts ""%string)
      else
        let parts :=
          if (length parts =? 1)%nat
          then parts ++ [add_zeros (Z.to_nat decimals) ""]
          else parts in
        Ok (nth 0 parts ""%string +:+ "." +:+ pad_fraction (nth 1 parts ""%string) decimals)
  end.

End Decimals.

(** ** Relative sizes of the entries of a disk *)

(** What the last loop of [fullPartitions] reads and writes of an
    entry: its [relativeSize], a whole number once the size of the disk
    is a positive number, and the flag [small]. *)
Record Sized : Type := mkSized { relativeSize : Z; small : bool }.

Definition minSize : Z := 3.

(** The [while] loop that looks for an entry to take [minSize] from, for
    the entry at [index]; [runningIndex] is the entry looked at next.
    The loop is run for at most [fuel] turns, [None] when they do not
    suffice; reading past the end of [data] would throw. *)
Fixpoint borrow (fuel : nat) (index runningIndex : nat) (data : list Sized)
  : option (result (list Sized)) :=
  match data !! index with
  | None => Some (Throw TypeError)
  | Some partition =>
      if negb (runningIndex =? index)%nat && (relativeSize partition <? minSize) then
        match fuel with
        | O => None
        | S fuel' =>
            let runningIndex :=
              if (runningIndex =? length data)%nat then 0%nat else runningIndex in
            if negb (runningIndex =? index)%nat then
              match data !! runningIndex with
              | None => Some (Throw TypeError)
              | Some other =>
                  if relativeSize other >=? minSize * 2 then
                    borrow fuel' index (S runningIndex)
                      (alter (fun e => {| relativeSize := relativeSize e - minSize;
                                          small := small e |}) runningIndex
                         (alter (fun _ => {| relativeSize := minSize; small := true |})
                            index data))
                  else borrow fuel' index (S runningIndex) data
              end
            else borrow fuel' index (S runningIndex) data
        end
      else Some (Ok data)
  end.

(** [$.each(data, ...)] from [index] on, with [turns] entries to go. *)
Fixpoint each_small (fuel turns index : nat) (data : list Sized)
  : option (result (list Sized)) :=
  match turns with
  | O => Some (Ok data)
  | S turns' =>
      match data !! index with
      | None => Some (Throw TypeError)
      | Some partition =>
          if relativeSize partition <? minSize then
            match borrow fuel index (S index) data with
            | Some (Ok data') => each_small fuel turns' (S index) data'
            | outcome => outcome
            end
          else each_small fuel turns' (S index) data
      end
  end.

(** The last block of [fullPartitions]: [if (data.length > 1) ...]. *)
Definition spread_small (fuel : nat) (data : list Sized) : option (result (list Sized)) :=
  if (1 <? length data)%nat then each_small fuel (length data) 0 data
  else Some (Ok data).
(** * Properties *)

(** ** Facts about values *)

Lemma strict_eq_sym (a b : value) : strict_eq a b = strict_eq b a.
Proof.
  destruct a, b; simpl; try reflexivity.
  - destruct b, b0; reflexivity.
  - apply Z.eqb_sym.
  - apply String.eqb_sym.
  - apply Pos.eqb_sym.
  - apply Pos.eqb_sym.
Qed.

Lemma strict_eq_trans (a b c : value) :
  strict_eq a b = true -> strict_eq b c = true -> strict_eq a c = true.
Proof.
  destruct a, b; simpl; try discriminate; destruct c; simpl; try discriminate;
    try reflexivity.
  - intros H1 H2. apply Bool.eqb_prop in H1, H2. subst. apply Bool.eqb_reflx.
  - intros H1 H2. apply Z.eqb_eq in H1, H2. subst. apply Z.eqb_refl.
  - intros H1 H2. apply String.eqb_eq in H1, H2. subst. apply String.eqb_refl.
  - intros H1 H2. apply Pos.eqb_eq in H1, H2. subst. apply Pos.eqb_refl.
  - intros H1 H2. apply Pos.eqb_eq in H1, H2. subst. apply Pos.eqb_refl.
Qed.

Lemma get_prop_returns (x : value) (p : string) :
  x <> VUndef -> x <> VNull -> exists k, get_prop x p = Ok k.
Proof.
  intros Hu Hn. destruct x; simpl; try congruence; eauto.
  - destruct (String.eqb p "length"); eauto.
    destruct (index_of_key p (String.length s)); eauto.
  - destruct (String.eqb p "length"); eauto.
    destruct (index_of_key p (length items)); eauto.
Qed.


Section SearchFacts.

Variable coerced_lt : value -> value -> bool.


Lemma getItemUnwrap_outside (this : list value) (i : Z) (prop : option string) :
  i < 0 \/ Z.of_nat (length this) <= i -> getItemUnwrap this i prop = Ok VUndef.
Proof.
  intros H. unfold getItemUnwrap.
  destruct (i >? Z.of_nat (length this) - 1) eqn:E1;
    destruct (i <? 0) eqn:E2; simpl; try reflexivity. lia.
Qed.

Lemma getItemUnwrap_inside (this : list value) (i : nat) (prop : option string) x :
  this !! i = Some x -> getItemUnwrap this (Z.of_nat i) prop = project prop x.
Proof.
  intros Hx. pose proof (lookup_lt_Some _ _ _ Hx) as Hlt.
  unfold getItemUnwrap.
  destruct (Z.of_nat i >? Z.of_nat (length this) - 1) eqn:E1; [lia|].
  destruct (Z.of_nat i <? 0) eqn:E2; [lia|]. simpl.
  rewrite Nat2Z.id, nth_lookup, Hx. reflexivity.
Qed.

Lemma getItemUnwrap_projected (this ks : list value) prop (i : nat) k :
  projected prop this ks -> ks !! i = Some k ->
  getItemUnwrap this (Z.of_nat i) prop = Ok k.
Proof.
  intros Hp Hk.
  destruct (Forall2_lookup_r _ _ _ _ _ Hp Hk) as (x & Hx & Hxk).
  rewrite (getItemUnwrap_inside _ _ _ _ Hx). exact Hxk.
Qed.

Lemma slice_lookup (this : list value) (a b i : nat) :
  (i < b - a)%nat -> slice this a b !! i = this !! (a + i)%nat.
Proof.
  intros H. unfold slice. rewrite lookup_take_lt by lia. apply lookup_drop.
Qed.

Lemma slice_length (this : list value) (a b : nat) :
  (b <= length this)%nat -> length (slice this a b) = (b - a)%nat.
Proof. intros H. unfold slice. rewrite length_take, length_drop. lia. Qed.

Lemma slice_lookup_Some (this : list value) (a b i : nat) x :
  slice this a b !! i = Some x -> this !! (a + i)%nat = Some x.
Proof.
  unfold slice. intros H.
  apply lookup_take_Some in H as [H _]. rewrite lookup_drop in H. exact H.
Qed.

Lemma hit_in_bounds this value0 prop r :
  hit this value0 prop r -> 0 <= r < Z.of_nat (length this).
Proof.
  intros (i & x & k & -> & Hx & _). apply lookup_lt_Some in Hx. lia.
Qed.

Lemma middle_lookup (x : value) (xs : list value) :
  exists xm, (x :: xs) !! (length (x :: xs) / 2)%nat = Some xm.
Proof.
  apply lookup_lt_is_Some_2. apply Nat.div_lt; simpl; lia.
Qed.

Lemma brSearch_sound (this : list value) (value0 : value) (prop : option string) r :
  brSearch coerced_lt this value0 prop = Ok r -> r = -1 \/ hit this value0 prop r.
Proof.
  remember (length this) as n eqn:Hn. revert this Hn r.
  induction n as [n IH] using lt_wf_ind. intros this Hn r.
  destruct this as [|x xs]; simp brSearch; [intros [= <-]; auto|].
  cbv zeta.
  destruct (middle_lookup x xs) as [xm Hxm].
  rewrite (getItemUnwrap_inside _ _ _ _ Hxm).
  destruct (project prop xm) as [mi|e] eqn:Hmi; [|discriminate].
  destruct ((length (x :: xs) =? 1)%nat && strict_neq mi value0); [intros [= <-]; auto|].
  destruct (strict_eq value0 mi) eqn:Heq.
  { intros [= <-]. right. exists (length (x :: xs) / 2)%nat, xm, mi.
    rewrite strict_eq_sym. auto. }
  destruct (js_gt coerced_lt value0 mi).
  - destruct (brSearch coerced_lt (slice _ _ _) value0 prop) as [r'|e] eqn:Hrec;
      [|discriminate].
    apply (IH (length (slice (x :: xs) (length (x :: xs) / 2 + 1) (length (x :: xs)))))
      in Hrec; [| |reflexivity].
    2:{ subst n. rewrite slice_length by lia.
        assert (0 < length (x :: xs))%nat by (simpl; lia). lia. }
    destruct Hrec as [->|(i & y & k & -> & Hy & Hk & Hkv)]; [intros [= <-]; auto|].
    destruct (Z.of_nat i =? -1) eqn:E; [apply Z.eqb_eq in E; lia|]. intros [= <-]. right.
    exists (length (x :: xs) / 2 + 1 + i)%nat, y, k.
    apply slice_lookup_Some in Hy.
    split; [rewrite !Nat2Z.inj_add; reflexivity|]. auto.
  - intros Hrec.
    apply (IH (length (slice (x :: xs) 0 (length (x :: xs) / 2)))) in Hrec;
      [| |reflexivity].
    2:{ subst n. rewrite slice_length.
        - pose proof (Nat.div_lt (length (x :: xs)) 2). simpl in *. lia.
        - apply Nat.Div0.div_le_upper_bound. lia. }
    destruct Hrec as [->|(i & y & k & -> & Hy & Hk & Hkv)]; [auto|].
    right. exists i, y, k. apply slice_lookup_Some in Hy. auto.
Qed.

Lemma value_le_not_gt (a b : value) : value_le a b -> js_gt coerced_lt a b = false.
Proof.
  unfold js_gt. destruct a, b; simpl; try contradiction.
  - intros H. apply Z.ltb_ge. exact H.
  - unfold String.leb, String.ltb. rewrite (String.compare_antisym s0 s).
    destruct (String.compare s s0); simpl; congruence.
Qed.

Lemma value_le_lt_or_eq (a b : value) :
  value_le a b -> js_lt coerced_lt a b = true \/ strict_eq a b = true.
Proof.
  destruct a, b; simpl; try contradiction.
  - intros H. destruct (Z.eq_dec n n0) as [->|Hne].
    + right. apply Z.eqb_refl.
    + left. apply Z.ltb_lt. lia.
  - unfold String.leb, String.ltb.
    destruct (String.compare s s0) eqn:E; try discriminate; auto.
    apply String.compare_eq_iff in E. subst. right. apply String.eqb_refl.
Qed.

Lemma value_le_eq_l (a b v : value) :
  value_le a b -> strict_eq a v = true -> a = v.
Proof.
  destruct a, b; simpl; try contradiction; destruct v; simpl; try discriminate.
  - intros _ H. apply Z.eqb_eq in H. congruence.
  - intros _ H. apply String.eqb_eq in H. congruence.
Qed.

Lemma value_le_eq_r (a b v : value) :
  value_le a b -> strict_eq b v = true -> b = v.
Proof.
  destruct a, b; simpl; try contradiction; destruct v; simpl; try discriminate.
  - intros _ H. apply Z.eqb_eq in H. congruence.
  - intros _ H. apply String.eqb_eq in H. congruence.
Qed.

Lemma projected_slice prop this ks (a b : nat) :
  projected prop this ks -> projected prop (slice this a b) (slice ks a b).
Proof. intros H. unfold slice. apply Forall2_take, Forall2_drop, H. Qed.

Lemma non_decreasing_slice ks (a b : nat) :
  non_decreasing ks -> non_decreasing (slice ks a b).
Proof.
  intros H i j x y Hij Hx Hy.
  apply slice_lookup_Some in Hx, Hy. apply (H (a + i)%nat (a + j)%nat); auto. lia.
Qed.

Lemma brSearch_complete (this ks : list value) (value0 : value) (prop : option string)
  (j : nat) :
  projected prop this ks -> non_decreasing ks -> occurs value0 ks j ->
  exists r, brSearch coerced_lt this value0 prop = Ok r /\ r <> -1.
Proof.
  remember (length this) as n eqn:Hn. revert this ks j Hn.
  induction n as [n IH] using lt_wf_ind. intros this ks j Hn Hp Hs (k & Hk & Hkv).
  pose proof (Forall2_length _ _ _ Hp) as Hlen.
  destruct this as [|x xs].
  { apply lookup_lt_Some in Hk. simpl in Hlen. lia. }
  simp brSearch. cbv zeta.
  set (len := length (x :: xs)) in *.
  assert (0 < len)%nat as Hpos by (subst len; simpl; lia).
  assert (len / 2 < len)%nat as Hmid by (apply Nat.div_lt; lia).
  assert (len = 1 -> len / 2 = 0)%nat as Hone by (intros ->; reflexivity).
  set (mid := (len / 2)%nat) in *. clearbody mid.
  assert (j < len)%nat as Hj by (apply lookup_lt_Some in Hk; lia).
  destruct (lookup_lt_is_Some_2 ks mid ltac:(lia)) as [km Hkm].
  rewrite (getItemUnwrap_projected _ _ _ _ _ Hp Hkm).
  destruct (strict_eq value0 km) eqn:Heq.
  { unfold strict_neq. rewrite strict_eq_sym, Heq. simpl.
    rewrite andb_false_r. exists (Z.of_nat mid). split; [reflexivity|lia]. }
  assert (j <> mid) as Hjm.
  { intros ->. rewrite Hkm in Hk. injection Hk as ->.
    rewrite strict_eq_sym in Hkv. congruence. }
  destruct ((len =? 1)%nat && strict_neq km value0) eqn:Hc1.
  { apply andb_true_iff in Hc1 as [Hl _]. apply Nat.eqb_eq in Hl. lia. }
  destruct (js_gt coerced_lt value0 km) eqn:Hgt.
  - assert (mid < j)%nat as Hlt.
    { destruct (Nat.lt_ge_cases mid j) as [|Hle]; [assumption|]. exfalso.
      assert (value_le k km) as Hle' by (apply (Hs j mid); auto; lia).
      rewrite (value_le_eq_l _ _ _ Hle' Hkv) in Hle'.
      apply value_le_not_gt in Hle'. congruence. }
    destruct (IH (length (slice (x :: xs) (mid + 1) len))
                ltac:(subst n; rewrite slice_length by (subst len; lia); lia)
                (slice (x :: xs) (mid + 1) len) (slice ks (mid + 1) len)
                (j - (mid + 1))%nat eq_refl)
      as (r & Hrec & Hr).
    + apply projected_slice, Hp.
    + apply non_decreasing_slice, Hs.
    + exists k. split; [|assumption].
      rewrite slice_lookup by lia. rewrite <- Hk. f_equal. lia.
    + rewrite Hrec. apply brSearch_sound in Hrec as [?|Hhit]; [contradiction|].
      apply hit_in_bounds in Hhit.
      destruct (r =? -1) eqn:E; [apply Z.eqb_eq in E; contradiction|].
      eexists. split; [reflexivity|]. lia.
  - assert (j < mid)%nat as Hlt.
    { destruct (Nat.lt_ge_cases j mid) as [|Hle]; [assumption|]. exfalso.
      assert (value_le km k) as Hle' by (apply (Hs mid j); auto; lia).
      rewrite (value_le_eq_r _ _ _ Hle' Hkv) in Hle'.
      apply value_le_lt_or_eq in Hle' as [Hl|He].
      - unfold js_gt in Hgt. congruence.
      - rewrite strict_eq_sym in He. congruence. }
    destruct (IH (length (slice (x :: xs) 0 mid))
                ltac:(subst n; rewrite slice_length by (subst len; lia); lia)
                (slice (x :: xs) 0 mid) (slice ks 0 mid) j eq_refl)
      as (r & Hrec & Hr).
    + apply projected_slice, Hp.
    + apply non_decreasing_slice, Hs.
    + exists k. split; [|assumption]. rewrite slice_lookup by lia. exact Hk.
    + exists r. auto.
Qed.


Lemma hit_occurs (this ks : list value) (value0 : value) (prop : option string) (i : nat) :
  projected prop this ks -> hit this value0 prop (Z.of_nat i) -> occurs value0 ks i.
Proof.
  intros Hp (i' & x & k & Hi & Hx & Hk & Hkv).
  apply Nat2Z.inj in Hi. subst i'.
  destruct (Forall2_lookup_l _ _ _ _ _ Hp Hx) as (k' & Hk' & Hxk).
  exists k'. split; [assumption|]. congruence.
Qed.

Lemma brSearchFirst_body this value0 prop start end_ :
  brSearchFirst coerced_lt this value0 prop start end_ =
  if end_of this end_ <? start_of start then Ok (-1)
  else
    let start' := start_of start in
    let end' := end_of this end_ in
    let middleIndex := start' + (end' - start') / 2 in
    match getItemUnwrap this middleIndex prop with
    | Throw e => Throw e
    | Ok middleItem =>
        match getItemUnwrap this (middleIndex - 1) prop with
        | Throw e => Throw e
        | Ok previousItem =>
            if (strict_eq previousItem VUndef || js_gt coerced_lt value0 previousItem)
               && strict_eq middleItem value0
            then Ok middleIndex
            else if js_gt coerced_lt value0 middleItem
            then brSearchFirst coerced_lt this value0 prop (Some (middleIndex + 1)) (Some end')
            else brSearchFirst coerced_lt this value0 prop (Some start') (Some (middleIndex - 1))
        end
    end.
Proof.
  rewrite brSearchFirst_equation_1.
  destruct (Z_lt_dec (end_of this end_) (start_of start)) as [Hlt|Hge];
    destruct (Z.ltb_spec (end_of this end_) (start_of start)); try lia; reflexivity.
Qed.

Lemma brSearchLast_body this value0 prop start end_ :
  brSearchLast coerced_lt this value0 prop start end_ =
  if end_of this end_ <? start_of start then Ok (-1)
  else
    let start' := start_of start in
    let end' := end_of this end_ in
    let middleIndex := start' + (end' - start') / 2 in
    match getItemUnwrap this middleIndex prop with
    | Throw e => Throw e
    | Ok middleItem =>
        match getItemUnwrap this (middleIndex + 1) prop with
        | Throw e => Throw e
        | Ok nextItem =>
            if (strict_eq nextItem VUndef || js_lt coerced_lt value0 nextItem)
               && strict_eq middleItem value0
            then Ok middleIndex
            else if js_lt coerced_lt value0 middleItem
            then brSearchLast coerced_lt this value0 prop (Some start') (Some (middleIndex - 1))
            else brSearchLast coerced_lt this value0 prop (Some (middleIndex + 1)) (Some end')
        end
    end.
Proof.
  rewrite brSearchLast_equation_1.
  destruct (Z_lt_dec (end_of this end_) (start_of start)) as [Hlt|Hge];
    destruct (Z.ltb_spec (end_of this end_) (start_of start)); try lia; reflexivity.
Qed.


Lemma getItemUnwrap_key (this ks : list value) (i : Z) (prop : option string) :
  projected prop this ks -> 0 <= i < Z.of_nat (length ks) ->
  exists k, ks !! Z.to_nat i = Some k /\ getItemUnwrap this i prop = Ok k.
Proof.
  intros Hp Hi.
  destruct (lookup_lt_is_Some_2 ks (Z.to_nat i) ltac:(lia)) as [k Hk].
  exists k. split; [assumption|].
  rewrite <- (Z2Nat.id i) at 1 by lia. apply (getItemUnwrap_projected _ ks); assumption.
Qed.

Lemma getItemUnwrap_returns (this ks : list value) (i : Z) (prop : option string) :
  projected prop this ks -> exists k, getItemUnwrap this i prop = Ok k.
Proof.
  intros Hp. pose proof (Forall2_length _ _ _ Hp) as Hlen.
  destruct (Z_lt_dec i 0) as [|Hge]; [rewrite getItemUnwrap_outside by lia; eauto|].
  destruct (Z_le_dec (Z.of_nat (length this)) i);
    [rewrite getItemUnwrap_outside by lia; eauto|].
  destruct (getItemUnwrap_key this ks i prop Hp ltac:(lia)) as (k & _ & Hk). eauto.
Qed.

Lemma middle_between (s e : Z) :
  s <= e -> s <= s + (e - s) / 2 <= e.
Proof.
  intros H. assert (0 <= (e - s) / 2 <= e - s); [|lia].
  split; [apply Z.div_pos; lia | apply Z.div_le_upper_bound; lia].
Qed.





Lemma string_leb_refl (s : string) : String.leb s s = true.
Proof.
  unfold String.leb. pose proof (String.compare_antisym s s) as H.
  destruct (String.compare s s); simpl in H; congruence.
Qed.

Lemma value_le_refl_l (a b : value) : value_le a b -> value_le a a.
Proof.
  destruct a, b; simpl; try contradiction; intros _; [lia|apply string_leb_refl].
Qed.

Lemma value_le_refl_r (a b : value) : value_le a b -> value_le b b.
Proof.
  destruct a, b; simpl; try contradiction; intros _; [lia|apply string_leb_refl].
Qed.

Lemma value_le_defined_l (a b : value) : value_le a b -> strict_eq a VUndef = false.
Proof. destruct a, b; simpl; try contradiction; reflexivity. Qed.

Lemma value_le_defined_r (a b : value) : value_le a b -> strict_eq b VUndef = false.
Proof. destruct a, b; simpl; try contradiction; reflexivity. Qed.

(** Between bounds that enclose the lowest occurrence, the search
    returns it. *)
Lemma brSearchFirst_finds this ks value0 prop (f : nat) start end_ :
  projected prop this ks -> non_decreasing ks ->
  occurs value0 ks f -> (forall i, (i < f)%nat -> ~ occurs value0 ks i) ->
  0 <= start_of start <= Z.of_nat f ->
  Z.of_nat f <= end_of this end_ < Z.of_nat (length this) ->
  brSearchFirst coerced_lt this value0 prop start end_ = Ok (Z.of_nat f).
Proof.
  intros Hp Hs (k & Hk & Hkv) Hfirst.
  pose proof (Forall2_length _ _ _ Hp) as Hlen.
  remember (span this start end_) as n eqn:Hn. revert start end_ Hn.
  induction n as [n IH] using lt_wf_ind. intros start end_ Hn Hlo Hhi.
  rewrite brSearchFirst_body.
  destruct (Z.ltb_spec (end_of this end_) (start_of start)) as [|Hse]; [lia|].
  cbv zeta. pose proof (middle_between _ _ Hse) as Hm.
  set (s := start_of start) in *. set (e := end_of this end_) in *.
  set (mid := s + (e - s) / 2) in *. clearbody mid.
  destruct (getItemUnwrap_key this ks mid prop Hp ltac:(lia)) as (km & Hkm & ->).
  destruct (Z.lt_trichotomy mid (Z.of_nat f)) as [Hlt|[Heq|Hgt]].
  - (* the middle lies below the first occurrence *)
    destruct (getItemUnwrap_returns this ks (mid - 1) prop Hp) as [pi ->].
    assert (strict_eq km value0 = false) as Hne.
    { destruct (strict_eq km value0) eqn:E; [|reflexivity].
      exfalso. apply (Hfirst (Z.to_nat mid)); [lia|]. exists km. auto. }
    rewrite Hne, andb_false_r.
    assert (value_le km k) as Hle by (apply (Hs (Z.to_nat mid) f); auto; lia).
    rewrite (value_le_eq_r _ _ _ Hle Hkv) in Hle.
    destruct (value_le_lt_or_eq _ _ Hle) as [Hl|He]; [|congruence].
    unfold js_gt at 1. rewrite Hl.
    apply (IH (span this (Some (mid + 1)) (Some e))); try reflexivity; simpl; try lia.
    subst n. unfold span. simpl. fold s e. lia.
  - (* the middle is the first occurrence *)
    assert (km = k) as -> by (rewrite Heq, Nat2Z.id, Hk in Hkm; congruence).
    destruct (Z.eq_dec mid 0) as [H0|H0].
    + rewrite getItemUnwrap_outside by lia. rewrite Hkv. simpl. congruence.
    + destruct (getItemUnwrap_key this ks (mid - 1) prop Hp ltac:(lia)) as (kp & Hkp & ->).
      assert (value_le kp k) as Hle by (apply (Hs (Z.to_nat (mid - 1)) f); auto; lia).
      rewrite Hkv, andb_true_r.
      rewrite (value_le_eq_r _ _ _ Hle Hkv) in Hle.
      destruct (value_le_lt_or_eq _ _ Hle) as [Hl|He].
      * unfold js_gt. rewrite Hl, orb_true_r. congruence.
      * exfalso. apply (Hfirst (Z.to_nat (mid - 1))); [lia|]. exists kp. auto.
  - (* the middle lies above the first occurrence *)
    destruct (getItemUnwrap_key this ks (mid - 1) prop Hp ltac:(lia)) as (kp & Hkp & ->).
    assert (value_le k km) as Hle by (apply (Hs f (Z.to_nat mid)); auto; lia).
    assert (k = value0) as Hkv' by (apply (value_le_eq_l _ _ _ Hle Hkv)).
    assert (value_le kp km) as Hpm
        by (apply (Hs (Z.to_nat (mid - 1)) (Z.to_nat mid)); auto; lia).
    assert (value_le value0 kp) as Hvp.
    { destruct (Z.eq_dec (mid - 1) (Z.of_nat f)) as [E|E].
      - rewrite E, Nat2Z.id, Hk in Hkp. injection Hkp as <-. subst k.
        apply (value_le_refl_l _ _ Hle).
      - subst k. apply (Hs f (Z.to_nat (mid - 1))); auto; lia. }
    rewrite (value_le_defined_l _ _ Hpm).
    rewrite (value_le_not_gt _ _ Hvp). simpl.
    subst k. rewrite (value_le_not_gt _ _ Hle).
    apply (IH (span this (Some s) (Some (mid - 1)))); try reflexivity; simpl; try lia.
    subst n. unfold span. simpl. fold s e. lia.
Qed.

(** Between bounds that enclose the highest occurrence, the search
    returns it. *)
Lemma brSearchLast_finds this ks value0 prop (l : nat) start end_ :
  projected prop this ks -> non_decreasing ks ->
  occurs value0 ks l -> (forall i, (l < i)%nat -> ~ occurs value0 ks i) ->
  0 <= start_of start <= Z.of_nat l ->
  Z.of_nat l <= end_of this end_ < Z.of_nat (length this) ->
  brSearchLast coerced_lt this value0 prop start end_ = Ok (Z.of_nat l).
Proof.
  intros Hp Hs (k & Hk & Hkv) Hlast.
  pose proof (Forall2_length _ _ _ Hp) as Hlen.
  remember (span this start end_) as n eqn:Hn. revert start end_ Hn.
  induction n as [n IH] using lt_wf_ind. intros start end_ Hn Hlo Hhi.
  rewrite brSearchLast_body.
  destruct (Z.ltb_spec (end_of this end_) (start_of start)) as [|Hse]; [lia|].
  cbv zeta. pose proof (middle_between _ _ Hse) as Hm.
  set (s := start_of start) in *. set (e := end_of this end_) in *.
  set (mid := s + (e - s) / 2) in *. clearbody mid.
  destruct (getItemUnwrap_key this ks mid prop Hp ltac:(lia)) as (km & Hkm & ->).
  destruct (Z.lt_trichotomy mid (Z.of_nat l)) as [Hlt|[Heq|Hgt]].
  - (* the middle lies below the last occurrence *)
    destruct (getItemUnwrap_key this ks (mid + 1) prop Hp ltac:(lia)) as (kn & Hkn & ->).
    assert (value_le km k) as Hle by (apply (Hs (Z.to_nat mid) l); auto; lia).
    assert (k = value0) as Hkv' by (apply (value_le_eq_r _ _ _ Hle Hkv)).
    assert (value_le km kn) as Hmn
        by (apply (Hs (Z.to_nat mid) (Z.to_nat (mid + 1))); auto; lia).
    assert (value_le kn value0) as Hnv.
    { destruct (Z.eq_dec (mid + 1) (Z.of_nat l)) as [E|E].
      - rewrite E, Nat2Z.id, Hk in Hkn. injection Hkn as <-. subst k.
        apply (value_le_refl_r _ _ Hle).
      - subst k. apply (Hs (Z.to_nat (mid + 1)) l); auto; lia. }
    rewrite (value_le_defined_r _ _ Hmn).
    change (js_lt coerced_lt value0 kn) with (js_gt coerced_lt kn value0).
    rewrite (value_le_not_gt _ _ Hnv). simpl.
    subst k. change (js_lt coerced_lt value0 km) with (js_gt coerced_lt km value0).
    rewrite (value_le_not_gt _ _ Hle).
    apply (IH (span this (Some (mid + 1)) (Some e))); try reflexivity; simpl; try lia.
    subst n. unfold span. simpl. fold s e. lia.
  - (* the middle is the last occurrence *)
    assert (km = k) as -> by (rewrite Heq, Nat2Z.id, Hk in Hkm; congruence).
    destruct (Z.eq_dec (mid + 1) (Z.of_nat (length this))) as [H0|H0].
    + rewrite getItemUnwrap_outside by lia. rewrite Hkv. simpl. congruence.
    + destruct (getItemUnwrap_key this ks (mid + 1) prop Hp ltac:(lia)) as (kn & Hkn & ->).
      assert (value_le k kn) as Hle by (apply (Hs l (Z.to_nat (mid + 1))); auto; lia).
      rewrite Hkv, andb_true_r.
      rewrite (value_le_eq_l _ _ _ Hle Hkv) in Hle.
      destruct (value_le_lt_or_eq _ _ Hle) as [Hl|He].
      * rewrite Hl, orb_true_r. congruence.
      * exfalso. apply (Hlast (Z.to_nat (mid + 1))); [lia|]. exists kn.
        rewrite strict_eq_sym. auto.
  - (* the middle lies above the last occurrence *)
    destruct (getItemUnwrap_returns this ks (mid + 1) prop Hp) as [ni ->].
    assert (strict_eq km value0 = false) as Hne.
    { destruct (strict_eq km value0) eqn:E; [|reflexivity].
      exfalso. apply (Hlast (Z.to_nat mid)); [lia|]. exists km. auto. }
    rewrite Hne, andb_false_r.
    assert (value_le k km) as Hle by (apply (Hs l (Z.to_nat mid)); auto; lia).
    rewrite (value_le_eq_l _ _ _ Hle Hkv) in Hle.
    destruct (value_le_lt_or_eq _ _ Hle) as [Hl|He];
      [|rewrite strict_eq_sym in He; congruence].
    rewrite Hl.
    apply (IH (span this (Some s) (Some (mid - 1)))); try reflexivity; simpl; try lia.
    subst n. unfold span. simpl. fold s e. lia.
Qed.

End SearchFacts.

Lemma occurs_dec (v : value) (ks : list value) :
  (exists j, occurs v ks j) \/ (forall j, ~ occurs v ks j).
Proof.
  induction ks as [|k ks IH].
  - right. intros j (k & Hk & _). destruct j; discriminate.
  - destruct (strict_eq k v) eqn:E.
    + left. exists 0%nat, k. auto.
    + destruct IH as [[j (k' & Hk' & Hv)]|Hno].
      * left. exists (S j), k'. auto.
      * right. intros [|j] (k' & Hk' & Hv).
        -- simpl in Hk'. congruence.
        -- apply (Hno j). exists k'. auto.
Qed.

Lemma occurs_lowest (v : value) (ks : list value) :
  (exists j, occurs v ks j) -> exists f, lowest v ks f.
Proof.
  induction ks as [|k ks IH]; intros [j (k' & Hk' & Hv)].
  - destruct j; discriminate.
  - destruct (strict_eq k v) eqn:E.
    + exists 0%nat. split; [exists k; auto|]. intros; lia.
    + destruct j as [|j]; [simpl in Hk'; congruence|].
      destruct IH as (f & Hf & Hmin); [exists j, k'; auto|].
      exists (S f). split.
      * destruct Hf as (kf & Hkf & Hkv). exists kf. auto.
      * intros [|i] (ki & Hki & Hkiv); [simpl in Hki; congruence|].
        assert (f <= i)%nat by (apply Hmin; exists ki; auto). lia.
Qed.

Lemma occurs_highest (v : value) (ks : list value) :
  (exists j, occurs v ks j) -> exists l, highest v ks l.
Proof.
  induction ks as [|k ks IH]; intros [j (k' & Hk' & Hv)].
  - destruct j; discriminate.
  - destruct (occurs_dec v ks) as [Hex|Hno].
    + destruct (IH Hex) as (l & Hl & Hmax).
      exists (S l). split.
      * destruct Hl as (kl & Hkl & Hkv). exists kl. auto.
      * intros [|i] (ki & Hki & Hkiv); [lia|].
        assert (i <= l)%nat by (apply Hmax; exists ki; auto). lia.
    + exists 0%nat. destruct j as [|j].
      * split; [exists k'; auto|].
        intros [|i] (ki & Hki & Hkiv); [lia|]. exfalso. apply (Hno i). exists ki. auto.
      * exfalso. apply (Hno j). exists k'. auto.
Qed.





(** C7. With explicit bounds such that [end < start], [brSearchFirst] and
    [brSearchLast] return -1 and do not throw, whatever the sequence, the
    value and the projection. *)
Theorem crossed_bounds_not_found (coerced_lt : value -> value -> bool)
  (this : list value) (value0 : value) (prop : option string) (start end_ : Z) :
  end_ < start ->
  brSearchFirst coerced_lt this value0 prop (Some start) (Some end_) = Ok (-1) /\
  brSearchLast coerced_lt this value0 prop (Some start) (Some end_) = Ok (-1).
Proof.
  intros H. rewrite brSearchFirst_body, brSearchLast_body. simpl.
  destruct (Z.ltb_spec end_ start); [auto|lia].
Qed.

Lemma crossed_bounds_not_found_witness :
  2 < 3 /\
  brSearchFirst never_lt [VNull; VNum 7] (VNum 7) (Some "id") (Some 3) (Some 2) = Ok (-1) /\
  brSearchLast never_lt [VNull; VNum 7] (VNum 7) (Some "id") (Some 3) (Some 2) = Ok (-1).
Proof.
  split; [lia|].
  apply (crossed_bounds_not_found never_lt [VNull; VNum 7] (VNum 7) (Some "id") 3 2). lia.
Defined.




(** ** Property names of array indices *)

Lemma pretty_N_go_ne_length (x : N) (s : string) :
  s <> "length"%string -> pretty_N_go x s <> "length"%string.
Proof.
  revert s. induction (N.lt_wf_0 x) as [x _ IH]; intros s Hs.
  assert (x = 0 \/ 0 < x)%N as [->|Hx] by lia.
  - rewrite pretty_N_go_0. exact Hs.
  - rewrite pretty_N_go_step by exact Hx. apply IH.
    + apply N.div_lt; [exact Hx|reflexivity].
    + unfold pretty_N_char. repeat case_match; discriminate.
Qed.

Lemma pretty_nat_ne_length (i : nat) : String.eqb (pretty i) "length" = false.
Proof.
  apply String.eqb_neq. unfold pretty, pretty_nat, pretty, pretty_N.
  case_decide; [discriminate|]. apply pretty_N_go_ne_length. discriminate.
Qed.

Lemma find_seq (f : nat -> bool) (a n i : nat) :
  (a <= i < a + n)%nat -> f i = true ->
  (forall j, (a <= j < i)%nat -> f j = false) ->
  find f (seq a n) = Some i.
Proof.
  revert a. induction n as [|n IH]; intros a Hi Hfi Hbelow; [lia|].
  simpl. destruct (Nat.eq_dec a i) as [->|Hne].
  - rewrite Hfi. reflexivity.
  - rewrite (Hbelow a) by lia. apply IH; [lia|assumption|].
    intros j Hj. apply Hbelow. lia.
Qed.

Lemma index_of_key_pretty (i n : nat) :
  (i < n)%nat -> index_of_key (pretty i) n = Some i.
Proof.
  intros Hi. unfold index_of_key. apply find_seq.
  - lia.
  - apply String.eqb_refl.
  - intros j Hj. apply String.eqb_neq. intros Heq.
    apply (inj pretty) in Heq. lia.
Qed.

Lemma get_prop_index (id : positive) (items : list value) (i : nat) x :
  items !! i = Some x -> get_prop (VArr id items) (pretty i) = Ok x.
Proof.
  intros Hx. simpl. rewrite pretty_nat_ne_length.
  rewrite index_of_key_pretty by (apply lookup_lt_Some in Hx; exact Hx).
  rewrite nth_lookup, Hx. reflexivity.
Qed.

(** ** Array equality *)

Lemma each_index_true {A : Type} (test : nat -> A -> bool) (k : nat) (l : list A) :
  each_index test k l = true <->
  forall j x, l !! j = Some x -> test (k + j)%nat x = true.
Proof.
  revert k. induction l as [|y l IH]; intros k; simpl.
  - split; [intros _ j x Hx; discriminate | reflexivity].
  - destruct (test k y) eqn:Hy.
    + rewrite IH. split.
      * intros H [|j] x Hx; simpl in Hx.
        -- injection Hx as <-. rewrite Nat.add_0_r. exact Hy.
        -- rewrite Nat.add_succ_r. apply (H j x Hx).
      * intros H j x Hx. replace (S k + j)%nat with (k + S j)%nat by lia.
        apply (H (S j) x Hx).
    + split; [discriminate|]. intros H.
      specialize (H 0%nat y eq_refl). rewrite Nat.add_0_r in H. congruence.
Qed.

Lemma strict_eq_refl (x : value) : x <> VNaN -> strict_eq x x = true.
Proof.
  destruct x; simpl; intros H; try reflexivity; try congruence.
  - destruct b; reflexivity.
  - apply Z.eqb_refl.
  - apply String.eqb_refl.
  - apply Pos.eqb_refl.
  - apply Pos.eqb_refl.
Qed.

Lemma nan_free_not_NaN (x : value) : nan_free x = true -> x <> VNaN.
Proof. intros H ->. discriminate. Qed.

Lemma equals_body_same (id : positive) (items : list value) :
  forallb nan_free items = true ->
  Forall (fun x => nan_free x = true -> instanceof_Array x = true ->
                   arrayEquals x x = true) items ->
  equals_body arrayEquals items (VArr id items) = true.
Proof.
  intros Hfree IH. unfold equals_body. simpl.
  unfold strict_neq. simpl. rewrite Z.eqb_refl. simpl.
  apply each_index_true. intros j x Hx. simpl plus.
  rewrite forallb_forall in Hfree.
  assert (nan_free x = true) as Hfx
      by (apply Hfree, list_elem_of_In, list_elem_of_lookup; eauto).
  rewrite Forall_lookup in IH. specialize (IH j x Hx Hfx).
  pose proof (get_prop_index id items j x Hx) as Hget. simpl in Hget. rewrite Hget.
  rewrite andb_diag. destruct (instanceof_Array x).
  - rewrite IH by reflexivity. reflexivity.
  - rewrite (strict_eq_refl x (nan_free_not_NaN x Hfx)). reflexivity.
Qed.

Lemma arrayEquals_same (v : value) :
  nan_free v = true -> instanceof_Array v = true -> arrayEquals v v = true.
Proof.
  induction v as [| | | | | |id items IH|id ctor props _] using value_nested_ind;
    intros Hfree Harr; try discriminate.
  simpl. apply equals_body_same; assumption.
Qed.

Lemma equals_body_lengths (nested : value -> value -> bool) (id : positive)
  (items1 items2 : list value) :
  length items1 <> length items2 ->
  equals_body nested items1 (VArr id items2) = false.
Proof.
  intros Hne. unfold equals_body. simpl. unfold strict_neq. simpl.
  destruct (Z.eqb_spec (Z.of_nat (length items1)) (Z.of_nat (length items2))) as [E|_];
    [lia|reflexivity].
Qed.

(** C6, as stated, fails on an array that holds [NaN]: the elements are
    compared with [!==], and [NaN !== NaN]. *)
Lemma equals_not_reflexive_on_NaN :
  Array_equals [VNaN] (VArr 1 [VNaN]) = false /\
  arrayEquals (VArr 1 [VNaN]) (VArr 1 [VNaN]) = false.
Proof. split; reflexivity. Qed.

(** C6, amended.  An array that holds no [NaN], at any depth of nested
    arrays, equals itself, for [Array.prototype.equals] and for
    [arrayEquals]; and two arrays of different lengths are never equal. *)
Theorem sequence_equality (idA idB : positive) (A B : list value) :
  (forallb nan_free A = true ->
   Array_equals A (VArr idA A) = true /\
   arrayEquals (VArr idA A) (VArr idA A) = true) /\
  (length A <> length B ->
   Array_equals A (VArr idB B) = false /\
   arrayEquals (VArr idA A) (VArr idB B) = false).
Proof.
  split.
  - intros Hfree.
    assert (equals_body arrayEquals A (VArr idA A) = true) as H.
    { apply equals_body_same; [assumption|].
      apply Forall_forall. intros x _. apply arrayEquals_same. }
    split; exact H.
  - intros Hne. split; apply equals_body_lengths, Hne.
Qed.

Lemma sequence_equality_witness :
  let A := [VNum 1; VArr 2 [VStr "x"; VNull]; VObj 3 "Object" [("n", VNaN)]] in
  let B := [VNum 1] in
  forallb nan_free A = true /\ length A <> length B /\
  Array_equals A (VArr 1 A) = true /\ arrayEquals (VArr 1 A) (VArr 1 A) = true /\
  Array_equals A (VArr 4 B) = false /\ arrayEquals (VArr 1 A) (VArr 4 B) = false.
Proof.
  intros A B.
  assert (forallb nan_free A = true) as Hfree by reflexivity.
  assert (length A <> length B) as Hne by (simpl; lia).
  destruct (sequence_equality 1 4 A B) as [Hsame Hdiff].
  split; [exact Hfree|]. split; [exact Hne|].
  split; [exact (proj1 (Hsame Hfree))|]. split; [exact (proj2 (Hsame Hfree))|].
  split; [exact (proj1 (Hdiff Hne))|exact (proj2 (Hdiff Hne))].
Defined.

(** ** Record equality *)

Lemma for_each_index_imap {A : Type} (f : string -> A -> result (option bool))
  (h : nat -> string) (k : nat) (l : list A) :
  for_each_index (fun i x => f (h i) x) k l =
  for_each (fun '(p, x) => f p x) (imap (fun i x => (h (k + i)%nat, x)) l).
Proof.
  revert k. induction l as [|y l IH]; intros k; [reflexivity|].
  simpl. rewrite Nat.add_0_r. destruct (f (h k) y) as [[b|]|e]; try reflexivity.
  rewrite IH. f_equal. apply imap_ext. intros i x _. simpl.
  f_equal. f_equal. lia.
Qed.

(** The loop goes through when every turn goes on. *)
Lemma for_each_none {A : Type} (body : A -> result (option bool)) (l : list A) :
  for_each body l = Ok None <-> forall x, In x l -> body x = Ok None.
Proof.
  induction l as [|x l IH]; simpl; [split; [intros _ ? []|reflexivity]|].
  destruct (body x) as [[b|]|e] eqn:E.
  - split; [discriminate|]. intros H. specialize (H x (or_introl eq_refl)). congruence.
  - rewrite IH. split.
    + intros H y [<-|Hy]; [exact E|apply H, Hy].
    + intros H y Hy. apply H. right. exact Hy.
  - split; [discriminate|]. intros H. specialize (H x (or_introl eq_refl)). congruence.
Qed.

(** What the loop returns, a turn returned. *)
Lemma for_each_some {A : Type} (body : A -> result (option bool)) (l : list A) (b : bool) :
  for_each body l = Ok (Some b) -> exists x, In x l /\ body x = Ok (Some b).
Proof.
  induction l as [|x l IH]; simpl; [discriminate|].
  destruct (body x) as [[b'|]|e] eqn:E; try discriminate.
  - intros [= <-]. exists x. auto.
  - intros H. destruct (IH H) as (y & Hy & Hb). exists y. auto.
Qed.

(** The loop does not throw when no turn does. *)
Lemma for_each_returns {A : Type} (body : A -> result (option bool)) (l : list A) :
  (forall x, In x l -> exists o, body x = Ok o) -> exists o, for_each body l = Ok o.
Proof.
  induction l as [|x l IH]; intros H; simpl; [eauto|].
  destruct (H x (or_introl eq_refl)) as [[b|] ->]; [eauto|].
  apply IH. intros y Hy. apply H. right. exact Hy.
Qed.

Lemma objectEquals_unfold (a b : value) :
  objectEquals a b =
  if strict_eq a b then Ok true
  else if negb (instanceof_Object a) || negb (instanceof_Object b) then Ok false
  else if constructor_neq (constructor a) (constructor b) then Ok false
  else
    match for_each (fun '(p, x) => visit_field a b p x) (own_props a) with
    | Throw e => Throw e
    | Ok (Some r) => Ok r
    | Ok None =>
        match for_each (fun '(p, _) => second_turn a b p) (own_props b) with
        | Throw e => Throw e
        | Ok (Some r) => Ok r
        | Ok None => Ok true
        end
    end.
Proof.
  destruct a; cbn [objectEquals instanceof_Object negb orb];
    try (destruct (strict_eq _ b); reflexivity).
  destruct (strict_eq (VArr id items) b); [reflexivity|].
  destruct (negb (instanceof_Object b)); [reflexivity|].
  destruct (constructor_neq (constructor (VArr id items)) (constructor b)); [reflexivity|].
  pose proof (for_each_index_imap (fun p x => visit_field (VArr id items) b p x)
                pretty 0 items) as H.
  change (imap _ items) with (own_props (VArr id items)) in H.
  rewrite <- H. reflexivity.
Qed.

Lemma strict_eq_objectEquals (a b : value) :
  strict_eq a b = true -> objectEquals a b = Ok true.
Proof. intros H. rewrite objectEquals_unfold, H. reflexivity. Qed.

Lemma objectEquals_primitive (a b : value) :
  is_primitive a = true -> objectEquals a b = Ok (strict_eq a b).
Proof.
  unfold is_primitive. intros H. rewrite objectEquals_unfold, H. simpl.
  destruct (strict_eq a b); reflexivity.
Qed.

Lemma fields_agree_objectEquals (x y : value) :
  fields_agree x y <-> objectEquals x y = Ok true.
Proof.
  unfold fields_agree. destruct (is_primitive x) eqn:Hx; [|reflexivity].
  rewrite (objectEquals_primitive x y Hx). split; [intros ->; reflexivity|congruence].
Qed.

Lemma assoc_In (p : string) (x : value) (props : list (string * value)) :
  In (p, x) props -> is_Some (assoc p props).
Proof.
  induction props as [|[q y] props IH]; simpl; [contradiction|].
  intros [[= -> ->]|Hin].
  - rewrite String.eqb_refl. eauto.
  - destruct (String.eqb q p); eauto.
Qed.

Lemma own_props_has_field (v : value) (p : string) (x : value) :
  In (p, x) (own_props v) -> has_field v p = true.
Proof.
  destruct v; simpl; try contradiction.
  - intros Hin. apply list_elem_of_In, elem_of_lookup_imap in Hin
      as (i & y & [= -> ->] & Hy).
    rewrite index_of_key_pretty by (apply lookup_lt_Some in Hy; exact Hy).
    rewrite bool_decide_eq_true_2 by eauto. apply orb_true_r.
  - intros Hin. apply bool_decide_eq_true_2, (assoc_In p x), Hin.
Qed.

(** On an array or object that does not hide it, the method is the
    built-in test. *)
Lemma hasOwnProperty_built_in (v : value) (p : string) :
  instanceof_Object v = true -> shadows v = false ->
  hasOwnProperty v p = Ok (has_field v p).
Proof.
  destruct v; try discriminate; intros _ Hs; unfold hasOwnProperty; rewrite Hs; reflexivity.
Qed.

Lemma hasOwnProperty_shadowed (v : value) (p : string) :
  shadows v = true -> hasOwnProperty v p = Throw TypeError.
Proof.
  destruct v; try discriminate. intros Hs. unfold hasOwnProperty. rewrite Hs. reflexivity.
Qed.

(** The turns never make [objectEquals] return [true]. *)
Lemma visit_field_not_true (a b : value) (p : string) (x : value) :
  visit_field a b p x <> Ok (Some true).
Proof.
  unfold visit_field.
  destruct (hasOwnProperty a p) as [[|]|]; try discriminate.
  destruct (hasOwnProperty b p) as [[|]|]; try discriminate.
  destruct (get_prop b p) as [y|]; try discriminate.
  destruct (strict_eq x y); try discriminate.
  destruct (negb (typeof_object x)); try discriminate.
  destruct (objectEquals x y) as [[|]|]; discriminate.
Qed.

Lemma second_turn_not_true (a b : value) (p : string) :
  second_turn a b p <> Ok (Some true).
Proof.
  unfold second_turn.
  destruct (hasOwnProperty b p) as [[|]|]; try discriminate.
  destruct (hasOwnProperty a p) as [[|]|]; discriminate.
Qed.

(** When it gets to the loops, [objectEquals] returns [true] exactly
    when every turn of both goes on. *)
Lemma objectEquals_loops (a b : value) :
  strict_eq a b = false -> instanceof_Object a = true -> instanceof_Object b = true ->
  constructor_neq (constructor a) (constructor b) = false ->
  (objectEquals a b = Ok true <->
   (forall p x, In (p, x) (own_props a) -> visit_field a b p x = Ok None) /\
   (forall p y, In (p, y) (own_props b) -> second_turn a b p = Ok None)).
Proof.
  intros Hne Ha Hb Hc. rewrite objectEquals_unfold, Hne, Ha, Hb, Hc. simpl.
  destruct (for_each (fun '(p, x) => visit_field a b p x) (own_props a))
    as [[r|]|e] eqn:E1.
  - split.
    + intros [= ->]. apply for_each_some in E1 as ([p x] & _ & Hx).
      destruct (visit_field_not_true a b p x Hx).
    + intros [H _].
      assert (for_each (fun '(p, x) => visit_field a b p x) (own_props a) = Ok None) as E
          by (apply for_each_none; intros [p x] Hin; apply (H p x Hin)).
      congruence.
  - destruct (for_each (fun '(p, _) => second_turn a b p) (own_props b))
      as [[r|]|e] eqn:E2.
    + split.
      * intros [= ->]. apply for_each_some in E2 as ([p y] & _ & Hy).
        destruct (second_turn_not_true a b p Hy).
      * intros [_ H].
        assert (for_each (fun '(p, _) => second_turn a b p) (own_props b) = Ok None) as E
            by (apply for_each_none; intros [p y] Hin; apply (H p y Hin)).
        congruence.
    + split; [intros _|reflexivity]. split.
      * intros p x Hin. apply (proj1 (for_each_none _ _) E1 (p, x) Hin).
      * intros p y Hin. apply (proj1 (for_each_none _ _) E2 (p, y) Hin).
    + split; [discriminate|]. intros [_ H].
      assert (for_each (fun '(p, _) => second_turn a b p) (own_props b) = Ok None) as E
          by (apply for_each_none; intros [p y] Hin; apply (H p y Hin)).
      congruence.
  - split; [discriminate|]. intros [H _].
    assert (for_each (fun '(p, x) => visit_field a b p x) (own_props a) = Ok None) as E
        by (apply for_each_none; intros [p x] Hin; apply (H p x Hin)).
    congruence.
Qed.

(** A turn of the first loop goes on exactly when the other object has
    the field, with an equal value. *)
Lemma visit_field_spec (a b : value) (p : string) (x : value) :
  instanceof_Object a = true -> instanceof_Object b = true ->
  shadows a = false -> shadows b = false -> In (p, x) (own_props a) ->
  (visit_field a b p x = Ok None <->
   has_field b p = true /\ exists y, get_prop b p = Ok y /\ fields_agree x y).
Proof.
  intros Ha Hb Hsa Hsb Hin. unfold visit_field.
  rewrite (hasOwnProperty_built_in a p Ha Hsa), (own_props_has_field a p x Hin).
  rewrite (hasOwnProperty_built_in b p Hb Hsb).
  destruct (has_field b p); [|split; [discriminate|intros [? _]; discriminate]].
  destruct (get_prop b p) as [y|e];
    [|split; [discriminate|intros (_ & y & Hy & _); discriminate]].
  assert ((if strict_eq x y then Ok None
           else if negb (typeof_object x) then Ok (Some false)
                else match objectEquals x y with
                     | Ok true => Ok None
                     | Ok false => Ok (Some false)
                     | Throw e => Throw e
                     end) = Ok None <-> objectEquals x y = Ok true) as H.
  { destruct (strict_eq x y) eqn:E.
    - rewrite (strict_eq_objectEquals x y E). tauto.
    - destruct (typeof_object x) eqn:Ht; simpl.
      + destruct (objectEquals x y) as [[|]|]; split; intros H;
          first [reflexivity|discriminate].
      + assert (is_primitive x = true) as Hprim by (destruct x; try discriminate; reflexivity).
        rewrite (objectEquals_primitive x y Hprim), E. split; discriminate. }
  rewrite H. split.
  - intros Hx. split; [reflexivity|]. exists y. split; [reflexivity|].
    apply fields_agree_objectEquals, Hx.
  - intros (_ & y' & [= <-] & Hx). apply fields_agree_objectEquals, Hx.
Qed.

Lemma second_turn_spec (a b : value) (p : string) (y : value) :
  instanceof_Object a = true -> instanceof_Object b = true ->
  shadows a = false -> shadows b = false -> In (p, y) (own_props b) ->
  (second_turn a b p = Ok None <-> has_field a p = true).
Proof.
  intros Ha Hb Hsa Hsb Hin. unfold second_turn.
  rewrite (hasOwnProperty_built_in b p Hb Hsb), (own_props_has_field b p y Hin).
  rewrite (hasOwnProperty_built_in a p Ha Hsa).
  destruct (has_field a p); split; congruence.
Qed.

(** Two objects of which one hides [hasOwnProperty] are not taken for
    equal: either the call throws, or the other one lacks the field. *)
Lemma objectEquals_iff (a b : value) :
  shadows a = false -> shadows b = false ->
  (objectEquals a b = Ok true <-> strict_eq a b = true \/ record_equal a b).
Proof.
  intros Hsa Hsb. destruct (strict_eq a b) eqn:E.
  - rewrite (strict_eq_objectEquals a b E). tauto.
  - unfold record_equal, is_primitive.
    destruct (instanceof_Object a) eqn:Ha;
      [|rewrite objectEquals_unfold, E, Ha; simpl;
        split; [discriminate|intros [?|(? & _)]; discriminate]].
    destruct (instanceof_Object b) eqn:Hb;
      [|rewrite objectEquals_unfold, E, Ha, Hb; simpl;
        split; [discriminate|intros [?|(_ & ? & _)]; discriminate]].
    destruct (constructor_neq (constructor a) (constructor b)) eqn:Hc;
      [rewrite objectEquals_unfold, E, Ha, Hb, Hc; simpl;
       split; [discriminate|intros [?|(_ & _ & ? & _)]; discriminate]|].
    rewrite (objectEquals_loops a b E Ha Hb Hc). simpl. split.
    + intros [H1 H2]. right. repeat split; auto.
      * apply (visit_field_spec a b p x Ha Hb Hsa Hsb H), H1, H.
      * apply (visit_field_spec a b p x Ha Hb Hsa Hsb H), H1, H.
      * intros p y Hin. apply (second_turn_spec a b p y Ha Hb Hsa Hsb Hin), H2 with y, Hin.
    + intros [H|(_ & _ & _ & H1 & H2)]; [discriminate|]. split.
      * intros p x Hin. apply (visit_field_spec a b p x Ha Hb Hsa Hsb Hin), H1, Hin.
      * intros p y Hin. apply (second_turn_spec a b p y Ha Hb Hsa Hsb Hin), H2 with y, Hin.
Qed.

(** ** Values without a field named [hasOwnProperty] *)

Lemma ordinary_shadows (v : value) : ordinary v = true -> shadows v = false.
Proof.
  destruct v; try reflexivity. simpl. intros H.
  apply andb_true_iff in H as [H _]. apply negb_true_iff in H. exact H.
Qed.

Lemma ordinary_field (v : value) (p : string) (x : value) :
  ordinary v = true -> In (p, x) (own_props v) -> ordinary x = true.
Proof.
  destruct v as [| | | | | |id items|id ctor props]; simpl; try (intros _ []).
  - intros Hord Hin.
    apply list_elem_of_In, elem_of_lookup_imap in Hin as (i & y & Heq & Hi).
    injection Heq as Hp Hx. subst p x. rewrite forallb_forall in Hord.
    apply Hord. apply list_elem_of_In. eapply list_elem_of_lookup_2, Hi.
  - intros Hord Hin. apply andb_true_iff in Hord as [_ Hord].
    rewrite forallb_forall in Hord. apply (Hord (p, x) Hin).
Qed.

Lemma assoc_listed (p : string) (x : value) (props : list (string * value)) :
  assoc p props = Some x -> In (p, x) props.
Proof.
  induction props as [|[q y] props IH]; simpl; [discriminate|].
  destruct (String.eqb_spec q p) as [->|_].
  - intros [= ->]. left. reflexivity.
  - intros H. right. apply IH, H.
Qed.

(** What is read off an ordinary value is ordinary. *)
Lemma ordinary_read (v : value) (p : string) (y : value) :
  ordinary v = true -> get_prop v p = Ok y -> ordinary y = true.
Proof.
  destruct v as [| | | | |s|id items|id ctor props]; simpl; try discriminate;
    try (intros _ [= <-]; reflexivity).
  - intros _. destruct (String.eqb p "length"); [intros [= <-]; reflexivity|].
    destruct (index_of_key p (String.length s)); intros [= <-]; reflexivity.
  - intros Hord. destruct (String.eqb p "length"); [intros [= <-]; reflexivity|].
    destruct (index_of_key p (length items)) as [i|]; intros [= <-]; [|reflexivity].
    rewrite forallb_forall in Hord.
    destruct (Nat.lt_ge_cases i (length items)) as [Hi|Hi].
    + apply Hord, nth_In, Hi.
    + rewrite nth_overflow by exact Hi. reflexivity.
  - intros Hord [= <-]. destruct (assoc p props) as [x|] eqn:E; [|reflexivity].
    apply (ordinary_field (VObj id ctor props) p x Hord). apply assoc_listed, E.
Qed.

(** On ordinary values [objectEquals] returns. *)
Lemma objectEquals_returns (a : value) :
  forall b, ordinary a = true -> ordinary b = true -> exists r, objectEquals a b = Ok r.
Proof.
  induction a as [| |x|n| |s|i A IH|i c props IH] using value_nested_ind;
    intros b Ha Hb;
    try (match goal with
         | |- context [objectEquals ?a b] =>
             rewrite (objectEquals_primitive a b eq_refl); eauto
         end).
  all: rewrite objectEquals_unfold.
  all: destruct (strict_eq _ b); [eauto|].
  all: destruct (negb _ || negb (instanceof_Object b)) eqn:Hobj; [eauto|].
  all: destruct (constructor_neq _ _); [eauto|].
  all: apply orb_false_iff in Hobj as [_ Hobj]; apply negb_false_iff in Hobj.
  all: match goal with |- context [own_props ?a] => set (a0 := a) in * end.
  all: assert (forall p x y, In (p, x) (own_props a0) -> ordinary y = true ->
                 exists r, objectEquals x y = Ok r) as Hnested.
  1: { intros p x y Hin Hy.
       pose proof (ordinary_field a0 p x Ha Hin) as Hx.
       subst a0. simpl in Hin.
       apply list_elem_of_In, elem_of_lookup_imap in Hin as (k & x' & Heq & Hk).
       injection Heq as Hp Hx'. subst p x'. rewrite List.Forall_forall in IH.
       apply (IH x); [|exact Hx|exact Hy].
       apply list_elem_of_In. eapply list_elem_of_lookup_2, Hk. }
  2: { intros p x y Hin Hy.
       pose proof (ordinary_field a0 p x Ha Hin) as Hx.
       subst a0. simpl in Hin. rewrite List.Forall_forall in IH.
       apply (IH (p, x) Hin y Hx Hy). }
  all: assert (exists o, for_each (fun '(p, x) => visit_field a0 b p x) (own_props a0)
                         = Ok o) as [o1 ->].
  1, 3: apply for_each_returns; intros [p x] Hin; unfold visit_field;
    rewrite (hasOwnProperty_built_in a0 p eq_refl (ordinary_shadows a0 Ha)),
            (hasOwnProperty_built_in b p Hobj (ordinary_shadows b Hb));
    destruct (has_field a0 p); [|eauto];
    destruct (has_field b p); [|eauto];
    destruct (get_prop b p) as [y|e] eqn:Hy;
      [|exfalso; destruct (get_prop_returns b p) as [k Hk];
        [intros ->; discriminate|intros ->; discriminate|congruence]];
    destruct (strict_eq x y); [eauto|];
    destruct (negb (typeof_object x)); [eauto|];
    destruct (Hnested p x y Hin (ordinary_read b p y Hb Hy)) as [[|] ->]; eauto.
  all: destruct o1 as [r|]; [eauto|].
  all: assert (exists o, for_each (fun '(p, _) => second_turn a0 b p) (own_props b)
                         = Ok o) as [o2 ->].
  1, 3: apply for_each_returns; intros [p y] Hin; unfold second_turn;
    rewrite (hasOwnProperty_built_in a0 p eq_refl (ordinary_shadows a0 Ha)),
            (hasOwnProperty_built_in b p Hobj (ordinary_shadows b Hb));
    destruct (has_field b p); [|eauto]; destruct (has_field a0 p); eauto.
  all: destruct o2 as [r|]; eauto.
Qed.



(** Nor does it hold of every pair of records: the fields are looked up
    with [hasOwnProperty] called on the records themselves, and a record
    with a field of that name makes the call throw, also against a
    record that is its equal field by field. *)
Lemma objectEquals_throws_on_own_hasOwnProperty :
  let a := VObj 1 "Object" [("hasOwnProperty", VNum 1)] in
  let b := VObj 2 "Object" [("hasOwnProperty", VNum 1)] in
  objectEquals a b = Throw TypeError /\
  has_field b "hasOwnProperty" = true /\ get_prop b "hasOwnProperty" = Ok (VNum 1).
Proof. intros a b. split; [reflexivity|]. split; reflexivity. Qed.



(** ** Cross-fill *)

Lemma inArray_from_range (x : value) (arr : list value) (i : Z) :
  inArray_from x arr i = -1 \/ i <= inArray_from x arr i.
Proof.
  revert i. induction arr as [|y arr IH]; intros i; simpl; [auto|].
  destruct (strict_eq y x); [right; lia|].
  destruct (IH (i + 1)) as [->|H]; [auto|right; lia].
Qed.

Lemma inArray_from_absent (x : value) (arr : list value) (i : Z) :
  0 <= i ->
  inArray_from x arr i = -1 <-> Forall (fun y => strict_eq y x = false) arr.
Proof.
  revert i. induction arr as [|y arr IH]; intros i Hi; simpl.
  - split; [constructor|reflexivity].
  - destruct (strict_eq y x) eqn:E.
    + split; [lia|]. intros H. inversion H. congruence.
    + rewrite (IH (i + 1)) by lia. split.
      * intros H. constructor; assumption.
      * intros H. inversion H. assumption.
Qed.

Lemma inArray_absent (x : value) (arr : list value) :
  inArray x arr = -1 <-> Forall (fun y => strict_eq y x = false) arr.
Proof. apply inArray_from_absent. lia. Qed.

Lemma strict_eq_congr_r (a b y : value) :
  strict_eq a b = true -> strict_eq y a = strict_eq y b.
Proof.
  intros Hab. destruct (strict_eq y a) eqn:Ha.
  - symmetry. apply (strict_eq_trans y a b); assumption.
  - destruct (strict_eq y b) eqn:Hb; [|reflexivity].
    rewrite strict_eq_sym in Hab.
    rewrite (strict_eq_trans y b a Hb Hab) in Ha. discriminate.
Qed.

Lemma inArray_absent_congr (a b : value) (arr : list value) :
  strict_eq a b = true -> inArray a arr = -1 -> inArray b arr = -1.
Proof.
  intros Hab Ha. apply inArray_absent. apply inArray_absent in Ha.
  eapply Forall_impl; [exact Ha|]. intros y Hy. simpl in Hy.
  rewrite <- (strict_eq_congr_r a b y Hab). exact Hy.
Qed.

Lemma strict_eq_self_l (a b : value) : strict_eq a b = true -> strict_eq a a = true.
Proof.
  intros H. apply (strict_eq_trans a b a H). rewrite strict_eq_sym. exact H.
Qed.

Lemma strict_eq_self_r (a b : value) : strict_eq a b = true -> strict_eq b b = true.
Proof.
  intros H. rewrite strict_eq_sym in H. apply (strict_eq_self_l b a H).
Qed.

Section CrossFillFacts.

Variable elem : Type.
Variable key_of : elem -> value.
Variable world : Type.
Variable objectLoader : value -> world -> option elem * world.

Lemma load_missing_load_all (newKeyList currentKeyList : list value)
  (objectList : list elem) (w : world) :
  load_missing elem world objectLoader newKeyList currentKeyList objectList w =
  let (added, w') :=
    load_all elem world objectLoader
      (List.filter (fun k => inArray k currentKeyList =? -1) newKeyList) w in
  (objectList ++ added, w').
Proof.
  revert objectList w. induction newKeyList as [|k rest IH]; intros objectList w; simpl.
  - rewrite app_nil_r. reflexivity.
  - destruct (inArray k currentKeyList =? -1); simpl; [|apply IH].
    destruct (objectLoader k w) as [[o|] w'].
    + rewrite IH.
      destruct (load_all elem world objectLoader _ w') as [added w''].
      rewrite <- app_assoc. reflexivity.
    + rewrite IH.
      destruct (load_all elem world objectLoader _ w') as [added w'']. reflexivity.
Qed.

Lemma remove_stale_foldl (currentKeyList newKeyList : list value)
  (objectList : list elem) :
  remove_stale elem key_of currentKeyList newKeyList objectList =
  foldl (fun l k => splice_first elem key_of k l) objectList
    (List.filter (fun k => inArray k newKeyList =? -1) currentKeyList).
Proof.
  revert objectList. induction currentKeyList as [|k rest IH]; intros objectList;
    simpl; [reflexivity|].
  destruct (inArray k newKeyList =? -1); simpl; apply IH.
Qed.

Lemma splice_first_absent (k : value) (l : list elem) :
  Forall (fun o => strict_eq (key_of o) k = false) l ->
  splice_first elem key_of k l = l.
Proof.
  induction 1 as [|o l Ho _ IH]; simpl; [reflexivity|].
  rewrite Ho, IH. reflexivity.
Qed.

Lemma splice_first_found (k : value) (pre : list elem) (o : elem) (post : list elem) :
  Forall (fun o' => strict_eq (key_of o') k = false) pre ->
  strict_eq (key_of o) k = true ->
  splice_first elem key_of k (pre ++ o :: post) = pre ++ post.
Proof.
  intros Hpre Ho. induction Hpre as [|o' pre Ho' _ IH]; simpl.
  - rewrite Ho. reflexivity.
  - rewrite Ho', IH. reflexivity.
Qed.

Lemma remove_stale_filter_gen (newKeyList : list value)
  (rest kept tail : list elem) :
  Forall (fun o => pruned elem key_of newKeyList o = false) kept ->
  remove_stale elem key_of (map key_of rest) newKeyList (kept ++ rest ++ tail) =
  kept ++ List.filter (fun o => negb (pruned elem key_of newKeyList o)) rest ++ tail.
Proof.
  revert kept. induction rest as [|e rest IH]; intros kept Hkept; [reflexivity|].
  simpl map. simpl remove_stale. simpl List.filter.
  assert (forall l : list elem, kept ++ (e :: rest) ++ l = (kept ++ [e]) ++ rest ++ l)
    as Hshift by (intros l; rewrite <- app_assoc; reflexivity).
  destruct (pruned elem key_of newKeyList e) eqn:Hp; simpl negb; cbv iota.
  - apply andb_true_iff in Hp as [Hstale Hself]. rewrite Hstale.
    simpl app. rewrite splice_first_found; [apply IH, Hkept| |exact Hself].
    eapply Forall_impl; [exact Hkept|]. intros o Ho. simpl in Ho.
    destruct (strict_eq (key_of o) (key_of e)) eqn:E; [|reflexivity].
    exfalso. unfold pruned in Ho.
    rewrite (strict_eq_self_l _ _ E), andb_true_r in Ho.
    apply Z.eqb_eq in Hstale. rewrite strict_eq_sym in E.
    apply (inArray_absent_congr _ _ _ E) in Hstale.
    apply Z.eqb_neq in Ho. contradiction.
  - assert (remove_stale elem key_of (map key_of rest) newKeyList
              (kept ++ (e :: rest) ++ tail) =
            kept ++ (e :: List.filter
                       (fun o => negb (pruned elem key_of newKeyList o)) rest) ++ tail)
      as Hkeep.
    { rewrite Hshift, (IH (kept ++ [e])); [rewrite <- app_assoc; reflexivity|].
      apply Forall_app. split; [exact Hkept|].
      constructor; [exact Hp|constructor]. }
    destruct (inArray (key_of e) newKeyList =? -1) eqn:Hstale; [|exact Hkeep].
    rewrite splice_first_absent; [exact Hkeep|].
    unfold pruned in Hp. rewrite Hstale in Hp. simpl in Hp.
    apply Forall_forall. intros o _.
    destruct (strict_eq (key_of o) (key_of e)) eqn:E; [|reflexivity].
    rewrite (strict_eq_self_r _ _ E) in Hp. discriminate.
Qed.

Lemma remove_stale_filter (newKeyList : list value) (objectList tail : list elem) :
  remove_stale elem key_of (map key_of objectList) newKeyList (objectList ++ tail) =
  List.filter (fun o => negb (pruned elem key_of newKeyList o)) objectList ++ tail.
Proof. apply (remove_stale_filter_gen newKeyList objectList [] tail). constructor. Qed.

Lemma filter_sublist (f : elem -> bool) (l : list elem) : sublist (List.filter f l) l.
Proof.
  induction l as [|o l IH]; simpl; [constructor|].
  destruct (f o); [apply sublist_skip|apply sublist_cons]; exact IH.
Qed.

End CrossFillFacts.

Section CrossFillCounting.

Variable elem : Type.
Variable key_of : elem -> value.
Variable world : Type.
Variable objectLoader : value -> world -> option elem * world.

Lemma load_all_recording (keys : list value) (w : world) (log : list value) :
  load_all elem (world * list value) (recording elem world objectLoader) keys (w, log) =
  let (added, w') := load_all elem world objectLoader keys w in
  (added, (w', log ++ keys)).
Proof.
  revert w log. induction keys as [|k rest IH]; intros w log; simpl.
  - rewrite app_nil_r. reflexivity.
  - unfold recording at 1. simpl.
    destruct (objectLoader k w) as [r w']. rewrite IH.
    destruct (load_all elem world objectLoader rest w') as [added w''].
    rewrite <- app_assoc. reflexivity.
Qed.

Lemma occurrences_missing (x : value) (currentKeyList newKeyList : list value) :
  inArray x currentKeyList = -1 ->
  occurrences x (List.filter (fun k => inArray k currentKeyList =? -1) newKeyList) =
  occurrences x newKeyList.
Proof.
  intros Hx. unfold occurrences. induction newKeyList as [|k rest IH]; [reflexivity|].
  simpl. destruct (strict_eq k x) eqn:E.
  - rewrite strict_eq_sym in E.
    rewrite (proj2 (Z.eqb_eq _ _) (inArray_absent_congr x k _ E Hx)).
    simpl. rewrite strict_eq_sym, E. simpl. rewrite IH. reflexivity.
  - destruct (inArray k currentKeyList =? -1); simpl; [rewrite E|]; exact IH.
Qed.

Lemma load_all_carrying (x : value) (keys : list value) (w : world) :
  (forall k w0 o w1, objectLoader k w0 = (Some o, w1) -> strict_eq (key_of o) k = true) ->
  (forall k w0, strict_eq k x = true -> exists o w1, objectLoader k w0 = (Some o, w1)) ->
  length (List.filter (fun o => strict_eq (key_of o) x)
            (fst (load_all elem world objectLoader keys w))) =
  occurrences x keys.
Proof.
  intros Hkey Hdef. unfold occurrences.
  revert w. induction keys as [|k rest IH]; intros w; [reflexivity|].
  simpl. specialize (IH).
  destruct (objectLoader k w) as [r w'] eqn:Hl.
  specialize (IH w'). destruct (load_all elem world objectLoader rest w') as [added w''].
  simpl in IH. destruct (strict_eq k x) eqn:E.
  - destruct (Hdef k w E) as (o & w1 & Ho). rewrite Hl in Ho. injection Ho as -> ->.
    simpl. rewrite (strict_eq_trans _ _ _ (Hkey _ _ _ _ Hl) E). simpl. rewrite IH.
    reflexivity.
  - destruct r as [o|]; simpl; [|exact IH].
    destruct (strict_eq (key_of o) x) eqn:Eo; [|exact IH]. exfalso.
    pose proof (Hkey _ _ _ _ Hl) as Hk. rewrite strict_eq_sym in Hk.
    rewrite (strict_eq_trans _ _ _ Hk Eo) in E. discriminate.
Qed.

Lemma filter_carrying_absent (x : value) (objectList kept : list elem) :
  inArray x (map key_of objectList) = -1 -> sublist kept objectList ->
  List.filter (fun o => strict_eq (key_of o) x) kept = [].
Proof.
  intros Hx Hsub. apply inArray_absent in Hx. rewrite Forall_map in Hx.
  induction Hsub as [|o l1 l2 _ IH|o l1 l2 _ IH]; simpl; [reflexivity| |].
  - inversion Hx as [|? ? Ho Hrest]; subst. simpl in Ho. rewrite Ho. apply IH, Hrest.
  - inversion Hx as [|? ? Ho Hrest]; subst. apply IH, Hrest.
Qed.

End CrossFillCounting.

(** C3.  [crossFiller] calls the loader, in order, on exactly the keys of
    [newKeyList] that are absent from the keys first read off the target
    and appends every defined result; unless [clean] is [false] it then
    removes, for each initial key absent from [newKeyList] in turn, the
    first element carrying that key, and with [clean] false it removes
    nothing.  On a target with keys 1, 2, 3 and [newKeyList] 2, 3, 4 the
    pruning runs ([clean] [true] or omitted) end with keys 2, 3, 4 and the
    run without pruning with keys 1, 2, 3, 4. *)
Theorem crossFiller_fills_and_prunes (elem : Type) (key_of : elem -> value)
  (world : Type) (objectLoader : value -> world -> option elem * world)
  (newKeyList : list value) (objectList : list elem) (clean : value) (w : world) :
  let currentKeyList := map key_of objectList in
  let missing := List.filter (fun k => inArray k currentKeyList =? -1) newKeyList in
  let stale := List.filter (fun k => inArray k newKeyList =? -1) currentKeyList in
  crossFiller elem key_of world objectLoader newKeyList objectList clean w =
    (let (added, w') := load_all elem world objectLoader missing w in
     (if strict_eq clean (VBool false) then objectList ++ added
      else foldl (fun l k => splice_first elem key_of k l) (objectList ++ added) stale,
      w'))
  /\ (forall k pre o post,
        Forall (fun o' => strict_eq (key_of o') k = false) pre ->
        strict_eq (key_of o) k = true ->
        splice_first elem key_of k (pre ++ o :: post) = pre ++ post)
  /\ (forall k l,
        Forall (fun o => strict_eq (key_of o) k = false) l ->
        splice_first elem key_of k l = l)
  /\ (let target := [record_of_id 1; record_of_id 2; record_of_id 3] in
      let newKeys := [VNum 2; VNum 3; VNum 4] in
      map id_of (fst (crossFiller value id_of unit id_loader newKeys target (VBool true) tt))
        = [VNum 2; VNum 3; VNum 4] /\
      map id_of (fst (crossFiller value id_of unit id_loader newKeys target VUndef tt))
        = [VNum 2; VNum 3; VNum 4] /\
      map id_of (fst (crossFiller value id_of unit id_loader newKeys target (VBool false) tt))
        = [VNum 1; VNum 2; VNum 3; VNum 4]).
Proof.
  intros currentKeyList missing stale. split; [|split; [|split]].
  - unfold crossFiller. fold currentKeyList.
    rewrite load_missing_load_all. fold missing.
    destruct (load_all elem world objectLoader missing w) as [added w'].
    unfold strict_neq. destruct (strict_eq clean (VBool false)); simpl; [reflexivity|].
    rewrite remove_stale_foldl. reflexivity.
  - intros k pre o post. apply splice_first_found.
  - intros k l. apply splice_first_absent.
  - repeat split; reflexivity.
Qed.

Lemma crossFiller_fills_and_prunes_witness :
  let target := [record_of_id 1; record_of_id 2; record_of_id 3] in
  let newKeys := [VNum 2; VNum 3; VNum 4] in
  Forall (fun o' => strict_eq (id_of o') (VNum 2) = false) [record_of_id 1] /\
  strict_eq (id_of (record_of_id 2)) (VNum 2) = true /\
  splice_first value id_of (VNum 2) target = [record_of_id 1; record_of_id 3] /\
  crossFiller value id_of unit id_loader newKeys target VUndef tt =
    ([record_of_id 2; record_of_id 3; record_of_id 4], tt).
Proof.
  intros target newKeys.
  assert (Forall (fun o' => strict_eq (id_of o') (VNum 2) = false) [record_of_id 1])
    as Hpre by (repeat constructor).
  assert (strict_eq (id_of (record_of_id 2)) (VNum 2) = true) as Hkey by reflexivity.
  destruct (crossFiller_fills_and_prunes value id_of unit id_loader newKeys target VUndef tt)
    as (Hcall & Hfound & _).
  split; [exact Hpre|]. split; [exact Hkey|]. split.
  - exact (Hfound (VNum 2) [record_of_id 1] (record_of_id 2) [record_of_id 3] Hpre Hkey).
  - rewrite Hcall. reflexivity.
Defined.

Lemma crossFiller_kept_added (elem : Type) (key_of : elem -> value)
  (world : Type) (objectLoader : value -> world -> option elem * world)
  (newKeyList : list value) (objectList : list elem) (clean : value) (w : world) :
  exists kept added : list elem,
    fst (crossFiller elem key_of world objectLoader newKeyList objectList clean w)
      = kept ++ added /\
    sublist kept objectList /\
    kept = (if strict_eq clean (VBool false) then objectList
            else List.filter (fun o => negb (pruned elem key_of newKeyList o)) objectList) /\
    added = fst (load_all elem world objectLoader
                   (List.filter (fun k => inArray k (map key_of objectList) =? -1)
                      newKeyList) w).
Proof.
  unfold crossFiller. rewrite load_missing_load_all.
  destruct (load_all elem world objectLoader _ w) as [added w'].
  unfold strict_neq. destruct (strict_eq clean (VBool false)); simpl.
  - exists objectList, added. repeat split; reflexivity.
  - exists (List.filter (fun o => negb (pruned elem key_of newKeyList o)) objectList), added.
    split; [apply remove_stale_filter|]. split; [apply filter_sublist|]. split; reflexivity.
Qed.

(** C8.  What [crossFiller] leaves in the target is a subsequence of what
    it found there, in the same order and made of the same objects,
    followed by the objects the loader returned: elements are only
    removed, and only appended at the end. *)
Theorem crossFiller_keeps_order (elem : Type) (key_of : elem -> value)
  (world : Type) (objectLoader : value -> world -> option elem * world)
  (newKeyList : list value) (objectList : list elem) (clean : value) (w : world) :
  exists kept added : list elem,
    fst (crossFiller elem key_of world objectLoader newKeyList objectList clean w)
      = kept ++ added /\
    sublist kept objectList /\
    kept = (if strict_eq clean (VBool false) then objectList
            else List.filter (fun o => negb (pruned elem key_of newKeyList o)) objectList) /\
    added = fst (load_all elem world objectLoader
                   (List.filter (fun k => inArray k (map key_of objectList) =? -1)
                      newKeyList) w).
Proof.
  unfold crossFiller. rewrite load_missing_load_all.
  destruct (load_all elem world objectLoader _ w) as [added w'].
  unfold strict_neq. destruct (strict_eq clean (VBool false)); simpl.
  - exists objectList, added. repeat split; reflexivity.
  - exists (List.filter (fun o => negb (pruned elem key_of newKeyList o)) objectList), added.
    split; [apply remove_stale_filter|]. split; [apply filter_sublist|]. split; reflexivity.
Qed.

(** C10.  The keys of the target are read once, before the loader runs,
    and the list of them is not extended afterwards: a key absent from
    the target that occurs k times in [newKeyList] has the loader called k
    times, and when the loader returns, for every key it is given, an
    object carrying it, the target ends with k appended objects carrying
    that key. *)
Theorem crossFiller_repeated_key (elem : Type) (key_of : elem -> value)
  (world : Type) (objectLoader : value -> world -> option elem * world)
  (newKeyList : list value) (objectList : list elem) (clean : value) (w : world)
  (x : value) :
  inArray x (map key_of objectList) = -1 ->
  let run := crossFiller elem key_of (world * list value)
               (recording elem world objectLoader) newKeyList objectList clean (w, []) in
  occurrences x (snd (snd run)) = occurrences x newKeyList /\
  ((forall k w0 o w1, objectLoader k w0 = (Some o, w1) -> strict_eq (key_of o) k = true) ->
   (forall k w0, strict_eq k x = true -> exists o w1, objectLoader k w0 = (Some o, w1)) ->
   exists kept added : list elem,
     fst run = kept ++ added /\ sublist kept objectList /\
     List.filter (fun o => strict_eq (key_of o) x) kept = [] /\
     length (List.filter (fun o => strict_eq (key_of o) x) added) =
       occurrences x newKeyList).
Proof.
  intros Hx run.
  destruct (crossFiller_kept_added elem key_of (world * list value)
              (recording elem world objectLoader) newKeyList objectList clean (w, []))
    as (kept & added & Hrun & Hsub & _ & Hadded).
  fold run in Hrun. rewrite load_all_recording in Hadded.
  assert (snd (snd run) = List.filter
            (fun k => inArray k (map key_of objectList) =? -1) newKeyList) as Hlog.
  { subst run. unfold crossFiller. rewrite load_missing_load_all, load_all_recording.
    destruct (load_all elem world objectLoader _ w) as [added' w'].
    destruct (strict_neq clean (VBool false)); reflexivity. }
  split.
  - rewrite Hlog. apply occurrences_missing, Hx.
  - intros Hkey Hdef. exists kept, added. split; [exact Hrun|]. split; [exact Hsub|].
    split; [apply (filter_carrying_absent elem key_of x objectList kept Hx Hsub)|].
    rewrite Hadded.
    pose proof (load_all_carrying elem key_of world objectLoader x
                  (List.filter (fun k => inArray k (map key_of objectList) =? -1)
                     newKeyList) w Hkey Hdef) as Hcount.
    destruct (load_all elem world objectLoader _ w) as [added' w'].
    simpl in *. rewrite Hcount. apply occurrences_missing, Hx.
Qed.

Lemma crossFiller_repeated_key_witness :
  let target := [record_of_id 1] in
  let newKeys := [VNum 4; VNum 1; VNum 4] in
  let run := crossFiller value id_of (unit * list value)
               (recording value unit id_loader) newKeys target VUndef (tt, []) in
  inArray (VNum 4) (map id_of target) = -1 /\
  occurrences (VNum 4) (snd (snd run)) = occurrences (VNum 4) newKeys /\
  exists kept added : list value,
    fst run = kept ++ added /\ sublist kept target /\
    List.filter (fun o => strict_eq (id_of o) (VNum 4)) kept = [] /\
    length (List.filter (fun o => strict_eq (id_of o) (VNum 4)) added) =
      occurrences (VNum 4) newKeys.
Proof.
  intros target newKeys run.
  assert (inArray (VNum 4) (map id_of target) = -1) as Habsent by reflexivity.
  destruct (crossFiller_repeated_key value id_of unit id_loader newKeys target VUndef tt
              (VNum 4) Habsent) as [Hcalls Hadded].
  split; [exact Habsent|]. split; [exact Hcalls|].
  apply Hadded.
  - intros k w0 o w1. unfold id_loader. destruct k; intros [= <- <-].
    simpl. apply Z.eqb_refl.
  - intros k w0. destruct k; simpl; try discriminate. intros _.
    exists (record_of_id n), w0. reflexivity.
Defined.

(** ** Selective merge *)

Section MergeFacts.

Variables originalObject newObject targetObject : positive.
Variable f : string.

Lemma field_assign (h : heap) (o : positive) (k : string) (c : value)
  (r : positive) (g : string) :
  assign h o k c r !! g = if decide (r = o /\ k = g) then Some c else h r !! g.
Proof.
  unfold assign, update. destruct (Pos.eqb_spec r o) as [->|Hne].
  - destruct (decide (k = g)) as [->|Hk].
    + rewrite lookup_insert_eq. rewrite decide_True by auto. reflexivity.
    + rewrite lookup_insert_ne by exact Hk. rewrite decide_False by tauto. reflexivity.
  - rewrite decide_False by tauto. reflexivity.
Qed.

Lemma field_remove (h : heap) (o : positive) (k : string)
  (r : positive) (g : string) :
  remove h o k r !! g = if decide (r = o /\ k = g) then None else h r !! g.
Proof.
  unfold remove, update. destruct (Pos.eqb_spec r o) as [->|Hne].
  - destruct (decide (k = g)) as [->|Hk].
    + rewrite lookup_delete_eq. rewrite decide_True by auto. reflexivity.
    + rewrite lookup_delete_ne by exact Hk. rewrite decide_False by tauto. reflexivity.
  - rewrite decide_False by tauto. reflexivity.
Qed.

Lemma owns_lookup (h : heap) (o : positive) (k : string) :
  owns h o k = match h o !! k with Some _ => true | None => false end.
Proof.
  unfold owns. destruct (h o !! k).
  - apply bool_decide_eq_true_2. eauto.
  - apply bool_decide_eq_false_2. intros [? ?]. discriminate.
Qed.

Lemma has_own_built_in (h : heap) (o : positive) (k : string) :
  finds_built_in h o -> has_own h o k = Ok (owns h o k).
Proof.
  unfold finds_built_in, has_own. intros H.
  rewrite (owns_lookup h o "hasOwnProperty"), H. reflexivity.
Qed.

(** What a turn does when every [hasOwnProperty] is the built-in one. *)
Lemma merge_key_built_in (h : heap) (k : string) :
  built_in_tests originalObject newObject targetObject h ->
  merge_key originalObject newObject targetObject h k =
  if owns h originalObject k && owns h targetObject k then
    if strict_eq (own h originalObject k) (own h targetObject k) then
      if owns h newObject k
      then assign_field h targetObject k (own h newObject k)
      else (remove h targetObject k, Returned)
    else (h, Returned)
  else if negb (owns h originalObject k) && negb (owns h targetObject k) then
    if owns h newObject k
    then assign_field h targetObject k (own h newObject k)
    else (h, Returned)
  else (h, Returned).
Proof.
  intros (Ho & Hn & Ht). unfold merge_key.
  rewrite (has_own_built_in h originalObject k Ho), (has_own_built_in h newObject k Hn),
    (has_own_built_in h targetObject k Ht).
  destruct (owns h originalObject k), (owns h targetObject k), (owns h newObject k);
    reflexivity.
Qed.

(** With a hidden method among the three, a turn writes nothing. *)
Lemma merge_key_hidden (h : heap) (k : string) (h' : heap) (c : completion) :
  ~ built_in_tests originalObject newObject targetObject h ->
  merge_key originalObject newObject targetObject h k = (h', c) ->
  h' = h /\ c <> Reprototyped.
Proof.
  intros Hhid. unfold merge_key, has_own, and_test, not_test.
  rewrite (owns_lookup h originalObject "hasOwnProperty"),
    (owns_lookup h targetObject "hasOwnProperty"),
    (owns_lookup h newObject "hasOwnProperty").
  destruct (h originalObject !! "hasOwnProperty"%string) eqn:Ho;
    [intros [= <- <-]; split; [reflexivity|discriminate]|].
  destruct (h targetObject !! "hasOwnProperty"%string) eqn:Ht;
    [destruct (owns h originalObject k); simpl;
     intros [= <- <-]; split; try reflexivity; discriminate|].
  destruct (h newObject !! "hasOwnProperty"%string) eqn:Hn;
    [|destruct Hhid; repeat split; assumption].
  destruct (owns h originalObject k), (owns h targetObject k); simpl;
    try destruct (strict_eq _ _);
    intros [= <- <-]; split; try reflexivity; discriminate.
Qed.

(** One turn of the loop leaves the heap as it is, assigns the incoming
    value to the target, or deletes a field that the target has and the
    incoming object lacks. *)
Lemma merge_key_shape (h : heap) (k : string) (h' : heap) (c : completion) :
  merge_key originalObject newObject targetObject h k = (h', c) ->
  h' = h \/
  (exists v, h newObject !! k = Some v /\ h' = assign h targetObject k v) \/
  (h newObject !! k = None /\ is_Some (h targetObject !! k) /\
   h' = remove h targetObject k).
Proof.
  destruct (h originalObject !! "hasOwnProperty"%string) eqn:Ho, 
    (h newObject !! "hasOwnProperty"%string) eqn:Hn,
    (h targetObject !! "hasOwnProperty"%string) eqn:Ht.
  1-7: intros H; left; apply (merge_key_hidden h k h' c); [|exact H];
    intros (H1 & H2 & H3); unfold finds_built_in in *; congruence.
  rewrite merge_key_built_in by (repeat split; assumption).
  unfold assign_field. rewrite !owns_lookup. unfold own.
  destruct (h originalObject !! k) as [a|], (h targetObject !! k) as [b|] eqn:Hb,
    (h newObject !! k) as [v|] eqn:Hv; simpl;
    try destruct (strict_eq a b); try destruct (String.eqb k "__proto__"); simpl;
    try destruct (typeof_object v);
    intros [= <- <-]; eauto 10.
Qed.

Lemma merge_key_frame (h : heap) (k : string) (h' : heap) (c : completion)
  (r : positive) (g : string) :
  merge_key originalObject newObject targetObject h k = (h', c) ->
  r <> targetObject \/ g <> k -> h' r !! g = h r !! g.
Proof.
  intros H Hout.
  destruct (merge_key_shape h k h' c H) as [->|[(v & _ & ->)|(_ & _ & ->)]];
    [reflexivity| |].
  - rewrite field_assign. destruct (decide (r = targetObject /\ k = g)) as [[-> ->]|];
      [destruct Hout; congruence|reflexivity].
  - rewrite field_remove. destruct (decide (r = targetObject /\ k = g)) as [[-> ->]|];
      [destruct Hout; congruence|reflexivity].
Qed.

(** A run goes on after a turn that returned, and ends with any other. *)
Lemma merge_cons (k : string) (keys : list string) (h h' : heap) (c : completion) :
  merge originalObject newObject targetObject (k :: keys) h = (h', c) ->
  exists h1 c1,
    merge_key originalObject newObject targetObject h k = (h1, c1) /\
    ((c1 = Returned /\ merge originalObject newObject targetObject keys h1 = (h', c)) \/
     (c1 <> Returned /\ h' = h1 /\ c = c1)).
Proof.
  simpl. destruct (merge_key originalObject newObject targetObject h k) as [h1 c1].
  intros H. exists h1, c1. split; [reflexivity|].
  destruct c1; [left; auto|right|right]; injection H as <- <-;
    (split; [discriminate|auto]).
Qed.

Lemma merge_frame (keys : list string) (h h' : heap) (c : completion)
  (r : positive) (g : string) :
  merge originalObject newObject targetObject keys h = (h', c) ->
  r <> targetObject \/ ~ In g keys -> h' r !! g = h r !! g.
Proof.
  revert h. induction keys as [|k keys IH]; intros h H Hout.
  - injection H as <- <-. reflexivity.
  - assert (r <> targetObject \/ g <> k) as Hstep
        by (destruct Hout as [?|Hg]; [left; assumption|right; intros ->; apply Hg; left;
            reflexivity]).
    assert (r <> targetObject \/ ~ In g keys) as Hrest
        by (destruct Hout as [?|Hg]; [left; assumption|right; intros ?; apply Hg; right;
            assumption]).
    apply merge_cons in H as (h1 & c1 & Hk & [[_ H]|(_ & -> & _)]).
    + rewrite (IH h1 H Hrest). apply (merge_key_frame h k h1 c1 r g Hk Hstep).
    + apply (merge_key_frame h k h1 c1 r g Hk Hstep).
Qed.

(** The tests stay the built-in ones, and a turn does not throw. *)
Lemma merge_key_keeps_tests (h : heap) (k : string) (h' : heap) (c : completion) :
  built_in_tests originalObject newObject targetObject h ->
  merge_key originalObject newObject targetObject h k = (h', c) ->
  built_in_tests originalObject newObject targetObject h' /\
  (c = Returned \/ c = Reprototyped).
Proof.
  intros Hb H. pose proof Hb as (Ho & Hn & Ht). split.
  - destruct (decide (k = "hasOwnProperty"%string)) as [->|Hk].
    + rewrite (merge_key_built_in h _ Hb), !owns_lookup in H.
      unfold finds_built_in in Ho, Hn, Ht. rewrite Ho, Hn, Ht in H. simpl in H.
      injection H as <- <-. exact Hb.
    + unfold built_in_tests, finds_built_in.
      rewrite !(merge_key_frame h k h' c _ "hasOwnProperty" H) by (right; congruence).
      exact Hb.
  - rewrite (merge_key_built_in h k Hb) in H. unfold assign_field in H.
    destruct (owns h originalObject k && owns h targetObject k),
      (strict_eq (own h originalObject k) (own h targetObject k)),
      (negb (owns h originalObject k) && negb (owns h targetObject k)),
      (owns h newObject k),
      (String.eqb k "__proto__" && negb (owns h targetObject k)),
      (typeof_object (own h newObject k));
      injection H as <- <-; auto.
Qed.

(** Without [__proto__] for a key, such a turn returns. *)
Lemma merge_key_returns (h : heap) (k : string) :
  built_in_tests originalObject newObject targetObject h -> k <> "__proto__"%string ->
  exists h', merge_key originalObject newObject targetObject h k = (h', Returned) /\
             built_in_tests originalObject newObject targetObject h'.
Proof.
  intros Hb Hk.
  destruct (merge_key originalObject newObject targetObject h k) as [h' c] eqn:H.
  destruct (merge_key_keeps_tests h k h' c Hb H) as [Hb' Hc].
  exists h'. split; [|exact Hb'].
  rewrite (merge_key_built_in h k Hb) in H. unfold assign_field in H.
  apply String.eqb_neq in Hk. rewrite Hk in H. simpl in H.
  destruct (owns h originalObject k && owns h targetObject k),
    (strict_eq (own h originalObject k) (own h targetObject k)),
    (negb (owns h originalObject k) && negb (owns h targetObject k)),
    (owns h newObject k);
    injection H as <- <-; reflexivity.
Qed.

Lemma merge_returns (keys : list string) (h : heap) :
  built_in_tests originalObject newObject targetObject h ->
  ~ In "__proto__"%string keys ->
  exists h', merge originalObject newObject targetObject keys h = (h', Returned).
Proof.
  revert h. induction keys as [|k keys IH]; intros h Hb Hkeys; [eexists; reflexivity|].
  destruct (merge_key_returns h k Hb) as (h1 & Hk & Hb1);
    [intros ->; apply Hkeys; left; reflexivity|].
  destruct (IH h1 Hb1) as [h' H]; [intros ?; apply Hkeys; right; assumption|].
  exists h'. simpl. rewrite Hk. exact H.
Qed.

Lemma merge_key_settled (h : heap) (k : string) (h' : heap) (c : completion)
  (v : option value) :
  merge_key originalObject newObject targetObject h k = (h', c) ->
  h newObject !! f = v -> h targetObject !! f = v ->
  h' newObject !! f = v /\ h' targetObject !! f = v.
Proof.
  intros H Hn Ht. destruct (decide (k = f)) as [->|Hk];
    [|rewrite !(merge_key_frame h k h' c _ f H) by (right; congruence); auto].
  destruct (merge_key_shape h f h' c H) as [->|[(c' & Hc' & ->)|(Hnone & Hsome & ->)]];
    [auto| |].
  - rewrite !field_assign. rewrite Hc' in Hn. subst v.
    rewrite (decide_True (P := targetObject = targetObject /\ f = f)) by auto.
    split; [|reflexivity]. case_decide; [reflexivity|exact Hc'].
  - rewrite Ht, <- Hn, Hnone in Hsome. destruct Hsome. discriminate.
Qed.

Lemma merge_settled (keys : list string) (h h' : heap) (c : completion)
  (v : option value) :
  merge originalObject newObject targetObject keys h = (h', c) ->
  h newObject !! f = v -> h targetObject !! f = v -> h' targetObject !! f = v.
Proof.
  revert h. induction keys as [|k keys IH]; intros h H Hn Ht.
  - injection H as <- <-. exact Ht.
  - apply merge_cons in H as (h1 & c1 & Hk & Hrest).
    destruct (merge_key_settled h k h1 c1 v Hk Hn Ht) as [Hn1 Ht1].
    destruct Hrest as [[_ H]|(_ & -> & _)]; [|exact Ht1].
    apply (IH h1 H Hn1 Ht1).
Qed.

Lemma merge_key_unmodified (h h' : heap) (c : completion) :
  built_in_tests originalObject newObject targetObject h -> f <> "__proto__"%string ->
  unmodified (h originalObject !! f) (h targetObject !! f) = true ->
  merge_key originalObject newObject targetObject h f = (h', c) ->
  h' newObject !! f = h newObject !! f /\ h' targetObject !! f = h newObject !! f.
Proof.
  intros Hb Hf Hun.
  assert (forall v, h newObject !! f = Some v ->
                    assign h targetObject f v newObject !! f = Some v /\
                    assign h targetObject f v targetObject !! f = Some v) as Hassign.
  { intros v Hn. rewrite !field_assign.
    rewrite (decide_True (P := targetObject = targetObject /\ f = f)) by auto.
    split; [|reflexivity]. case_decide; [reflexivity|exact Hn]. }
  rewrite (merge_key_built_in h f Hb). unfold assign_field.
  apply String.eqb_neq in Hf. rewrite Hf, !owns_lookup. unfold own. simpl.
  destruct (h originalObject !! f) as [a|] eqn:Ho, (h targetObject !! f) as [b|] eqn:Ht;
    try discriminate; simpl in Hun; simpl.
  - rewrite Hun. destruct (h newObject !! f) as [v|] eqn:Hn; intros [= <- <-].
    + apply Hassign. reflexivity.
    + rewrite !field_remove.
      rewrite (decide_True (P := targetObject = targetObject /\ f = f)) by auto.
      split; [|reflexivity]. case_decide; [reflexivity|exact Hn].
  - destruct (h newObject !! f) as [v|] eqn:Hn; intros [= <- <-].
    + apply Hassign. reflexivity.
    + rewrite ?Hn, ?Ht. auto.
Qed.

Lemma merge_key_modified (h : heap) :
  built_in_tests originalObject newObject targetObject h ->
  unmodified (h originalObject !! f) (h targetObject !! f) = false ->
  merge_key originalObject newObject targetObject h f = (h, Returned).
Proof.
  intros Hb Hmod. rewrite (merge_key_built_in h f Hb), !owns_lookup. unfold own.
  destruct (h originalObject !! f) as [a|] eqn:Ho, (h targetObject !! f) as [b|] eqn:Ht;
    try discriminate; simpl in Hmod; simpl; [|reflexivity|reflexivity].
  rewrite Hmod. reflexivity.
Qed.

Lemma merge_unmodified (keys : list string) (h h' : heap) (c : completion) :
  built_in_tests originalObject newObject targetObject h ->
  ~ In "__proto__"%string keys -> In f keys ->
  unmodified (h originalObject !! f) (h targetObject !! f) = true ->
  merge originalObject newObject targetObject keys h = (h', c) ->
  h' targetObject !! f = h newObject !! f.
Proof.
  revert h. induction keys as [|k keys IH]; intros h Hb Hkeys Hin Hun H; [contradiction|].
  assert (k <> "__proto__"%string) as Hk by (intros ->; apply Hkeys; left; reflexivity).
  assert (~ In "__proto__"%string keys) as Hrest by (intros ?; apply Hkeys; right; assumption).
  apply merge_cons in H as (h1 & c1 & Hstep & Hgo).
  destruct (merge_key_keeps_tests h k h1 c1 Hb Hstep) as [Hb1 _].
  destruct (decide (k = f)) as [->|Hkf].
  - destruct (merge_key_unmodified h h1 c1 Hb Hk Hun Hstep) as [Hn Ht].
    destruct Hgo as [[_ H]|(_ & -> & _)]; [|exact Ht].
    apply (merge_settled keys h1 h' c _ H Hn Ht).
  - destruct Hin as [?|Hin]; [contradiction|].
    destruct (merge_key_returns h k Hb Hk) as (h2 & Hstep' & _).
    rewrite Hstep in Hstep'. injection Hstep' as <- ->.
    destruct Hgo as [[_ H]|(Hc & _)]; [|contradiction].
    rewrite <- (merge_key_frame h k h1 Returned newObject f Hstep) by (right; congruence).
    apply (IH h1 Hb1 Hrest Hin); [|exact H].
    rewrite !(merge_key_frame h k h1 Returned _ f Hstep) by (right; congruence).
    exact Hun.
Qed.

Lemma merge_modified (keys : list string) (h h' : heap) (c : completion) :
  built_in_tests originalObject newObject targetObject h ->
  unmodified (h originalObject !! f) (h targetObject !! f) = false ->
  merge originalObject newObject targetObject keys h = (h', c) ->
  h' targetObject !! f = h targetObject !! f.
Proof.
  revert h. induction keys as [|k keys IH]; intros h Hb Hmod H.
  - injection H as <- <-. reflexivity.
  - apply merge_cons in H as (h1 & c1 & Hstep & Hgo).
    destruct (merge_key_keeps_tests h k h1 c1 Hb Hstep) as [Hb1 _].
    assert (h1 originalObject !! f = h originalObject !! f /\
            h1 targetObject !! f = h targetObject !! f) as [Ho Ht].
    { destruct (decide (k = f)) as [->|Hkf].
      - rewrite (merge_key_modified h Hb Hmod) in Hstep. injection Hstep as <- <-. auto.
      - rewrite !(merge_key_frame h k h1 c1 _ f Hstep) by (right; congruence). auto. }
    destruct Hgo as [[_ H]|(_ & -> & _)]; [|exact Ht].
    rewrite <- Ht. apply (IH h1 Hb1); [|exact H]. rewrite Ho, Ht. exact Hmod.
Qed.

End MergeFacts.

(** C4, as stated, fails for some calls.  An object with a field of its
    own named [hasOwnProperty] makes the test on it throw: here the
    target is unmodified and the incoming object defines [x], and the
    target's [x] is not overwritten.  And a field named [__proto__] is
    not set on a target that lacks it: the assignment goes to the
    inherited setter, which ignores a number. *)
Lemma merge_field_not_for_every_call :
  (merge 1 2 3 ["x"%string] hidden_method_heap = (hidden_method_heap, Threw TypeError) /\
   unmodified (hidden_method_heap 1%positive !! "x"%string)
              (hidden_method_heap 3%positive !! "x"%string) = true /\
   hidden_method_heap 2%positive !! "x"%string = Some (VNum 2) /\
   hidden_method_heap 3%positive !! "x"%string = Some (VNum 1)) /\
  (merge 1 2 3 ["__proto__"%string] proto_heap = (proto_heap, Returned) /\
   proto_heap 1%positive !! "__proto__"%string = None /\
   proto_heap 3%positive !! "__proto__"%string = None /\
   proto_heap 2%positive !! "__proto__"%string = Some (VNum 5)).
Proof.
  split.
  - split; [reflexivity|]. split; [reflexivity|]. split; reflexivity.
  - split; [reflexivity|]. split; [reflexivity|]. split; reflexivity.
Qed.

(** C4, amended.  When none of the three objects has a field of its own
    named [hasOwnProperty] and [__proto__] is not among the field names,
    [merge(original, incoming, target, fieldNames)] returns, and for
    every field name [f] of [fieldNames]: if original and target both
    defined [f] with strictly equal values, the target's [f] holds the
    incoming value when the incoming object defines [f] and is deleted
    otherwise; if neither defined [f], the target's [f] is set from the
    incoming object when that defines it; in every other case (the
    values differ, or exactly one of original and target defines [f])
    the target's [f] is as it was.  The three objects need not be
    distinct. *)
Theorem merge_field (originalObject newObject targetObject : positive)
  (keys : list string) (h : heap) (f : string) :
  finds_built_in h originalObject -> finds_built_in h newObject ->
  finds_built_in h targetObject ->
  ~ In "__proto__"%string keys -> In f keys ->
  exists h', merge originalObject newObject targetObject keys h = (h', Returned) /\
  (forall a b, h originalObject !! f = Some a -> h targetObject !! f = Some b ->
               strict_eq a b = true ->
               (forall c, h newObject !! f = Some c -> h' targetObject !! f = Some c) /\
               (h newObject !! f = None -> h' targetObject !! f = None)) /\
  (h originalObject !! f = None -> h targetObject !! f = None ->
   (forall c, h newObject !! f = Some c -> h' targetObject !! f = Some c) /\
   (h newObject !! f = None -> h' targetObject !! f = None)) /\
  ((exists a b, h originalObject !! f = Some a /\ h targetObject !! f = Some b /\
                strict_eq a b = false) \/
   (is_Some (h originalObject !! f) /\ h targetObject !! f = None) \/
   (h originalObject !! f = None /\ is_Some (h targetObject !! f)) ->
   h' targetObject !! f = h targetObject !! f).
Proof.
  intros Ho Hn Ht Hkeys Hin.
  assert (built_in_tests originalObject newObject targetObject h) as Hb
      by (repeat split; assumption).
  destruct (merge_returns originalObject newObject targetObject keys h Hb Hkeys)
    as [h' H].
  exists h'. split; [exact H|]. split; [|split].
  - intros a b Ha Hb' Heq.
    assert (unmodified (h originalObject !! f) (h targetObject !! f) = true) as Hun
        by (rewrite Ha, Hb'; exact Heq).
    rewrite (merge_unmodified _ _ _ f keys h h' Returned Hb Hkeys Hin Hun H).
    split; [auto|]. intros ->. reflexivity.
  - intros Ha Hb'.
    assert (unmodified (h originalObject !! f) (h targetObject !! f) = true) as Hun
        by (rewrite Ha, Hb'; reflexivity).
    rewrite (merge_unmodified _ _ _ f keys h h' Returned Hb Hkeys Hin Hun H).
    split; [auto|]. intros ->. reflexivity.
  - intros Hcase. apply (merge_modified _ _ _ f keys h h' Returned Hb); [|exact H].
    destruct Hcase as [(a & b & -> & -> & Hne)|[([a Ha] & ->)|(-> & [b Hb'])]].
    + exact Hne.
    + rewrite Ha. reflexivity.
    + rewrite Hb'. reflexivity.
Qed.

Lemma merge_field_witness :
  In "x"%string ["x"%string] /\
  (exists untouched, merge 1 2 3 ["x"%string] scenario_heap = (untouched, Returned) /\
                     untouched 3%positive !! "x"%string = Some (VNum 2)) /\
  (exists edited, merge 1 2 4 ["x"%string] scenario_heap = (edited, Returned) /\
                  edited 4%positive !! "x"%string = Some (VNum 5)).
Proof.
  assert (In "x"%string ["x"%string]) as Hin by (simpl; auto).
  assert (~ In "__proto__"%string ["x"%string]) as Hkeys
      by (intros [H|[]]; discriminate).
  split; [exact Hin|]. split.
  - destruct (merge_field 1 2 3 ["x"%string] scenario_heap "x"
                eq_refl eq_refl eq_refl Hkeys Hin) as (h' & H & Hsame & _).
    exists h'. split; [exact H|].
    apply (proj1 (Hsame (VNum 1) (VNum 1) eq_refl eq_refl eq_refl) (VNum 2)).
    reflexivity.
  - destruct (merge_field 1 2 4 ["x"%string] scenario_heap "x"
                eq_refl eq_refl eq_refl Hkeys Hin) as (h' & H & _ & _ & Hother).
    exists h'. split; [exact H|]. rewrite Hother; [reflexivity|].
    left. exists (VNum 1), (VNum 5). repeat split; reflexivity.
Defined.

(** ** Array helpers *)

Lemma inArray_from_found (x : value) (pre : list value) (y : value)
  (post : list value) (k : Z) :
  Forall (fun z => strict_eq z x = false) pre -> strict_eq y x = true ->
  inArray_from x (pre ++ y :: post) k = k + Z.of_nat (length pre).
Proof.
  intros Hpre Hy. revert k. induction Hpre as [|z pre Hz _ IH]; intros k; simpl.
  - rewrite Hy. lia.
  - rewrite Hz, IH. lia.
Qed.

Lemma indexOf_cases (this : list value) (x : value) :
  (indexOf this x = -1 /\ Forall (fun z => strict_eq z x = false) this) \/
  (exists pre y post,
     this = pre ++ y :: post /\ Forall (fun z => strict_eq z x = false) pre /\
     strict_eq y x = true /\ indexOf this x = Z.of_nat (length pre)).
Proof.
  induction this as [|z this IH].
  - left. split; [reflexivity|constructor].
  - destruct (strict_eq z x) eqn:E.
    + right. exists [], z, this. repeat split; [constructor|exact E|].
      unfold indexOf. simpl. rewrite E. reflexivity.
    + destruct IH as [[Hidx Hall]|(pre & y & post & -> & Hpre & Hy & Hidx)].
      * left. split; [|constructor; assumption].
        change (inArray x (z :: this) = -1).
        apply inArray_absent. constructor; assumption.
      * right. exists (z :: pre), y, post. repeat split; [constructor; assumption|exact Hy|].
        unfold indexOf.
        apply (inArray_from_found x (z :: pre) y post 0); [constructor|]; assumption.
Qed.

Lemma contains_inArray_from (this : list value) (x : value) (k : Z) :
  0 <= k -> contains this x = negb (inArray_from x this k =? -1).
Proof.
  revert k. induction this as [|y this IH]; intros k Hk; simpl; [reflexivity|].
  rewrite (strict_eq_sym x y). destruct (strict_eq y x).
  - symmetry. apply negb_true_iff, Z.eqb_neq. lia.
  - apply IH. lia.
Qed.

Lemma contains_indexOf (this : list value) (x : value) :
  contains this x = negb (indexOf this x =? -1).
Proof. apply contains_inArray_from. lia. Qed.

(** X1.  [contains] answers as [indexOf] and [$.inArray] do: it is true
    exactly when some element is strictly equal to the one looked for,
    that is when [indexOf] is not -1; [arrayHasElement] is the same
    function; and [NaN] is never found, whatever the array holds. *)
Theorem contains_agrees_with_indexOf (this : list value) (element : value) :
  (contains this element = true <->
   exists y, In y this /\ strict_eq y element = true) /\
  contains this element = negb (indexOf this element =? -1) /\
  contains this element = negb (inArray element this =? -1) /\
  contains this element = arrayHasElement this element /\
  contains this VNaN = false.
Proof.
  split; [|split; [|split; [|split]]].
  - rewrite contains_indexOf. split.
    + intros H. apply negb_true_iff, Z.eqb_neq in H.
      destruct (indexOf_cases this element) as [[? _]|(pre & y & post & -> & _ & Hy & _)];
        [contradiction|].
      exists y. split; [apply in_elt|exact Hy].
    + intros (y & Hin & Hy). apply negb_true_iff, Z.eqb_neq. intros Habs.
      apply (inArray_absent element this) in Habs. rewrite Forall_forall in Habs.
      apply list_elem_of_In in Hin. rewrite (Habs y Hin) in Hy. discriminate.
  - apply contains_indexOf.
  - apply contains_indexOf.
  - induction this as [|y this IH]; simpl; [reflexivity|]. rewrite IH. reflexivity.
  - induction this as [|y this IH]; simpl; [reflexivity|]. exact IH.
Qed.

(** X2.  [isEmpty] holds of the empty string, [null] and [undefined],
    and of nothing else: not of 0, [false], [NaN] or an empty array. *)
Theorem isEmpty_exactly (v : value) :
  isEmpty v = true <-> v = VStr "" \/ v = VNull \/ v = VUndef.
Proof.
  unfold isEmpty. split.
  - destruct v; simpl; try discriminate; auto.
    destruct (String.eqb_spec s ""); simpl; [subst; auto|discriminate].
  - intros [-> | [-> | ->]]; reflexivity.
Qed.

Lemma remove_agree (this : list value) (element : value) :
  Array_remove this element = removeElement this element.
Proof.
  unfold Array_remove, removeElement.
  destruct (inArray_from_range element this 0) as [H|H]; fold (indexOf this element) in H.
  - rewrite H. reflexivity.
  - destruct (Z.gtb_spec (indexOf this element) (-1)); [|lia].
    destruct (Z.eqb_spec (indexOf this element) (-1)); [lia|reflexivity].
Qed.

(** X3.  [Array.prototype.remove] and [removeElement] do the same: an
    array in which no element is strictly equal to the given one is left
    as it is, and otherwise exactly the first such element is taken out,
    the others keeping their order. *)
Theorem remove_first_occurrence (this : list value) (element : value) :
  Array_remove this element = removeElement this element /\
  (Forall (fun z => strict_eq z element = false) this ->
   Array_remove this element = this) /\
  (forall pre y post,
     this = pre ++ y :: post ->
     Forall (fun z => strict_eq z element = false) pre ->
     strict_eq y element = true ->
     Array_remove this element = pre ++ post).
Proof.
  split; [apply remove_agree|]. split.
  - intros Habs. apply (inArray_absent element this) in Habs.
    unfold Array_remove, indexOf. fold (inArray element this). rewrite Habs. reflexivity.
  - intros pre y post -> Hpre Hy. unfold Array_remove, indexOf.
    rewrite (inArray_from_found element pre y post 0 Hpre Hy).
    destruct (Z.gtb_spec (0 + Z.of_nat (length pre)) (-1)); [|lia].
    unfold splice_one. rewrite Z.add_0_l, Nat2Z.id. apply delete_middle.
Qed.

Lemma remove_first_occurrence_witness :
  let this := [VNum 1; VNaN; VStr "a"; VNum 2; VStr "a"] in
  Forall (fun z => strict_eq z (VStr "a") = false) [VNum 1; VNaN] /\
  strict_eq (VStr "a") (VStr "a") = true /\
  Array_remove this (VStr "a") = [VNum 1; VNaN; VNum 2; VStr "a"] /\
  Forall (fun z => strict_eq z VNaN = false) this /\
  Array_remove this VNaN = this.
Proof.
  intros this.
  assert (Forall (fun z => strict_eq z (VStr "a") = false) [VNum 1; VNaN]) as Hpre
      by (repeat constructor).
  assert (strict_eq (VStr "a") (VStr "a") = true) as Hy by reflexivity.
  assert (Forall (fun z => strict_eq z VNaN = false) this) as Habs by (repeat constructor).
  split; [exact Hpre|]. split; [exact Hy|]. split.
  - exact (proj2 (proj2 (remove_first_occurrence this (VStr "a")))
             [VNum 1; VNaN] (VStr "a") [VNum 2; VStr "a"] eq_refl Hpre Hy).
  - split; [exact Habs|].
    exact (proj1 (proj2 (remove_first_occurrence this VNaN)) Habs).
Defined.

Lemma inArray_from_congr (a b : value) (l : list value) (k : Z) :
  strict_eq a b = true -> inArray_from a l k = inArray_from b l k.
Proof.
  intros Hab. revert k. induction l as [|z l IH]; intros k; simpl; [reflexivity|].
  rewrite (strict_eq_congr_r a b z Hab). rewrite IH. reflexivity.
Qed.

Lemma indexOf_at (l : list value) (b : value) (q : nat) :
  indexOf l b = Z.of_nat q ->
  (exists y, l !! q = Some y /\ strict_eq y b = true) /\
  (forall i z, (i < q)%nat -> l !! i = Some z -> strict_eq z b = false).
Proof.
  intros Hq.
  destruct (indexOf_cases l b) as [[Hidx _]|(pre & y & post & -> & Hpre & Hy & Hidx)];
    [lia|].
  assert (q = length pre) as -> by lia. split.
  - exists y. split; [|exact Hy]. rewrite lookup_app_r by lia.
    rewrite Nat.sub_diag. reflexivity.
  - intros i z Hi Hz. rewrite lookup_app_l in Hz by exact Hi.
    rewrite Forall_lookup in Hpre. apply (Hpre i z Hz).
Qed.

Lemma filter_at_In (callback : value -> nat -> bool) (k : nat) (l : list value) (b : value) :
  In b (filter_at callback k l) <->
  exists j, l !! j = Some b /\ callback b (k + j)%nat = true.
Proof.
  revert k. induction l as [|x l IH]; intros k; simpl.
  - split; [contradiction|]. intros (j & Hj & _). discriminate.
  - assert (In b (filter_at callback (S k) l) <->
            exists j, (x :: l) !! S j = Some b /\ callback b (k + S j)%nat = true) as Hrest.
    { rewrite IH. split; intros (j & Hj & Hc); exists j; (split; [exact Hj|]).
      - rewrite Nat.add_succ_r. exact Hc.
      - rewrite Nat.add_succ_r in Hc. exact Hc. }
    destruct (callback x k) eqn:Hx.
    + simpl. rewrite Hrest. split.
      * intros [->|(j & Hj)]; [|eauto]. exists 0%nat. rewrite Nat.add_0_r. auto.
      * intros ([|j] & Hj & Hc); [left; simpl in Hj; congruence|right; eauto].
    + rewrite Hrest. split.
      * intros (j & Hj). eauto.
      * intros ([|j] & Hj & Hc); [|eauto]. simpl in Hj. injection Hj as ->.
        rewrite Nat.add_0_r in Hc. congruence.
Qed.

Lemma filter_at_sublist (callback : value -> nat -> bool) (k : nat) (l : list value) :
  sublist (filter_at callback k l) l.
Proof.
  revert k. induction l as [|x l IH]; intros k; simpl; [constructor|].
  destruct (callback x k); [apply sublist_skip|apply sublist_cons]; apply IH.
Qed.

Lemma filter_unique_distinct (whole pre suf : list value) :
  whole = pre ++ suf ->
  all_distinct
    (filter_at (fun item pos => indexOf whole item =? Z.of_nat pos) (length pre) suf).
Proof.
  revert pre. induction suf as [|x suf IH]; intros pre Hw; simpl; [exact I|].
  assert (all_distinct
            (filter_at (fun item pos => indexOf whole item =? Z.of_nat pos)
               (S (length pre)) suf)) as Hrest.
  { specialize (IH (pre ++ [x])). rewrite length_app, Nat.add_1_r in IH.
    apply IH. rewrite Hw, <- app_assoc. reflexivity. }
  destruct (indexOf whole x =? Z.of_nat (length pre)); [|exact Hrest].
  split; [|exact Hrest].
  apply Forall_forall. intros b Hb. apply list_elem_of_In, filter_at_In in Hb
    as (j & Hj & Hc). apply Z.eqb_eq in Hc.
  destruct (indexOf_at whole b _ Hc) as [_ Hbefore].
  apply (Hbefore (length pre) x); [lia|].
  rewrite Hw, lookup_app_r by lia. rewrite Nat.sub_diag. reflexivity.
Qed.

Lemma all_distinct_before (pre : list value) (x : value) (post : list value) :
  all_distinct (pre ++ x :: post) -> Forall (fun z => strict_eq z x = false) pre.
Proof.
  induction pre as [|z pre IH]; simpl; [constructor|].
  intros [Hz Hrest]. constructor; [|apply IH, Hrest].
  rewrite Forall_forall in Hz. apply Hz, list_elem_of_In, in_elt.
Qed.

Lemma filter_unique_fixed (whole pre suf : list value) :
  whole = pre ++ suf -> all_distinct whole ->
  Forall (fun x => strict_eq x x = true) whole ->
  filter_at (fun item pos => indexOf whole item =? Z.of_nat pos) (length pre) suf = suf.
Proof.
  intros Hw Hd Hself. revert pre Hw.
  induction suf as [|x suf IH]; intros pre Hw; simpl; [reflexivity|].
  assert (indexOf whole x = Z.of_nat (length pre)) as ->.
  { unfold indexOf. rewrite Hw. rewrite inArray_from_found; [lia| |].
    - apply (all_distinct_before pre x suf). rewrite <- Hw. exact Hd.
    - rewrite Forall_forall in Hself. apply Hself. rewrite Hw.
      apply list_elem_of_In, in_elt. }
  rewrite Z.eqb_refl. f_equal.
  specialize (IH (pre ++ [x])). rewrite length_app, Nat.add_1_r in IH.
  apply IH. rewrite Hw, <- app_assoc. reflexivity.
Qed.

Lemma arrayFilterUnique_distinct_parts (array : list value) :
  all_distinct (arrayFilterUnique array) /\
  Forall (fun y => strict_eq y y = true) (arrayFilterUnique array).
Proof.
  unfold arrayFilterUnique.
  split; [apply (filter_unique_distinct array [] array eq_refl)|].
  apply Forall_forall. intros y Hy.
  apply list_elem_of_In, filter_at_In in Hy as (j & Hj & Hc).
  apply Z.eqb_eq in Hc. destruct (indexOf_at array y _ Hc) as [(y' & Hy' & Heq) _].
  simpl in Hy'. rewrite Hj in Hy'. injection Hy' as <-. exact Heq.
Qed.

(** X4.  The result of [arrayFilterUnique] is a subsequence of the array
    in which no two elements are strictly equal and none is [NaN]; every
    element of the array other than [NaN] has a strictly equal element in
    it. *)
Theorem arrayFilterUnique_distinct (array : list value) :
  sublist (arrayFilterUnique array) array /\
  all_distinct (arrayFilterUnique array) /\
  Forall (fun y => strict_eq y y = true) (arrayFilterUnique array) /\
  (forall x, In x array -> strict_eq x x = true ->
             exists y, In y (arrayFilterUnique array) /\ strict_eq y x = true).
Proof.
  split; [apply filter_at_sublist|].
  split; [apply arrayFilterUnique_distinct_parts|].
  split; [apply arrayFilterUnique_distinct_parts|].
  unfold arrayFilterUnique.
  - intros x Hin Hself.
    destruct (indexOf_cases array x) as [[_ Habs]|(pre & y & post & Hsplit & Hpre & Hy & Hidx)].
    + rewrite Forall_forall in Habs. apply list_elem_of_In in Hin.
      rewrite (Habs x Hin) in Hself. discriminate.
    + exists y. split; [|exact Hy]. apply filter_at_In.
      exists (length pre). split.
      * rewrite Hsplit, lookup_app_r by lia. rewrite Nat.sub_diag. reflexivity.
      * apply Z.eqb_eq. unfold indexOf in *.
        rewrite (inArray_from_congr y x array 0 Hy). exact Hidx.
Qed.

(** X5.  [arrayFilterUnique] is idempotent: filtering a filtered array
    changes nothing. *)
Theorem arrayFilterUnique_idempotent (array : list value) :
  arrayFilterUnique (arrayFilterUnique array) = arrayFilterUnique array.
Proof.
  destruct (arrayFilterUnique_distinct_parts array) as (Hd & Hself).
  apply (filter_unique_fixed (arrayFilterUnique array) [] (arrayFilterUnique array) eq_refl
           Hd Hself).
Qed.

Lemma hasOwnProperty_returns (element : value) (property : string) :
  element <> VUndef -> element <> VNull -> shadows element = false ->
  exists b, hasOwnProperty element property = Ok b.
Proof.
  destruct element; intros Hu Hn Hs; try congruence;
    unfold hasOwnProperty; try rewrite Hs; eauto.
Qed.

Lemma hasOwnProperty_throws (element : value) (property : string) :
  element = VUndef \/ element = VNull \/ shadows element = true ->
  hasOwnProperty element property = Throw TypeError.
Proof.
  intros [->|[->|Hs]]; [reflexivity|reflexivity|].
  apply hasOwnProperty_shadowed, Hs.
Qed.

Lemma arrayHasElementWithProperty_defined (array : list value) (property : string)
  (value0 : value) :
  Forall (fun e => e <> VUndef /\ e <> VNull /\ shadows e = false) array ->
  exists b, arrayHasElementWithProperty array property value0 = Ok b /\
            (b = true <-> Exists (has_property_value property value0) array).
Proof.
  induction 1 as [|e array (Hu & Hn & Hs) _ (b & IH & Hb)]; simpl.
  - exists false. split; [reflexivity|]. split; [discriminate|]. intros H. inversion H.
  - destruct (hasOwnProperty_returns e property Hu Hn Hs) as [o Ho].
    destruct (get_prop_returns e property Hu Hn) as [x Hx]. rewrite Ho.
    assert (has_property_value property value0 e <-> o = true /\ strict_eq x value0 = true)
      as He.
    { unfold has_property_value. rewrite Ho, Hx. split.
      - intros ([= ->] & x' & [= <-] & Hv). auto.
      - intros [-> Hv]. eauto. }
    destruct o.
    + rewrite Hx. destruct (strict_eq x value0) eqn:Hv.
      * exists true. split; [reflexivity|]. split; [|reflexivity].
        intros _. left. apply He. auto.
      * exists b. split; [exact IH|]. rewrite Hb. split; [intros; right; assumption|].
        intros H. inversion H as [? ? Hhead|]; subst; [|assumption].
        apply He in Hhead as [_ ?]. discriminate.
    + exists b. split; [exact IH|]. rewrite Hb. split; [intros; right; assumption|].
      intros H. inversion H as [? ? Hhead|]; subst; [|assumption].
      apply He in Hhead as [? _]. discriminate.
Qed.

(** X6.  On an array whose elements are neither [undefined] nor [null]
    and have no field of their own named [hasOwnProperty],
    [arrayHasElementWithProperty] returns, and returns [true] exactly
    when some element has the property for its own with a strictly equal
    value.  An element that is [undefined] or [null], or that has a field
    named [hasOwnProperty], makes the call throw when it is reached
    before such an element. *)
Theorem arrayHasElementWithProperty_found (array : list value) (property : string)
  (value0 : value) :
  (Forall (fun e => e <> VUndef /\ e <> VNull /\ shadows e = false) array ->
   exists b, arrayHasElementWithProperty array property value0 = Ok b /\
             (b = true <-> Exists (has_property_value property value0) array)) /\
  (forall pre e post,
     array = pre ++ e :: post ->
     Forall (fun e' => e' <> VUndef /\ e' <> VNull /\ shadows e' = false) pre ->
     ~ Exists (has_property_value property value0) pre ->
     e = VUndef \/ e = VNull \/ shadows e = true ->
     arrayHasElementWithProperty array property value0 = Throw TypeError).
Proof.
  split; [apply arrayHasElementWithProperty_defined|].
  intros pre e post -> Hpre Hno He.
  induction Hpre as [|e' pre (Hu & Hn & Hs) Hpre IH]; simpl.
  - rewrite (hasOwnProperty_throws e property He). reflexivity.
  - assert (~ Exists (has_property_value property value0) pre) as Hno'
        by (intros H; apply Hno; right; exact H).
    assert (~ has_property_value property value0 e') as Hhead
        by (intros H; apply Hno; left; exact H).
    destruct (hasOwnProperty_returns e' property Hu Hn Hs) as [o Ho].
    destruct (get_prop_returns e' property Hu Hn) as [x Hx]. rewrite Ho.
    destruct o; [|apply IH, Hno'].
    rewrite Hx. destruct (strict_eq x value0) eqn:Hv; [|apply IH, Hno'].
    exfalso. apply Hhead. split; [exact Ho|]. eauto.
Qed.

Lemma arrayHasElementWithProperty_found_witness :
  let disks := [VObj 1 "Disk" [("guid", VStr "a")]; VObj 2 "Disk" [("guid", VStr "b")]] in
  let odd := VObj 3 "Object" [("hasOwnProperty", VNum 1); ("guid", VStr "c")] in
  Forall (fun e => e <> VUndef /\ e <> VNull /\ shadows e = false) disks /\
  (exists b, arrayHasElementWithProperty disks "guid" (VStr "b") = Ok b /\
             (b = true <-> Exists (has_property_value "guid" (VStr "b")) disks)) /\
  arrayHasElementWithProperty (disks ++ odd :: []) "guid" (VStr "c") = Throw TypeError.
Proof.
  intros disks odd.
  assert (Forall (fun e => e <> VUndef /\ e <> VNull /\ shadows e = false) disks) as Hdef
      by (repeat constructor; discriminate).
  split; [exact Hdef|]. split.
  - exact (proj1 (arrayHasElementWithProperty_found disks "guid" (VStr "b")) Hdef).
  - apply (proj2 (arrayHasElementWithProperty_found (disks ++ [odd]) "guid" (VStr "c"))
             disks odd [] eq_refl Hdef); [|right; right; reflexivity].
    intros H. apply Exists_exists in H as (e & Hin & _ & x & Hx & Hv).
    apply elem_of_cons in Hin as [->|Hin];
      [vm_compute in Hx; injection Hx as <-; discriminate|].
    apply elem_of_cons in Hin as [->|Hin];
      [vm_compute in Hx; injection Hx as <-; discriminate|].
    inversion Hin.
Defined.

(** ** The disk view model *)

Lemma generic_call_missing {A : Type} (member : string) (body : result A) :
  member ∉ Disk.generic_members -> Disk.generic_call member body = Throw TypeError.
Proof.
  intros H. unfold Disk.generic_call. rewrite bool_decide_eq_false_2 by exact H.
  reflexivity.
Qed.

Lemma trySet_is_no_member : "trySet"%string ∉ Disk.generic_members.
Proof.
  assert (bool_decide ("trySet"%string ∈ Disk.generic_members) = false) as E
      by reflexivity.
  apply bool_decide_eq_false in E. exact E.
Qed.

Lemma try_set_throws (get : Disk.t -> value) (set : value -> Disk.t -> Disk.t)
  (data : value) (key : string) (self : Disk.t) :
  Disk.try_set get set data key self = (self, Throw TypeError).
Proof.
  unfold Disk.try_set. rewrite (generic_call_missing _ _ trySet_is_no_member).
  reflexivity.
Qed.

(** X7.  [fillData] throws a [TypeError] at its first statement, whatever
    the response, and writes no observable: the [generic] it is given is
    the instance that [ovs/generic] returns, and [trySet] is no member of
    it. *)
Theorem fillData_throws (now : Z) (data : value) (self : Disk.t) :
  ("trySet"%string ∉ Disk.generic_members) /\
  Disk.fillData now data self = (self, Throw TypeError).
Proof.
  split; [exact trySet_is_no_member|].
  unfold Disk.fillData. unfold Disk.and_then at 1.
  rewrite (try_set_throws Disk.path Disk.set_path data "path" self).
  reflexivity.
Qed.

Lemma tiles_app (a b c : Z) (l1 l2 : list Disk.Partition) :
  tiles a b l1 -> tiles b c l2 -> tiles a c (l1 ++ l2).
Proof.
  revert a. induction l1 as [|e l1 IH]; intros a; simpl.
  - intros ->. auto.
  - intros [He H1] H2. split; [exact He|]. apply IH; assumption.
Qed.

Section PartitionFacts.

Variable to_double : Z -> Z.
Hypothesis to_double_exact : forall z, 0 <= z <= 2 ^ 53 -> to_double z = z.

Variable diskSize : Z.
Hypothesis diskSize_exact : diskSize <= 2 ^ 53.

Lemma fits_inside (from : Z) (partitions : list Disk.Partition) :
  Forall (fun p => 0 <= Disk.psize p) partitions ->
  fits from diskSize partitions -> from <= diskSize.
Proof.
  intros Hsizes. revert from. induction Hsizes as [|p rest Hp _ IH]; intros from; simpl.
  - auto.
  - intros [Hfrom Hrest]. specialize (IH _ Hrest). lia.
Qed.

(** The gap before a partition, as the callback computes it. *)
Lemma gap_before (previousPartition : option Disk.Partition) (p : Disk.Partition)
  (rest : list Disk.Partition) :
  not_negative previousPartition -> 0 <= Disk.psize p ->
  Forall (fun q => 0 <= Disk.psize q) rest ->
  end_of_previous previousPartition <= Disk.offset p ->
  fits (Disk.offset p + Disk.psize p) diskSize rest ->
  Disk.each_partition to_double previousPartition (p :: rest) =
  (if end_of_previous previousPartition <? Disk.offset p
   then [Disk.raw (end_of_previous previousPartition) (Disk.offset p - end_of_previous previousPartition)]
   else []) ++ p :: Disk.each_partition to_double (Some p) rest.
Proof.
  intros Hprev Hp Hsizes Hfrom Hrest.
  pose proof (fits_inside _ rest Hsizes Hrest) as Hend.
  cbn [Disk.each_partition]. f_equal.
  destruct previousPartition as [q|]; simpl in *.
  - destruct Hprev as [Hq Hs].
    rewrite (to_double_exact (Disk.offset q + Disk.psize q)) by lia.
    rewrite (to_double_exact (Disk.offset p - Disk.offset q)) by lia.
    rewrite (to_double_exact (Disk.offset p - Disk.offset q - Disk.psize q)) by lia.
    destruct (Disk.offset q + Disk.psize q <? Disk.offset p); [|reflexivity].
    do 2 f_equal. lia.
  - destruct (Z.eqb_spec (Disk.offset p) 0) as [H0|H0];
      destruct (Z.ltb_spec 0 (Disk.offset p)); simpl; try lia; try reflexivity.
    rewrite Z.sub_0_r. reflexivity.
Qed.

Lemma each_partition_tiles (previousPartition : option Disk.Partition)
  (partitions : list Disk.Partition) :
  not_negative previousPartition -> 0 <= end_of_previous previousPartition ->
  Forall (fun p => 0 <= Disk.psize p) partitions ->
  fits (end_of_previous previousPartition) diskSize partitions ->
  exists stop,
    tiles (end_of_previous previousPartition) stop
      (Disk.each_partition to_double previousPartition partitions) /\
    0 <= stop <= diskSize /\
    stop = match last partitions with
           | Some p => Disk.offset p + Disk.psize p
           | None => end_of_previous previousPartition
           end.
Proof.
  intros Hprev Hfrom Hsizes. revert previousPartition Hprev Hfrom.
  induction Hsizes as [|p rest Hp Hsizes IH]; intros previousPartition Hprev Hfrom Hfits.
  - exists (end_of_previous previousPartition). simpl in *. auto with lia.
  - destruct Hfits as [Hstart Hrest].
    destruct (IH (Some p)) as (stop & Htiles & Hstop & Hlast);
      [simpl; lia|simpl; lia|exact Hrest|].
    exists stop. split; [|split; [exact Hstop|]].
    + rewrite (gap_before previousPartition p rest Hprev Hp Hsizes Hstart Hrest).
      apply (tiles_app (end_of_previous previousPartition) (Disk.offset p)).
      * destruct (Z.ltb_spec (end_of_previous previousPartition) (Disk.offset p)); simpl; lia.
      * simpl. auto.
    + rewrite Hlast. destruct rest as [|q rest]; [reflexivity|].
      rewrite last_cons_cons.
      destruct (last (q :: rest)) eqn:E; [reflexivity|].
      apply last_None in E. discriminate.
Qed.

Lemma each_partition_sublist (previousPartition : option Disk.Partition)
  (partitions : list Disk.Partition) :
  sublist partitions (Disk.each_partition to_double previousPartition partitions).
Proof.
  revert previousPartition. induction partitions as [|p rest IH];
    intros previousPartition; simpl; [constructor|].
  apply sublist_inserts_l. apply sublist_skip, IH.
Qed.

Lemma each_partition_entries (previousPartition : option Disk.Partition)
  (partitions : list Disk.Partition) :
  not_negative previousPartition -> 0 <= end_of_previous previousPartition ->
  Forall (fun p => 0 <= Disk.psize p) partitions ->
  fits (end_of_previous previousPartition) diskSize partitions ->
  Forall (fun e => In e partitions \/ exists o s, e = Disk.raw o s /\ 0 < s)
    (Disk.each_partition to_double previousPartition partitions).
Proof.
  intros Hprev Hfrom Hsizes. revert previousPartition Hprev Hfrom.
  induction Hsizes as [|p rest Hp Hsizes IH]; intros previousPartition Hprev Hfrom Hfits;
    [constructor|].
  destruct Hfits as [Hstart Hrest].
  rewrite (gap_before previousPartition p rest Hprev Hp Hsizes Hstart Hrest).
  apply Forall_app. split.
  - destruct (Z.ltb_spec (end_of_previous previousPartition) (Disk.offset p));
      constructor; [|constructor]. right. eexists _, _. split; [reflexivity|lia].
  - constructor; [left; left; reflexivity|].
    eapply Forall_impl; [apply (IH (Some p)); [simpl; lia|simpl; lia|exact Hrest]|].
    intros e [Hin|Hraw]; [left; right; exact Hin|right; exact Hraw].
Qed.

(** The gap after the last partition, as [fullPartitions] computes it. *)
Lemma gap_after (q : Disk.Partition) :
  0 <= Disk.offset q -> 0 <= Disk.psize q -> Disk.offset q + Disk.psize q <= diskSize ->
  to_double (Disk.offset q + Disk.psize q) = Disk.offset q + Disk.psize q /\
  to_double (to_double (diskSize - Disk.offset q) - Disk.psize q) =
  diskSize - (Disk.offset q + Disk.psize q).
Proof.
  intros Hq Hs Hend.
  rewrite (to_double_exact (Disk.offset q + Disk.psize q)) by lia.
  rewrite (to_double_exact (diskSize - Disk.offset q)) by lia.
  rewrite (to_double_exact (diskSize - Disk.offset q - Disk.psize q)) by lia.
  split; [reflexivity|lia].
Qed.

Lemma fits_last (from : Z) (partitions : list Disk.Partition) (q : Disk.Partition) :
  0 <= from -> Forall (fun p => 0 <= Disk.psize p) partitions ->
  fits from diskSize partitions -> last partitions = Some q ->
  0 <= Disk.offset q /\ 0 <= Disk.psize q.
Proof.
  intros Hfrom Hsizes. revert from Hfrom.
  induction Hsizes as [|p rest Hp Hsizes IH]; intros from Hfrom Hfits Hq; [discriminate|].
  destruct Hfits as [Hstart Hrest]. destruct rest as [|p' rest].
  - injection Hq as <-. lia.
  - rewrite last_cons_cons in Hq. apply (IH (Disk.offset p + Disk.psize p)); [lia| |exact Hq].
    exact Hrest.
Qed.

End PartitionFacts.

(** X9.  For partitions of sizes that are not negative, which lie in
    order inside a disk of at most 2^53 bytes without overlapping, the
    sums and differences that [fullPartitions] computes are exact, and
    the list it builds covers the disk from 0 to its size end to end,
    each entry starting where the one before ends; the partitions are in
    it in their order, and every other entry is a RAW entry of positive
    size filling a gap (for a disk without partitions, one RAW entry of
    the size of the disk). *)
Theorem fullPartitions_covers_disk (to_double : Z -> Z) (diskSize : Z)
  (partitions : list Disk.Partition) :
  (forall z, 0 <= z <= 2 ^ 53 -> to_double z = z) ->
  diskSize <= 2 ^ 53 ->
  Forall (fun p => 0 <= Disk.psize p) partitions ->
  fits 0 diskSize partitions ->
  tiles 0 diskSize (Disk.fullPartitions to_double diskSize partitions) /\
  sublist partitions (Disk.fullPartitions to_double diskSize partitions) /\
  (partitions = [] ->
   Disk.fullPartitions to_double diskSize partitions = [Disk.raw 0 diskSize]) /\
  (partitions <> [] ->
   Forall (fun e => In e partitions \/ exists o s, e = Disk.raw o s /\ 0 < s)
     (Disk.fullPartitions to_double diskSize partitions)).
Proof.
  intros Hexact Hdisk Hsizes Hfits. unfold Disk.fullPartitions.
  destruct partitions as [|p rest].
  { simpl. split; [split; [reflexivity|lia]|].
    split; [apply sublist_nil_l|]. split; [reflexivity|congruence]. }
  destruct (Z.gtb_spec (Z.of_nat (length (p :: rest))) 0) as [_|Hlen]; [|simpl in Hlen; lia].
  destruct (each_partition_tiles to_double Hexact diskSize Hdisk None (p :: rest)
              I (Z.le_refl 0) Hsizes Hfits) as (stop & Htiles & Hstop & Hlast).
  pose proof (each_partition_sublist to_double None (p :: rest)) as Hsub.
  pose proof (each_partition_entries to_double Hexact diskSize Hdisk None (p :: rest)
                I (Z.le_refl 0) Hsizes Hfits) as Hentries.
  cbv zeta. destruct (last (p :: rest)) as [q|] eqn:Hq.
  - subst stop.
    destruct (fits_last diskSize 0 (p :: rest) q (Z.le_refl 0) Hsizes Hfits Hq)
      as [Hoff Hsize].
    destruct (gap_after to_double Hexact diskSize Hdisk q Hoff Hsize (proj2 Hstop))
      as [-> ->].
    destruct (Z.ltb_spec (Disk.offset q + Disk.psize q) diskSize) as [Hlt|Hge].
    + split; [|split; [|split; [discriminate|]]].
      * apply (tiles_app 0 (Disk.offset q + Disk.psize q)); [exact Htiles|].
        simpl. lia.
      * apply sublist_inserts_r, Hsub.
      * intros _. apply Forall_app. split; [exact Hentries|].
        constructor; [|constructor]. right. eexists _, _. split; [reflexivity|lia].
    + split; [|split; [|split; [discriminate|]]].
      * replace diskSize with (Disk.offset q + Disk.psize q) by lia. exact Htiles.
      * exact Hsub.
      * intros _. exact Hentries.
  - apply last_None in Hq. discriminate.
Qed.

Lemma fullPartitions_covers_disk_witness :
  let p1 := {| Disk.guid := VStr "a"; Disk.pstate := VStr "OK";
               Disk.offset := 10; Disk.psize := 20 |} in
  let p2 := {| Disk.guid := VStr "b"; Disk.pstate := VStr "OK";
               Disk.offset := 50; Disk.psize := 30 |} in
  let exact := fun z : Z => z in
  (forall z, 0 <= z <= 2 ^ 53 -> exact z = z) /\ 100 <= 2 ^ 53 /\
  Forall (fun p => 0 <= Disk.psize p) [p1; p2] /\
  fits 0 100 [p1; p2] /\
  tiles 0 100 (Disk.fullPartitions exact 100 [p1; p2]) /\
  Disk.fullPartitions exact 100 [p1; p2] =
    [Disk.raw 0 10; p1; Disk.raw 30 20; p2; Disk.raw 80 20].
Proof.
  intros p1 p2 exact.
  assert (forall z, 0 <= z <= 2 ^ 53 -> exact z = z) as Hexact by reflexivity.
  assert (100 <= 2 ^ 53) as Hdisk by lia.
  assert (Forall (fun p => 0 <= Disk.psize p) [p1; p2]) as Hsizes
      by (repeat constructor; simpl; lia).
  assert (fits 0 100 [p1; p2]) as Hfits by (simpl; lia).
  split; [exact Hexact|]. split; [exact Hdisk|]. split; [exact Hsizes|].
  split; [exact Hfits|].
  split; [|reflexivity].
  exact (proj1 (fullPartitions_covers_disk exact 100 [p1; p2] Hexact Hdisk Hsizes Hfits)).
Defined.

(** ** String helpers *)

Lemma string_length_append (a b : string) :
  String.length (a +:+ b) = (String.length a + String.length b)%nat.
Proof. induction a as [|c a IH]; simpl; [reflexivity|]. rewrite IH. reflexivity. Qed.

Lemma string_append_assoc (a b c : string) : (a +:+ b) +:+ c = a +:+ (b +:+ c).
Proof.
  induction a as [|x a IH]; [reflexivity|].
  change (String x ((a +:+ b) +:+ c) = String x (a +:+ (b +:+ c))). f_equal. exact IH.
Qed.

Lemma string_append_nil_r (a : string) : a +:+ "" = a.
Proof.
  induction a as [|x a IH]; [reflexivity|].
  change (String x (a +:+ "") = String x a). f_equal. exact IH.
Qed.

Lemma string_length_nonempty (s : string) : s <> ""%string -> (0 < String.length s)%nat.
Proof. destruct s; simpl; [congruence|lia]. Qed.

(** X10.  With a non-empty [character], [padRight] returns the value
    followed by as many copies of [character] as it takes to reach
    [length], and no more: none when the value is long enough already,
    and otherwise the result without its last copy is shorter than
    [length]. *)
Theorem padRight_pads (fuel : nat) (value0 character : string) (length0 : Z) :
  character <> ""%string ->
  (Z.to_nat (length0 - Z.of_nat (String.length value0)) <= fuel)%nat ->
  exists n : nat,
    padRight fuel value0 character length0 =
      Some (value0 +:+ replicate_string n character) /\
    length0 <= Z.of_nat (String.length (value0 +:+ replicate_string n character)) /\
    (length0 <= Z.of_nat (String.length value0) -> n = 0%nat) /\
    (n <> 0%nat ->
     Z.of_nat (String.length (value0 +:+ replicate_string n character)) <
     length0 + Z.of_nat (String.length character)).
Proof.
  intros Hc. pose proof (string_length_nonempty character Hc) as Hpos.
  revert value0. induction fuel as [|fuel IH]; intros value0 Hfuel; simpl.
  - destruct (Z.ltb_spec (Z.of_nat (String.length value0)) length0) as [Hlt|Hge]; [lia|].
    exists 0%nat. simpl. rewrite string_append_nil_r. repeat split; [lia|congruence].
  - destruct (Z.ltb_spec (Z.of_nat (String.length value0)) length0) as [Hlt|Hge].
    + destruct (IH (value0 +:+ character)) as (n & Hrun & Hlen & Hzero & Hmin).
      { rewrite string_length_append. lia. }
      rewrite string_append_assoc in Hrun, Hlen, Hmin.
      exists (S n). simpl. split; [exact Hrun|]. split; [exact Hlen|].
      split; [lia|]. intros _. destruct n as [|n].
      * simpl. rewrite string_append_nil_r, string_length_append. lia.
      * apply Hmin. discriminate.
    + exists 0%nat. simpl. rewrite string_append_nil_r. repeat split; [lia|congruence].
Qed.

Lemma padRight_pads_witness :
  "0"%string <> ""%string /\
  (Z.to_nat (5 - Z.of_nat (String.length "42")) <= 3)%nat /\
  exists n : nat,
    padRight 3 "42" "0" 5 = Some ("42" +:+ replicate_string n "0") /\
    5 <= Z.of_nat (String.length ("42" +:+ replicate_string n "0")).
Proof.
  assert ("0"%string <> ""%string) as Hc by discriminate.
  assert (Z.to_nat (5 - Z.of_nat (String.length "42")) <= 3)%nat as Hfuel by (simpl; lia).
  split; [exact Hc|]. split; [exact Hfuel|].
  destruct (padRight_pads 3 "42" "0" 5 Hc Hfuel) as (n & Hrun & Hlen & _).
  exists n. split; [exact Hrun|exact Hlen].
Defined.

(** X11.  With an empty [character] and a value shorter than [length],
    the loop of [padRight] never ends: no number of turns gives a
    result. *)
Theorem padRight_empty_character_loops (fuel : nat) (value0 : string) (length0 : Z) :
  Z.of_nat (String.length value0) < length0 ->
  padRight fuel value0 "" length0 = None.
Proof.
  intros Hlt. induction fuel as [|fuel IH]; simpl;
    destruct (Z.ltb_spec (Z.of_nat (String.length value0)) length0); try lia;
    [reflexivity|].
  rewrite string_append_nil_r. exact IH.
Qed.

Lemma padRight_empty_character_loops_witness :
  Z.of_nat (String.length "ab") < 3 /\ padRight 1000 "ab" "" 3 = None.
Proof.
  assert (Z.of_nat (String.length "ab") < 3) as H by (simpl; lia).
  split; [exact H|]. exact (padRight_empty_character_loops 1000 "ab" 3 H).
Defined.

(** ** More on the ordered searches *)

Section SearchWindows.

Variable coerced_lt : value -> value -> bool.



End SearchWindows.

Section SearchOrder.

Variable coerced_lt : value -> value -> bool.




(** X13.  On a sorted sequence in which the value occurs, the index that
    [brSearch] returns lies between the one [brSearchFirst] returns and
    the one [brSearchLast] returns. *)
Theorem brSearch_between_first_and_last (this ks : list value) (prop : option string)
  (value0 : value) :
  projected prop this ks -> non_decreasing ks ->
  (exists j, occurs value0 ks j) ->
  exists f i l : Z,
    brSearchFirst coerced_lt this value0 prop None None = Ok f /\
    brSearch coerced_lt this value0 prop = Ok i /\
    brSearchLast coerced_lt this value0 prop None None = Ok l /\
    0 <= f <= i /\ i <= l < Z.of_nat (length this).
Proof.
  intros Hp Hs Hex. pose proof (Forall2_length _ _ _ Hp) as Hlen.
  destruct (occurs_lowest _ _ Hex) as (f & Hf & Hmin).
  destruct (occurs_highest _ _ Hex) as (l & Hl & Hmax).
  destruct Hex as [j Hj].
  destruct (brSearch_complete coerced_lt this ks value0 prop j Hp Hs Hj) as (r & Hr & Hne).
  destruct (brSearch_sound coerced_lt _ _ _ _ Hr) as [?|Hhit]; [contradiction|].
  pose proof Hhit as (i & x & k & -> & _).
  pose proof (hit_occurs this ks value0 prop i Hp Hhit) as Hi.
  assert (l < length ks)%nat
    by (destruct Hl as (kl & Hkl & _); apply lookup_lt_Some in Hkl; exact Hkl).
  exists (Z.of_nat f), (Z.of_nat i), (Z.of_nat l).
  split; [|split; [exact Hr|split]].
  - apply (brSearchFirst_finds coerced_lt this ks); auto.
    + intros i' Hi' Ho. apply Hmin in Ho. lia.
    + unfold start_of. simpl. apply Hmin in Hf. lia.
    + unfold end_of. simpl. apply Hmax in Hf. lia.
  - apply (brSearchLast_finds coerced_lt this ks); auto.
    + intros i' Hi' Ho. apply Hmax in Ho. lia.
    + unfold start_of. simpl. lia.
    + unfold end_of. simpl. lia.
  - apply Hmin in Hi as Hfi. apply Hmax in Hi as Hil. lia.
Qed.


(** X15.  The bounds are not checked against the array: looking for
    [undefined] between two equal bounds that lie outside the array
    returns that bound as an index, although no element is there. *)
Theorem search_outside_the_array (this : list value) (prop : option string) (i : Z) :
  (i < 0 \/ Z.of_nat (length this) < i ->
   brSearchFirst coerced_lt this VUndef prop (Some i) (Some i) = Ok i) /\
  (i < -1 \/ Z.of_nat (length this) <= i ->
   brSearchLast coerced_lt this VUndef prop (Some i) (Some i) = Ok i).
Proof.
  split; intros Hi.
  - rewrite brSearchFirst_body. simpl.
    destruct (Z.ltb_spec i i); [lia|].
    replace ((i - i) / 2) with 0 by (rewrite Z.sub_diag; reflexivity).
    rewrite Z.add_0_r.
    rewrite !getItemUnwrap_outside by lia. reflexivity.
  - rewrite brSearchLast_body. simpl.
    destruct (Z.ltb_spec i i); [lia|].
    replace ((i - i) / 2) with 0 by (rewrite Z.sub_diag; reflexivity).
    rewrite Z.add_0_r.
    rewrite !getItemUnwrap_outside by lia. reflexivity.
Qed.

End SearchOrder.


Lemma brSearch_between_first_and_last_witness :
  let this := [VNum 1; VNum 2; VNum 2; VNum 2; VNum 2; VNum 3] in
  projected None this this /\ non_decreasing this /\
  exists f i l : Z,
    brSearchFirst never_lt this (VNum 2) None None None = Ok f /\
    brSearch never_lt this (VNum 2) None = Ok i /\
    brSearchLast never_lt this (VNum 2) None None None = Ok l /\
    0 <= f <= i /\ i <= l < 6.
Proof.
  intros this.
  assert (projected None this this) as Hp by (repeat constructor).
  assert (non_decreasing this) as Hs.
  { intros [|[|[|[|[|[|i]]]]]] [|[|[|[|[|[|j]]]]]] a b Hij Ha Hb; simpl in *;
      try lia; try discriminate; injection Ha as <-; injection Hb as <-; simpl; lia. }
  split; [exact Hp|]. split; [exact Hs|].
  apply (brSearch_between_first_and_last never_lt this this None (VNum 2) Hp Hs).
  exists 2%nat, (VNum 2). split; reflexivity.
Defined.


Lemma search_outside_the_array_witness :
  brSearchFirst never_lt [VNum 1; VNum 2] VUndef None (Some 5) (Some 5) = Ok 5 /\
  brSearchLast never_lt [VNum 1; VNum 2] VUndef None (Some 2) (Some 2) = Ok 2.
Proof.
  split.
  - apply (proj1 (search_outside_the_array never_lt [VNum 1; VNum 2] None 5)). simpl. lia.
  - apply (proj2 (search_outside_the_array never_lt [VNum 1; VNum 2] None 2)). simpl. lia.
Defined.

(** ** Cross-fill: synchronisation *)

Lemma inArray_present (x : value) (arr : list value) :
  inArray x arr <> -1 <-> exists y, In y arr /\ strict_eq y x = true.
Proof.
  rewrite inArray_absent. split.
  - intros H. induction arr as [|y arr IH].
    + destruct H. constructor.
    + destruct (strict_eq y x) eqn:E.
      * exists y. split; [left; reflexivity|exact E].
      * destruct IH as (z & Hz & Hzx).
        -- intros Hall. apply H. constructor; assumption.
        -- exists z. split; [right; exact Hz|exact Hzx].
  - intros (y & Hy & Hyx) Hall.
    rewrite List.Forall_forall in Hall. apply Hall in Hy. simpl in Hy. congruence.
Qed.

Section CrossFillSync.

Variable elem : Type.
Variable key_of : elem -> value.
Variable world : Type.
Variable objectLoader : value -> world -> option elem * world.
Variable newKeyList : list value.

(** The loader answers every key of [newKeyList] with an object that
    carries this key. *)
Hypothesis loader_faithful :
  forall k, In k newKeyList -> forall w0,
    exists o w1, objectLoader k w0 = (Some o, w1) /\ strict_eq (key_of o) k = true.

Lemma load_all_faithful (keys : list value) (w : world) :
  (forall k, In k keys -> In k newKeyList) ->
  Forall2 (fun o k => strict_eq (key_of o) k = true)
    (fst (load_all elem world objectLoader keys w)) keys.
Proof.
  revert w. induction keys as [|k rest IH]; intros w Hin; simpl; [constructor|].
  destruct (loader_faithful k (Hin k (or_introl eq_refl)) w) as (o & w1 & Hload & Hkey).
  rewrite Hload.
  specialize (IH w1 (fun k' Hk' => Hin k' (or_intror Hk'))).
  destruct (load_all elem world objectLoader rest w1) as [added w2]. simpl in *.
  constructor; assumption.
Qed.

Lemma new_key_found (w : world) (k : value) :
  In k newKeyList -> inArray k newKeyList <> -1.
Proof.
  intros Hk. apply inArray_present. exists k. split; [exact Hk|].
  destruct (loader_faithful k Hk w) as (o & _ & _ & Hkey).
  apply (strict_eq_self_r _ _ Hkey).
Qed.

Lemma carried_key_found (w : world) (k : value) (o : elem) :
  In k newKeyList -> strict_eq (key_of o) k = true ->
  inArray (key_of o) newKeyList <> -1.
Proof.
  intros Hk Hkey Habs. apply (new_key_found w k Hk).
  apply (inArray_absent_congr (key_of o) k _ Hkey Habs).
Qed.

(** What the call leaves in the target, together with the state the
    loader ends in. *)
Lemma crossFiller_result (objectList : list elem) (clean : value) (w : world) :
  crossFiller elem key_of world objectLoader newKeyList objectList clean w =
  let (added, w') :=
    load_all elem world objectLoader
      (List.filter (fun k => inArray k (map key_of objectList) =? -1) newKeyList) w in
  ((if strict_eq clean (VBool false) then objectList
    else List.filter (fun o => negb (pruned elem key_of newKeyList o)) objectList) ++ added,
   w').
Proof.
  unfold crossFiller. rewrite load_missing_load_all.
  destruct (load_all elem world objectLoader _ w) as [added w'].
  unfold strict_neq. destruct (strict_eq clean (VBool false)); simpl; [reflexivity|].
  rewrite remove_stale_filter. reflexivity.
Qed.

Lemma crossFiller_has_new_keys (objectList : list elem) (clean : value) (w : world)
  (k : value) :
  In k newKeyList ->
  exists o, In o (fst (crossFiller elem key_of world objectLoader newKeyList objectList
                         clean w)) /\
            strict_eq (key_of o) k = true.
Proof.
  intros Hk. rewrite crossFiller_result.
  pose proof (load_all_faithful
                (List.filter (fun k => inArray k (map key_of objectList) =? -1) newKeyList) w)
    as Hadded.
  destruct (load_all elem world objectLoader _ w) as [added w']. simpl in *.
  destruct (inArray k (map key_of objectList) =? -1) eqn:E.
  - assert (In k (List.filter (fun k => inArray k (map key_of objectList) =? -1) newKeyList))
      as Hin by (apply List.filter_In; split; assumption).
    specialize (Hadded ltac:(intros k' Hk'; apply List.filter_In in Hk'; tauto)).
    apply list_elem_of_In, list_elem_of_lookup in Hin as [i Hi].
    destruct (Forall2_lookup_r _ _ _ _ _ Hadded Hi) as (o & Ho & Hkey).
    exists o. split; [|exact Hkey].
    apply in_or_app. right. apply list_elem_of_In. eapply list_elem_of_lookup_2, Ho.
  - apply Z.eqb_neq, inArray_present in E as (y & Hy & Hyk).
    apply in_map_iff in Hy as (o & <- & Ho).
    exists o. split; [|exact Hyk].
    apply in_or_app. left. destruct (strict_eq clean (VBool false)); [exact Ho|].
    apply List.filter_In. split; [exact Ho|].
    unfold pruned. apply negb_true_iff, andb_false_iff. left.
    apply Z.eqb_neq. apply (carried_key_found w k o Hk Hyk).
Qed.

Lemma crossFiller_only_new_keys (objectList : list elem) (clean : value) (w : world)
  (o : elem) :
  strict_eq clean (VBool false) = false ->
  In o (fst (crossFiller elem key_of world objectLoader newKeyList objectList clean w)) ->
  pruned elem key_of newKeyList o = false.
Proof.
  intros Hclean. rewrite crossFiller_result, Hclean.
  pose proof (load_all_faithful
                (List.filter (fun k => inArray k (map key_of objectList) =? -1) newKeyList) w)
    as Hadded.
  destruct (load_all elem world objectLoader _ w) as [added w']. simpl in *.
  intros Ho. apply in_app_or in Ho as [Ho|Ho].
  - apply List.filter_In in Ho as [_ Ho]. apply negb_true_iff in Ho. exact Ho.
  - specialize (Hadded ltac:(intros k' Hk'; apply List.filter_In in Hk'; tauto)).
    apply list_elem_of_In, list_elem_of_lookup in Ho as [i Hi].
    destruct (Forall2_lookup_l _ _ _ _ _ Hadded Hi) as (k & Hk & Hkey).
    apply list_elem_of_lookup_2, list_elem_of_In, List.filter_In in Hk as [Hk _].
    unfold pruned. apply andb_false_iff. left.
    apply Z.eqb_neq. apply (carried_key_found w k o Hk Hkey).
Qed.

End CrossFillSync.

Lemma filter_none {A : Type} (f : A -> bool) (l : list A) :
  (forall x, In x l -> f x = false) -> List.filter f l = [].
Proof.
  induction l as [|x l IH]; intros H; simpl; [reflexivity|].
  rewrite (H x (or_introl eq_refl)). apply IH. intros y Hy. apply H. right. exact Hy.
Qed.

Lemma filter_all {A : Type} (f : A -> bool) (l : list A) :
  (forall x, In x l -> f x = true) -> List.filter f l = l.
Proof.
  induction l as [|x l IH]; intros H; simpl; [reflexivity|].
  rewrite (H x (or_introl eq_refl)). f_equal. apply IH. intros y Hy. apply H. right. exact Hy.
Qed.

(** X16.  With a loader that answers every key of [newKeyList] with an
    object carrying that key, and pruning not switched off, [crossFiller]
    brings the target in line with [newKeyList]: every key of the list is
    carried by an object of the target, and every object of the target
    carries a key of the list, apart from objects whose key is [NaN],
    which the pruning pass cannot find and leaves in place. *)
Theorem crossFiller_synchronises (elem : Type) (key_of : elem -> value)
  (world : Type) (objectLoader : value -> world -> option elem * world)
  (newKeyList : list value) (objectList : list elem) (clean : value) (w : world) :
  (forall k, In k newKeyList -> forall w0,
     exists o w1, objectLoader k w0 = (Some o, w1) /\ strict_eq (key_of o) k = true) ->
  strict_eq clean (VBool false) = false ->
  (forall k, In k newKeyList ->
     exists o, In o (fst (crossFiller elem key_of world objectLoader newKeyList objectList
                            clean w)) /\
               strict_eq (key_of o) k = true) /\
  (forall o, In o (fst (crossFiller elem key_of world objectLoader newKeyList objectList
                          clean w)) ->
     key_of o = VNaN \/
     exists k, In k newKeyList /\ strict_eq (key_of o) k = true).
Proof.
  intros Hloader Hclean. split.
  - intros k Hk.
    apply (crossFiller_has_new_keys elem key_of world objectLoader newKeyList Hloader
             objectList clean w k Hk).
  - intros o Ho.
    pose proof (crossFiller_only_new_keys elem key_of world objectLoader newKeyList Hloader
                  objectList clean w o Hclean Ho) as Hkept.
    unfold pruned in Hkept. apply andb_false_iff in Hkept as [Hfound|Hnan].
    + right. apply Z.eqb_neq, inArray_present in Hfound as (k & Hk & Hkey).
      exists k. split; [exact Hk|]. rewrite strict_eq_sym. exact Hkey.
    + left. destruct (key_of o); try reflexivity;
        rewrite strict_eq_refl in Hnan by discriminate; discriminate.
Qed.

(** X17.  With such a loader a second [crossFiller] call with the same
    key list finds nothing to do: it leaves the target as the first call
    left it and does not call the loader, whether or not pruning is
    switched off. *)
Theorem crossFiller_second_call_is_idle (elem : Type) (key_of : elem -> value)
  (world : Type) (objectLoader : value -> world -> option elem * world)
  (newKeyList : list value) (objectList : list elem) (clean : value) (w : world) :
  (forall k, In k newKeyList -> forall w0,
     exists o w1, objectLoader k w0 = (Some o, w1) /\ strict_eq (key_of o) k = true) ->
  forall (target : list elem) (w1 : world),
    crossFiller elem key_of world objectLoader newKeyList objectList clean w = (target, w1) ->
    crossFiller elem key_of world objectLoader newKeyList target clean w1 = (target, w1) /\
    fst (crossFiller elem key_of (world * list value)
           (recording elem world objectLoader) newKeyList target clean (w1, []))
      = target /\
    snd (snd (crossFiller elem key_of (world * list value)
                (recording elem world objectLoader) newKeyList target clean (w1, [])))
      = [].
Proof.
  intros Hloader target w1 Hfirst.
  assert (List.filter (fun k => inArray k (map key_of target) =? -1) newKeyList = [])
    as Hnone.
  { apply filter_none. intros k Hk. apply Z.eqb_neq, inArray_present.
    destruct (crossFiller_has_new_keys elem key_of world objectLoader newKeyList Hloader
                objectList clean w k Hk) as (o & Ho & Hkey).
    rewrite Hfirst in Ho. exists (key_of o). split; [apply in_map; exact Ho|exact Hkey]. }
  assert ((if strict_eq clean (VBool false) then target
           else List.filter (fun o => negb (pruned elem key_of newKeyList o)) target) = target)
    as Hkept.
  { destruct (strict_eq clean (VBool false)) eqn:Hclean; [reflexivity|].
    apply filter_all. intros o Ho. apply negb_true_iff.
    apply (crossFiller_only_new_keys elem key_of world objectLoader newKeyList Hloader
             objectList clean w o Hclean).
    rewrite Hfirst. exact Ho. }
  assert (forall (W : Type) (loader : value -> W -> option elem * W) (s : W),
             crossFiller elem key_of W loader newKeyList target clean s = (target, s))
    as Hidle.
  { intros W loader s. unfold crossFiller. rewrite load_missing_load_all, Hnone. simpl.
    rewrite app_nil_r. unfold strict_neq.
    destruct (strict_eq clean (VBool false)); simpl; [reflexivity|].
    rewrite <- (app_nil_r target) at 2. rewrite remove_stale_filter, app_nil_r.
    f_equal. exact Hkept. }
  split; [apply Hidle|]. rewrite Hidle. split; reflexivity.
Qed.

Lemma id_loader_faithful (keys : list value) :
  Forall (fun k => exists n, k = VNum n) keys ->
  forall k, In k keys -> forall w0 : unit,
    exists o w1, id_loader k w0 = (Some o, w1) /\ strict_eq (id_of o) k = true.
Proof.
  intros Hkeys k Hk w0. rewrite List.Forall_forall in Hkeys.
  destruct (Hkeys k Hk) as [n ->].
  exists (record_of_id n), w0. split; [reflexivity|].
  unfold id_of, record_of_id. simpl. apply Z.eqb_refl.
Qed.

Lemma crossFiller_synchronises_witness :
  let newKeyList := [VNum 2; VNum 3; VNum 4] in
  let objectList := [record_of_id 1; record_of_id 2; record_of_id 3] in
  strict_eq VUndef (VBool false) = false /\
  (forall k, In k newKeyList ->
     exists o, In o (fst (crossFiller value id_of unit id_loader newKeyList objectList
                            VUndef tt)) /\
               strict_eq (id_of o) k = true) /\
  (forall o, In o (fst (crossFiller value id_of unit id_loader newKeyList objectList
                          VUndef tt)) ->
     id_of o = VNaN \/ exists k, In k newKeyList /\ strict_eq (id_of o) k = true).
Proof.
  intros newKeyList objectList. split; [reflexivity|].
  apply (crossFiller_synchronises value id_of unit id_loader newKeyList objectList VUndef tt).
  - apply id_loader_faithful. repeat constructor; eexists; reflexivity.
  - reflexivity.
Defined.

Lemma crossFiller_second_call_is_idle_witness :
  let newKeyList := [VNum 2; VNum 3; VNum 4] in
  let objectList := [record_of_id 1; record_of_id 2; record_of_id 3] in
  let target := [record_of_id 2; record_of_id 3; record_of_id 4] in
  crossFiller value id_of unit id_loader newKeyList objectList VUndef tt = (target, tt) /\
  crossFiller value id_of unit id_loader newKeyList target VUndef tt = (target, tt) /\
  snd (snd (crossFiller value id_of (unit * list value)
              (recording value unit id_loader) newKeyList target VUndef (tt, []))) = [].
Proof.
  intros newKeyList objectList target.
  assert (crossFiller value id_of unit id_loader newKeyList objectList VUndef tt
          = (target, tt)) as Hfirst by reflexivity.
  split; [exact Hfirst|].
  destruct (crossFiller_second_call_is_idle value id_of unit id_loader newKeyList
              objectList VUndef tt
              (id_loader_faithful newKeyList
                 ltac:(repeat constructor; eexists; reflexivity))
              target tt Hfirst) as (Hsecond & _ & Hlog).
  split; [exact Hsecond|exact Hlog].
Defined.

(** ** Selective merge: what is left alone *)

Section MergeFrame.

Variables originalObject newObject targetObject : positive.

(** After a turn, a field of the target or of the incoming object holds
    what one of the two held before. *)
Lemma merge_key_choice (h : heap) (k : string) (h' : heap) (c : completion) (g : string) :
  merge_key originalObject newObject targetObject h k = (h', c) ->
  (h' targetObject !! g = h targetObject !! g \/
   h' targetObject !! g = h newObject !! g) /\
  (h' newObject !! g = h newObject !! g \/ h' newObject !! g = h targetObject !! g).
Proof.
  intros H.
  destruct (merge_key_shape originalObject newObject targetObject h k h' c H)
    as [->|[(v & Hv & ->)|(Hnone & _ & ->)]]; [auto| |].
  - rewrite !field_assign.
    destruct (decide (targetObject = targetObject /\ k = g)) as [[_ <-]|Hg].
    + split; [right; auto|]. case_decide; auto.
    + split; [auto|]. rewrite decide_False by (intros [_ ?]; apply Hg; auto). auto.
  - rewrite !field_remove.
    destruct (decide (targetObject = targetObject /\ k = g)) as [[_ <-]|Hg].
    + split; [right; auto|]. case_decide; auto.
    + split; [auto|]. rewrite decide_False by (intros [_ ?]; apply Hg; auto). auto.
Qed.

Lemma merge_choice (keys : list string) (h h' : heap) (c : completion) (g : string) :
  merge originalObject newObject targetObject keys h = (h', c) ->
  (h' targetObject !! g = h targetObject !! g \/
   h' targetObject !! g = h newObject !! g) /\
  (h' newObject !! g = h newObject !! g \/ h' newObject !! g = h targetObject !! g).
Proof.
  revert h. induction keys as [|k keys IH]; intros h H.
  - injection H as <- <-. auto.
  - apply (merge_cons originalObject newObject targetObject) in H
      as (h1 & c1 & Hk & Hrest).
    pose proof (merge_key_choice h k h1 c1 g Hk) as [Ht Hn].
    destruct Hrest as [[_ H]|(_ & -> & _)]; [|auto].
    destruct (IH h1 H) as [Ht' Hn'].
    split; [destruct Ht' as [->| ->]|destruct Hn' as [->| ->]];
      first [destruct Ht as [->| ->]; auto; fail|destruct Hn as [->| ->]; auto].
Qed.

(** A settled field is settled in every heap that agrees on it. *)
Lemma settled_same (h h' : heap) (k : string) :
  (forall r, h' r !! k = h r !! k) ->
  settled originalObject newObject targetObject h k ->
  settled originalObject newObject targetObject h' k.
Proof. unfold settled. intros Hsame. rewrite !Hsame. auto. Qed.

(** The turn on a settled field returns and writes what is there. *)
Lemma merge_key_idle (h : heap) (k : string) :
  built_in_tests originalObject newObject targetObject h ->
  settled originalObject newObject targetObject h k ->
  exists h', merge_key originalObject newObject targetObject h k = (h', Returned) /\
             forall r, h' r = h r.
Proof.
  intros Hb Hs. rewrite (merge_key_built_in _ _ _ h k Hb). unfold settled in Hs.
  unfold assign_field. rewrite !owns_lookup. unfold own.
  destruct (h originalObject !! k) as [a|] eqn:Ho, (h targetObject !! k) as [b|] eqn:Ht;
    simpl in *; try (eexists; split; [reflexivity|reflexivity]).
  - destruct (strict_eq a b); [|eexists; split; [reflexivity|reflexivity]].
    destruct (Hs eq_refl) as [->|(_ & ? & _)]; [|discriminate].
    rewrite andb_false_r. simpl. eexists. split; [reflexivity|].
    intros r. unfold assign, update. destruct (Pos.eqb_spec r targetObject) as [->|_];
      [|reflexivity].
    apply insert_id, Ht.
  - destruct (Hs eq_refl) as [->|(-> & _ & v & -> & Hv)].
    + eexists. split; [reflexivity|reflexivity].
    + simpl. rewrite Hv. eexists. split; [reflexivity|reflexivity].
Qed.

(** After a turn that returned, its field is settled. *)
Lemma merge_key_settles (h : heap) (k : string) (h' : heap) :
  built_in_tests originalObject newObject targetObject h ->
  merge_key originalObject newObject targetObject h k = (h', Returned) ->
  settled originalObject newObject targetObject h' k.
Proof.
  intros Hb. rewrite (merge_key_built_in _ _ _ h k Hb).
  assert (forall v, h newObject !! k = Some v ->
                    settled originalObject newObject targetObject
                      (assign h targetObject k v) k) as Hassign.
  { intros v Hv _. left. rewrite !field_assign.
    rewrite (decide_True (P := targetObject = targetObject /\ k = k)) by auto.
    case_decide; [reflexivity|exact Hv]. }
  assert (h newObject !! k = None ->
          settled originalObject newObject targetObject (remove h targetObject k) k)
    as Hremove.
  { intros Hv _. left. rewrite !field_remove.
    rewrite (decide_True (P := targetObject = targetObject /\ k = k)) by auto.
    case_decide; [reflexivity|exact Hv]. }
  unfold assign_field. rewrite !owns_lookup. unfold own.
  destruct (h originalObject !! k) as [a|] eqn:Ho, (h targetObject !! k) as [b|] eqn:Ht;
    simpl.
  - destruct (strict_eq a b) eqn:Hab.
    + rewrite andb_false_r.
      destruct (h newObject !! k) as [v|] eqn:Hv; intros [= <-]; auto.
    + intros [= <-]. unfold settled. rewrite Ho, Ht. simpl. congruence.
  - intros [= <-]. unfold settled. rewrite Ho, Ht. discriminate.
  - intros [= <-]. unfold settled. rewrite Ho, Ht. discriminate.
  - rewrite andb_true_r.
    destruct (h newObject !! k) as [v|] eqn:Hv; simpl.
    + destruct (String.eqb_spec k "__proto__") as [->|Hk].
      * destruct (typeof_object v) eqn:Hobj; [discriminate|].
        intros [= <-]. intros _. right. eauto.
      * intros [= <-]. auto.
    + intros [= <-]. intros _. left. congruence.
Qed.

(** With the built-in tests a run does not throw. *)
Lemma merge_does_not_throw (keys : list string) (h h' : heap) (c : completion) :
  built_in_tests originalObject newObject targetObject h ->
  merge originalObject newObject targetObject keys h = (h', c) ->
  c = Returned \/ c = Reprototyped.
Proof.
  revert h. induction keys as [|k keys IH]; intros h Hb H.
  - injection H as _ <-. left. reflexivity.
  - apply (merge_cons originalObject newObject targetObject) in H
      as (h1 & c1 & Hk & Hrest).
    destruct (merge_key_keeps_tests _ _ _ h k h1 c1 Hb Hk) as [Hb1 Hc1].
    destruct Hrest as [[_ H]|(_ & _ & ->)]; [apply (IH h1 Hb1 H)|exact Hc1].
Qed.

(** After a run that returned, every listed field is settled. *)
Lemma merge_settles (keys : list string) (h h' : heap) :
  built_in_tests originalObject newObject targetObject h ->
  merge originalObject newObject targetObject keys h = (h', Returned) ->
  built_in_tests originalObject newObject targetObject h' /\
  forall k, In k keys -> settled originalObject newObject targetObject h' k.
Proof.
  revert h. induction keys as [|k keys IH]; intros h Hb H.
  - injection H as <-. split; [exact Hb|]. intros k [].
  - apply (merge_cons originalObject newObject targetObject) in H
      as (h1 & c1 & Hk & [[-> H]|(Hc & _ & <-)]); [|contradiction].
    destruct (merge_key_keeps_tests _ _ _ h k h1 Returned Hb Hk) as [Hb1 _].
    destruct (IH h1 Hb1 H) as [Hb' Hall]. split; [exact Hb'|].
    intros j [<-|Hj]; [|apply Hall, Hj].
    destruct (in_dec string_dec k keys) as [Hin|Hout]; [apply Hall, Hin|].
    apply (settled_same h1 h' k).
    + intros r. apply (merge_frame _ _ _ keys h1 h' Returned r k H). right. exact Hout.
    + apply (merge_key_settles h k h1 Hb Hk).
Qed.

(** A run over settled fields returns and changes nothing. *)
Lemma merge_idle (keys : list string) (h : heap) :
  built_in_tests originalObject newObject targetObject h ->
  (forall k, In k keys -> settled originalObject newObject targetObject h k) ->
  exists h', merge originalObject newObject targetObject keys h = (h', Returned) /\
             forall r, h' r = h r.
Proof.
  revert h. induction keys as [|k keys IH]; intros h Hb Hall; [eexists; split; reflexivity|].
  destruct (merge_key_idle h k Hb (Hall k (or_introl eq_refl))) as (h1 & Hk & Hsame).
  destruct (merge_key_keeps_tests _ _ _ h k h1 Returned Hb Hk) as [Hb1 _].
  destruct (IH h1 Hb1) as (h' & H & Hsame').
  - intros j Hj. apply (settled_same h h1 j); [|apply Hall; right; exact Hj].
    intros r. rewrite Hsame. reflexivity.
  - exists h'. split; [simpl; rewrite Hk; exact H|].
    intros r. rewrite Hsame', Hsame. reflexivity.
Qed.

(** With a hidden method among the three, a run writes nothing. *)
Lemma merge_hidden (keys : list string) (h h' : heap) (c : completion) :
  ~ built_in_tests originalObject newObject targetObject h ->
  merge originalObject newObject targetObject keys h = (h', c) ->
  h' = h /\ c <> Reprototyped.
Proof.
  intros Hhid. revert h' c. induction keys as [|k keys IH]; intros h' c H.
  - injection H as <- <-. split; [reflexivity|discriminate].
  - apply (merge_cons originalObject newObject targetObject) in H
      as (h1 & c1 & Hk & Hrest).
    destruct (merge_key_hidden _ _ _ h k h1 c1 Hhid Hk) as [-> Hc1].
    destruct Hrest as [[_ H]|(_ & -> & ->)]; [apply IH, H|auto].
Qed.

Lemma built_in_tests_dec (h : heap) :
  built_in_tests originalObject newObject targetObject h \/
  ~ built_in_tests originalObject newObject targetObject h.
Proof.
  unfold built_in_tests, finds_built_in.
  destruct (h originalObject !! "hasOwnProperty"%string);
    [right; intros (? & _); discriminate|].
  destruct (h newObject !! "hasOwnProperty"%string);
    [right; intros (_ & ? & _); discriminate|].
  destruct (h targetObject !! "hasOwnProperty"%string);
    [right; intros (_ & _ & ?); discriminate|].
  left. auto.
Qed.

End MergeFrame.

(** X18.  [merge] writes to the target only, and there only to the
    fields named in [keys]: every field of every other object, and every
    field of the target whose name is not in [keys], is in the heap the
    run leaves as it was before, however the run ends.  In particular the
    original and the incoming object are not changed, unless one of them
    is the target itself.  A listed field of the target holds what it
    held, or what the incoming object held. *)
Theorem merge_touches_only_listed_fields (originalObject newObject targetObject : positive)
  (keys : list string) (h : heap) :
  (forall r, r <> targetObject ->
     fst (merge originalObject newObject targetObject keys h) r = h r) /\
  (forall g, ~ In g keys ->
     fst (merge originalObject newObject targetObject keys h) targetObject !! g =
     h targetObject !! g) /\
  (forall g, In g keys ->
     fst (merge originalObject newObject targetObject keys h) targetObject !! g =
       h targetObject !! g \/
     fst (merge originalObject newObject targetObject keys h) targetObject !! g =
       h newObject !! g).
Proof.
  destruct (merge originalObject newObject targetObject keys h) as [h' c] eqn:H. simpl.
  split; [|split].
  - intros r Hr. apply map_eq. intros g.
    apply (merge_frame _ _ _ keys h h' c r g H). left. exact Hr.
  - intros g Hg. apply (merge_frame _ _ _ keys h h' c _ g H). right. exact Hg.
  - intros g _. apply (merge_choice _ _ _ keys h h' c g H).
Qed.

Lemma merge_touches_only_listed_fields_witness :
  let h := assign scenario_heap 3 "y" (VNum 7) in
  fst (merge 1 2 3 ["x"%string] h) 1%positive = h 1%positive /\
  fst (merge 1 2 3 ["x"%string] h) 3%positive !! "y"%string = Some (VNum 7).
Proof.
  intros h.
  destruct (merge_touches_only_listed_fields 1 2 3 ["x"%string] h) as (Hobj & Hfield & _).
  split.
  - apply Hobj. discriminate.
  - rewrite Hfield; [reflexivity|]. intros [H|[]]. discriminate.
Defined.

(** X19.  Calling [merge] a second time with the same arguments changes
    nothing and ends as the first call did, be it with a throw: after
    the first call every listed field of the target either holds the
    incoming value or differs from the original, so the second call has
    nothing to write.  This holds also when the three objects are not
    distinct and when [keys] repeats a name.  A first call that replaced
    the prototype of the target is not followed, and left out. *)
Theorem merge_twice (originalObject newObject targetObject : positive)
  (keys : list string) (h h1 : heap) (c : completion) :
  merge originalObject newObject targetObject keys h = (h1, c) ->
  c <> Reprototyped ->
  exists h2, merge originalObject newObject targetObject keys h1 = (h2, c) /\
             forall r, h2 r = h1 r.
Proof.
  intros H Hc.
  destruct (built_in_tests_dec originalObject newObject targetObject h) as [Hb|Hhid].
  - destruct (merge_does_not_throw _ _ _ keys h h1 c Hb H) as [->| ->];
      [|contradiction].
    destruct (merge_settles _ _ _ keys h h1 Hb H) as [Hb1 Hall].
    apply (merge_idle _ _ _ keys h1 Hb1 Hall).
  - destruct (merge_hidden _ _ _ keys h h1 c Hhid H) as [-> _].
    exists h. split; [exact H|reflexivity].
Qed.

Lemma merge_twice_witness :
  let first := fst (merge 1 2 3 ["x"%string; "x"%string] scenario_heap) in
  merge 1 2 3 ["x"%string; "x"%string] scenario_heap = (first, Returned) /\
  first 3%positive !! "x"%string = Some (VNum 2) /\
  exists second, merge 1 2 3 ["x"%string; "x"%string] first = (second, Returned) /\
                 forall r, second r = first r.
Proof.
  intros first.
  assert (merge 1 2 3 ["x"%string; "x"%string] scenario_heap = (first, Returned)) as H
      by reflexivity.
  assert (Returned <> Reprototyped) as Hc by discriminate.
  split; [exact H|]. split; [reflexivity|].
  exact (merge_twice 1 2 3 ["x"%string; "x"%string] scenario_heap first Returned H Hc).
Defined.

(** ** Array equality: both directions *)

Lemma equals_body_Forall2 (nested : value -> value -> bool) (items1 : list value)
  (id : positive) (items2 : list value) :
  equals_body nested items1 (VArr id items2) = true <->
  Forall2 (fun x y => (if instanceof_Array x && instanceof_Array y
                       then nested x y else strict_eq x y) = true) items1 items2.
Proof.
  rewrite Forall2_same_length_lookup.
  destruct (Nat.eq_dec (length items1) (length items2)) as [Hlen|Hlen].
  - unfold equals_body. cbn [falsy].
    change (get_prop (VArr id items2) "length")
      with (@Ok value (VNum (Z.of_nat (length items2)))).
    unfold strict_neq at 1. cbn [strict_eq].
    replace (Z.of_nat (length items1) =? Z.of_nat (length items2)) with true
      by (symmetry; apply Z.eqb_eq; lia).
    cbn [negb]. rewrite each_index_true. split.
    + intros H. split; [exact Hlen|]. intros i x y Hx Hy.
      specialize (H i x Hx). cbn [Nat.add] in H.
      rewrite (get_prop_index id items2 i y Hy) in H. unfold strict_neq in H.
      destruct (instanceof_Array x && instanceof_Array y).
      * destruct (nested x y); [reflexivity|discriminate].
      * destruct (strict_eq x y); [reflexivity|discriminate].
    + intros [_ H] i x Hx. cbn [Nat.add]. unfold strict_neq.
      destruct (lookup_lt_is_Some_2 items2 i) as [y Hy];
        [rewrite <- Hlen; apply (lookup_lt_Some _ _ _ Hx)|].
      rewrite (get_prop_index id items2 i y Hy). specialize (H i x y Hx Hy).
      destruct (instanceof_Array x && instanceof_Array y).
      * rewrite H. reflexivity.
      * rewrite H. reflexivity.
  - rewrite (equals_body_lengths nested id items1 items2 Hlen). split; [discriminate|].
    intros [Hlen' _]. contradiction.
Qed.

Lemma elements_flip (A B : list value) :
  Forall (fun v => forall w, instanceof_Array v = true -> instanceof_Array w = true ->
                             arrayEquals v w = arrayEquals w v) A ->
  Forall2 (fun x y => (if instanceof_Array x && instanceof_Array y
                       then arrayEquals x y else strict_eq x y) = true) A B <->
  Forall2 (fun y x => (if instanceof_Array y && instanceof_Array x
                       then arrayEquals y x else strict_eq y x) = true) B A.
Proof.
  intros IH.
  assert (forall x y, In x A ->
            (if instanceof_Array x && instanceof_Array y
             then arrayEquals x y else strict_eq x y) =
            (if instanceof_Array y && instanceof_Array x
             then arrayEquals y x else strict_eq y x)) as Hflip.
  { intros x y Hx. rewrite List.Forall_forall in IH.
    rewrite (andb_comm (instanceof_Array y)), (strict_eq_sym y x).
    destruct (instanceof_Array x) eqn:Ex, (instanceof_Array y) eqn:Ey; simpl;
      try reflexivity.
    apply (IH x Hx y Ex Ey). }
  clear IH. split.
  - intros H. induction H as [|x y A' B' Hxy HF IHF]; constructor.
    + rewrite <- Hflip by (left; reflexivity). exact Hxy.
    + apply IHF. intros x' y' Hx'. apply Hflip. right. exact Hx'.
  - intros H. induction H as [|y x B' A' Hxy HF IHF]; constructor.
    + rewrite Hflip by (left; reflexivity). exact Hxy.
    + apply IHF. intros x' y' Hx'. apply Hflip. right. exact Hx'.
Qed.

Lemma arrayEquals_sym (v w : value) :
  instanceof_Array v = true -> instanceof_Array w = true ->
  arrayEquals v w = arrayEquals w v.
Proof.
  revert w. induction v as [| | | | | |i A IH|] using value_nested_ind;
    intros w Hv Hw; try discriminate.
  destruct w as [| | | | | |j B|]; try discriminate.
  apply Bool.eq_iff_eq_true. cbn [arrayEquals]. rewrite !equals_body_Forall2.
  apply elements_flip, IH.
Qed.

(** X20.  Between arrays the comparison does not depend on the side:
    [a.equals(b)] is [b.equals(a)], and likewise for [arrayEquals], at
    every depth of nesting. *)
Theorem Array_equals_symmetric (idA idB : positive) (A B : list value) :
  Array_equals A (VArr idB B) = Array_equals B (VArr idA A) /\
  arrayEquals (VArr idA A) (VArr idB B) = arrayEquals (VArr idB B) (VArr idA A).
Proof.
  assert (arrayEquals (VArr idA A) (VArr idB B) = arrayEquals (VArr idB B) (VArr idA A))
    as H by (apply arrayEquals_sym; reflexivity).
  split; [exact H|exact H].
Qed.

Lemma substring_one (s : string) (i : nat) (c : Ascii.ascii) :
  list_ascii_of_string s !! i = Some c -> String.substring i 1 s = String c EmptyString.
Proof.
  revert i. induction s as [|a s IH]; intros i Hi; [discriminate|].
  destruct i as [|i]; simpl in *.
  - injection Hi as ->. destruct s; reflexivity.
  - apply IH, Hi.
Qed.

Lemma length_list_ascii (s : string) : length (list_ascii_of_string s) = String.length s.
Proof. induction s as [|a s IH]; simpl; [reflexivity|]. rewrite IH. reflexivity. Qed.

(** X21.  [equals] does not ask whether [other] is an array: it reads
    [other.length] and [other[i]] only, so the array of the characters of
    a non-empty string equals that string (and never the empty string,
    which is falsy). *)
Theorem Array_equals_string (s : string) :
  Array_equals (characters s) (VStr s) = negb (String.eqb s "").
Proof.
  unfold Array_equals, equals_body. cbn [falsy].
  destruct (String.eqb s "") eqn:Hs; [reflexivity|]. cbn [negb].
  change (get_prop (VStr s) "length") with (@Ok value (VNum (Z.of_nat (String.length s)))).
  unfold strict_neq at 1. cbn [strict_eq]. unfold characters at 1.
  rewrite length_map, length_list_ascii, Z.eqb_refl. cbn [negb].
  apply each_index_true. intros j x Hx. cbn [Nat.add].
  unfold characters in Hx. rewrite list_lookup_fmap in Hx.
  destruct (list_ascii_of_string s !! j) as [c|] eqn:Hc; [|discriminate].
  injection Hx as <-.
  assert (j < String.length s)%nat as Hj
      by (rewrite <- length_list_ascii; apply (lookup_lt_Some _ _ _ Hc)).
  cbn [get_prop]. rewrite pretty_nat_ne_length, (index_of_key_pretty j _ Hj).
  rewrite (substring_one s j c Hc). cbn [instanceof_Array andb].
  unfold strict_neq. cbn [strict_eq]. rewrite String.eqb_refl. reflexivity.
Qed.

(** ** Record equality: both directions *)

Lemma assoc_NoDup (p : string) (x : value) (props : list (string * value)) :
  NoDup (map fst props) -> In (p, x) props -> assoc p props = Some x.
Proof.
  induction props as [|[q y] props IH]; intros Hnd Hin; [destruct Hin|].
  simpl in *. apply NoDup_cons in Hnd as [Hq Hnd].
  destruct Hin as [Heq|Hin].
  - injection Heq as -> ->. rewrite String.eqb_refl. reflexivity.
  - destruct (String.eqb_spec q p) as [->|_]; [|apply IH; assumption].
    exfalso. apply Hq. apply list_elem_of_In, in_map_iff. exists (p, x). split; auto.
Qed.

Lemma index_of_key_listed (p : string) (n i : nat) :
  index_of_key p n = Some i -> p = pretty i /\ (i < n)%nat.
Proof.
  unfold index_of_key. intros H. apply find_some in H as [Hin Hp].
  apply in_seq in Hin. apply String.eqb_eq in Hp. split; [congruence|lia].
Qed.

(** Reading a listed property gives the listed value. *)
Lemma own_prop_read (v : value) (p : string) (x : value) :
  plain v = true -> In (p, x) (own_props v) -> get_prop v p = Ok x.
Proof.
  destruct v as [| | | | | |id items|id ctor props]; simpl; try (intros _ []).
  - intros _ Hin. apply list_elem_of_In, elem_of_lookup_imap in Hin as (i & y & Heq & Hi).
    injection Heq as Hp Hx. subst p x. apply (get_prop_index id items i y Hi).
  - intros Hplain Hin. apply andb_true_iff in Hplain as [_ Hplain].
    apply andb_true_iff in Hplain as [Hplain _].
    apply andb_true_iff in Hplain as [_ Hnd]. apply bool_decide_eq_true in Hnd.
    rewrite (assoc_NoDup p x props Hnd Hin). reflexivity.
Qed.

(** An owned property is listed, the [length] of an array apart. *)
Lemma owned_listed (v : value) (p : string) :
  has_field v p = true ->
  instanceof_Array v = false \/ p <> "length"%string ->
  exists x, In (p, x) (own_props v).
Proof.
  destruct v as [| | | | | |id items|id ctor props]; simpl; try discriminate.
  - intros H [Harr|Hp]; [discriminate|].
    destruct (String.eqb p "length") eqn:E; [apply String.eqb_eq in E; contradiction|].
    simpl in H.
    apply bool_decide_eq_true in H as [i Hi].
    apply index_of_key_listed in Hi as [-> Hi].
    destruct (lookup_lt_is_Some_2 items i Hi) as [x Hx].
    exists x. apply list_elem_of_In, elem_of_lookup_imap. exists i, x. auto.
  - intros H _. apply bool_decide_eq_true in H as [x Hx].
    exists x. apply assoc_listed, Hx.
Qed.

Lemma listed_not_length (v : value) (p : string) (x : value) :
  In (p, x) (own_props v) ->
  instanceof_Array v = false \/ p <> "length"%string.
Proof.
  destruct v as [| | | | | |id items|id ctor props]; simpl; auto.
  intros Hin. right. apply list_elem_of_In, elem_of_lookup_imap in Hin as (i & y & Heq & _).
  injection Heq as -> ->. intros Hp.
  pose proof (pretty_nat_ne_length i) as Hne. rewrite Hp in Hne. discriminate.
Qed.

Lemma plain_field (v : value) (p : string) (x : value) :
  plain v = true -> In (p, x) (own_props v) -> plain x = true.
Proof.
  destruct v as [| | | | | |id items|id ctor props]; simpl; try (intros _ []).
  - intros Hplain Hin.
    apply list_elem_of_In, elem_of_lookup_imap in Hin as (i & y & Heq & Hi).
    injection Heq as Hp Hx. subst p x. rewrite forallb_forall in Hplain.
    apply Hplain. apply list_elem_of_In. eapply list_elem_of_lookup_2, Hi.
  - intros Hplain Hin. apply andb_true_iff in Hplain as [_ Hplain].
    apply andb_true_iff in Hplain as [_ Hplain].
    rewrite forallb_forall in Hplain. apply (Hplain (p, x) Hin).
Qed.

Lemma plain_ordinary (v : value) : plain v = true -> ordinary v = true.
Proof.
  induction v as [| |x|n| |s|i A IH|i c props IH] using value_nested_ind;
    try reflexivity; simpl.
  - rewrite !forallb_forall, List.Forall_forall in *. intros H x Hx. apply IH; auto.
  - intros H. apply andb_true_iff in H as [Hs H].
    apply andb_true_iff in H as [_ H]. rewrite Hs. simpl.
    rewrite !forallb_forall, List.Forall_forall in *.
    intros [p x] Hx. apply (IH (p, x) Hx), (H (p, x) Hx).
Qed.

Lemma plain_not_Array (id : positive) (ctor : string) (props : list (string * value)) :
  plain (VObj id ctor props) = true ->
  constructor_neq (Inherited "Array") (constructor (VObj id ctor props)) = true.
Proof.
  intros H. simpl in H. apply andb_true_iff in H as [_ H].
  apply andb_true_iff in H as [H _]. apply andb_true_iff in H as [H _].
  unfold constructor. destruct (assoc "constructor" props); [reflexivity|].
  unfold constructor_neq. rewrite String.eqb_sym. exact H.
Qed.

Lemma constructor_neq_sym (c d : constructor_value) :
  constructor_neq c d = constructor_neq d c.
Proof.
  destruct c as [s|x], d as [t|y]; simpl; try reflexivity.
  - rewrite String.eqb_sym. reflexivity.
  - unfold strict_neq. rewrite strict_eq_sym. reflexivity.
Qed.

Lemma plain_same_kind (a b : value) :
  plain a = true -> plain b = true ->
  is_primitive a = false -> is_primitive b = false ->
  constructor_neq (constructor a) (constructor b) = false ->
  instanceof_Array a = instanceof_Array b.
Proof.
  destruct a as [| | | | | |i A|i c props], b as [| | | | | |j B|j d props'];
    try discriminate; try reflexivity; intros Ha Hb _ _ Hc.
  - change (constructor (VArr i A)) with (Inherited "Array") in Hc.
    rewrite (plain_not_Array j d props' Hb) in Hc. discriminate.
  - rewrite constructor_neq_sym in Hc.
    change (constructor (VArr j B)) with (Inherited "Array") in Hc.
    rewrite (plain_not_Array i c props Ha) in Hc. discriminate.
Qed.

Lemma record_equal_flip (a b : value) :
  plain a = true -> plain b = true ->
  (forall p x, In (p, x) (own_props a) ->
     forall y, plain y = true -> objectEquals x y = objectEquals y x) ->
  record_equal a b <-> record_equal b a.
Proof.
  intros Ha Hb IH. split.
  - intros (Hpa & Hpb & Hc & Hfields & Hback).
    pose proof (plain_same_kind a b Ha Hb Hpa Hpb Hc) as Hkind.
    split; [exact Hpb|]. split; [exact Hpa|].
    split; [rewrite constructor_neq_sym; exact Hc|]. split.
    + intros p y Hy. pose proof (Hback p y Hy) as Hown. split; [exact Hown|].
      destruct (owned_listed a p Hown) as [x Hx].
      { rewrite Hkind. apply (listed_not_length b p y Hy). }
      exists x. split; [apply own_prop_read; assumption|].
      destruct (Hfields p x Hx) as (_ & y' & Hy' & Hagree).
      rewrite (own_prop_read b p y Hb Hy) in Hy'. injection Hy' as <-.
      apply fields_agree_objectEquals.
      rewrite <- (IH p x Hx y (plain_field b p y Hb Hy)).
      apply fields_agree_objectEquals, Hagree.
    + intros p x Hx. apply (Hfields p x Hx).
  - intros (Hpb & Hpa & Hc & Hfields & Hback).
    pose proof (plain_same_kind b a Hb Ha Hpb Hpa Hc) as Hkind.
    split; [exact Hpa|]. split; [exact Hpb|].
    split; [rewrite constructor_neq_sym; exact Hc|]. split.
    + intros p x Hx. pose proof (Hback p x Hx) as Hown. split; [exact Hown|].
      destruct (owned_listed b p Hown) as [y Hy].
      { rewrite Hkind. apply (listed_not_length a p x Hx). }
      exists y. split; [apply own_prop_read; assumption|].
      destruct (Hfields p y Hy) as (_ & x' & Hx' & Hagree).
      rewrite (own_prop_read a p x Ha Hx) in Hx'. injection Hx' as <-.
      apply fields_agree_objectEquals.
      rewrite (IH p x Hx y (plain_field b p y Hb Hy)).
      apply fields_agree_objectEquals, Hagree.
    + intros p y Hy. apply (Hfields p y Hy).
Qed.

Lemma objectEquals_primitive_sym (a b : value) :
  is_primitive a = true -> objectEquals a b = objectEquals b a.
Proof.
  intros Ha. rewrite (objectEquals_primitive a b Ha).
  destruct (is_primitive b) eqn:Hb.
  - rewrite (objectEquals_primitive b a Hb), strict_eq_sym. reflexivity.
  - rewrite objectEquals_unfold, (strict_eq_sym b a).
    destruct (strict_eq a b); [reflexivity|].
    unfold is_primitive in Ha. apply negb_true_iff in Ha. rewrite Ha. simpl.
    rewrite orb_true_r. reflexivity.
Qed.

Lemma objectEquals_flip (a b : value) :
  plain a = true -> plain b = true ->
  (forall p x, In (p, x) (own_props a) ->
     forall y, plain y = true -> objectEquals x y = objectEquals y x) ->
  objectEquals a b = objectEquals b a.
Proof.
  intros Ha Hb IH.
  pose proof (plain_ordinary a Ha) as Hoa. pose proof (plain_ordinary b Hb) as Hob.
  pose proof (ordinary_shadows a Hoa) as Hsa. pose proof (ordinary_shadows b Hob) as Hsb.
  assert (objectEquals a b = Ok true <-> objectEquals b a = Ok true) as Hiff.
  { rewrite (objectEquals_iff a b Hsa Hsb), (objectEquals_iff b a Hsb Hsa).
    rewrite (strict_eq_sym b a), (record_equal_flip a b Ha Hb IH). reflexivity. }
  destruct (objectEquals_returns a b Hoa Hob) as [r Hr].
  destruct (objectEquals_returns b a Hob Hoa) as [r' Hr'].
  rewrite Hr, Hr' in *. destruct r, r'; try reflexivity; exfalso.
  - destruct Hiff as [H _]. specialize (H eq_refl). discriminate.
  - destruct Hiff as [_ H]. specialize (H eq_refl). discriminate.
Qed.

Lemma objectEquals_sym (a : value) :
  forall b, plain a = true -> plain b = true -> objectEquals a b = objectEquals b a.
Proof.
  induction a as [| |x|n| |s|i A IH|i c props IH] using value_nested_ind;
    intros b Ha Hb; try (apply objectEquals_primitive_sym; reflexivity).
  - apply (objectEquals_flip (VArr i A) b Ha Hb).
    intros p x Hx y Hpy.
    assert (plain x = true) as Hpx by (apply (plain_field _ p x Ha Hx)).
    simpl in Hx. apply list_elem_of_In, elem_of_lookup_imap in Hx as (k & x' & Heq & Hk).
    injection Heq as Hp Hx. subst p x'. rewrite List.Forall_forall in IH.
    assert (In x A) as Hin by (apply list_elem_of_In; eapply list_elem_of_lookup_2, Hk).
    apply (IH x Hin y Hpx Hpy).
  - apply (objectEquals_flip (VObj i c props) b Ha Hb).
    intros p x Hx y Hpy.
    assert (plain x = true) as Hpx by (apply (plain_field _ p x Ha Hx)).
    simpl in Hx. rewrite List.Forall_forall in IH.
    apply (IH (p, x) Hx y Hpx Hpy).
Qed.

(** X22.  On values whose property names tell their fields apart (the
    names of an object are distinct, none of them is [hasOwnProperty],
    and only arrays have [Array] as constructor), at every depth,
    [objectEquals] does not depend on the order of its arguments: both
    calls return, and return the same. *)
Theorem objectEquals_symmetric (a b : value) :
  plain a = true -> plain b = true ->
  exists r, objectEquals a b = Ok r /\ objectEquals b a = Ok r.
Proof.
  intros Ha Hb.
  destruct (objectEquals_returns a b (plain_ordinary a Ha) (plain_ordinary b Hb)) as [r Hr].
  exists r. split; [exact Hr|].
  rewrite <- (objectEquals_sym a b Ha Hb). exact Hr.
Qed.

Lemma objectEquals_symmetric_witness :
  let a := VObj 1 "Disk" [("size", VNum 4); ("parts", VArr 2 [VStr "sda1"; VNull])] in
  let b := VObj 3 "Disk" [("parts", VArr 4 [VStr "sda1"; VNull]); ("size", VNum 4)] in
  plain a = true /\ plain b = true /\
  exists r, objectEquals a b = Ok r /\ objectEquals b a = Ok r.
Proof.
  intros a b.
  assert (plain a = true) as Ha by (vm_compute; reflexivity).
  assert (plain b = true) as Hb by (vm_compute; reflexivity).
  split; [exact Ha|]. split; [exact Hb|].
  exact (objectEquals_symmetric a b Ha Hb).
Defined.

(** X23.  Two arrays that [arrayEquals] takes for equal are equal for
    [objectEquals] too, at every depth of nesting. *)
Theorem arrayEquals_implies_objectEquals (a b : value) :
  instanceof_Array a = true -> instanceof_Array b = true ->
  arrayEquals a b = true -> objectEquals a b = Ok true.
Proof.
  revert b. induction a as [| |x|n| |s|i A IH|i c props _] using value_nested_ind;
    intros b Ha Hb; try discriminate.
  destruct b as [| | | | | |j B|]; try discriminate.
  cbn [arrayEquals]. rewrite equals_body_Forall2. intros Hall.
  apply objectEquals_iff; [reflexivity|reflexivity|]. right.
  pose proof (Forall2_length _ _ _ Hall) as Hlen.
  split; [reflexivity|]. split; [reflexivity|]. split; [reflexivity|]. split.
  - intros p x Hx. simpl in Hx.
    apply list_elem_of_In, elem_of_lookup_imap in Hx as (k & x' & Heq & Hk).
    injection Heq as Hp Hx. subst p x'.
    destruct (Forall2_lookup_l _ _ _ _ _ Hall Hk) as (y & Hy & Hxy).
    assert (k < length B)%nat as Hkb by (apply (lookup_lt_Some _ _ _ Hy)).
    split.
    + simpl. rewrite pretty_nat_ne_length, (index_of_key_pretty k _ Hkb). reflexivity.
    + exists y. split; [apply (get_prop_index j B k y Hy)|].
      apply fields_agree_objectEquals.
      destruct (instanceof_Array x) eqn:Ex, (instanceof_Array y) eqn:Ey; simpl in Hxy;
        try (apply strict_eq_objectEquals; exact Hxy).
      rewrite List.Forall_forall in IH. apply (IH x); auto.
      apply list_elem_of_In. eapply list_elem_of_lookup_2, Hk.
  - intros p y Hy. simpl in Hy.
    apply list_elem_of_In, elem_of_lookup_imap in Hy as (k & y' & Heq & Hk).
    injection Heq as Hp Hy. subst p y'.
    assert (k < length A)%nat as Hka by (rewrite Hlen; apply (lookup_lt_Some _ _ _ Hk)).
    simpl. rewrite pretty_nat_ne_length, (index_of_key_pretty k _ Hka). reflexivity.
Qed.

Lemma arrayEquals_implies_objectEquals_witness :
  let a := VArr 1 [VNum 1; VArr 2 [VStr "x"]] in
  let b := VArr 3 [VNum 1; VArr 4 [VStr "x"]] in
  arrayEquals a b = true /\ objectEquals a b = Ok true /\
  arrayEquals (VArr 1 [VObj 5 "Object" []]) (VArr 3 [VObj 6 "Object" []]) = false /\
  objectEquals (VArr 1 [VObj 5 "Object" []]) (VArr 3 [VObj 6 "Object" []]) = Ok true.
Proof.
  intros a b. assert (arrayEquals a b = true) as Hab by reflexivity.
  split; [exact Hab|]. split; [|split; reflexivity].
  apply (arrayEquals_implies_objectEquals a b); [reflexivity|reflexivity|exact Hab].
Defined.

(** ** Sorting helpers *)

Section SortingFacts.

Variable coerced_lt : value -> value -> bool.
Variable to_double : Z -> Z.

Lemma numberSort_strings (a b : string) :
  numberSort coerced_lt to_double (VStr a) (VStr b) =
  Ok (if String.eqb (remove_digits a) (remove_digits b)
      then if strict_eq (parseInt10 to_double (keep_digits a))
                        (parseInt10 to_double (keep_digits b)) then 0
           else if js_gt coerced_lt (parseInt10 to_double (keep_digits a))
                                    (parseInt10 to_double (keep_digits b)) then 1 else -1
      else if String.ltb (remove_digits b) (remove_digits a) then 1 else -1).
Proof.
  unfold numberSort. cbn [strict_eq strict_neq orb andb negb].
  destruct (String.eqb (remove_digits a) (remove_digits b)); reflexivity.
Qed.

Lemma parseInt10_order (x y : string) :
  (if strict_eq (parseInt10 to_double x) (parseInt10 to_double y) then 0
   else if js_gt coerced_lt (parseInt10 to_double x) (parseInt10 to_double y) then 1
        else -1) =
  if String.eqb x "" || String.eqb y "" then -1
  else if to_double (digits_value 0 x) =? to_double (digits_value 0 y) then 0
       else if to_double (digits_value 0 x) >? to_double (digits_value 0 y) then 1 else -1.
Proof.
  unfold parseInt10.
  destruct (String.eqb x ""), (String.eqb y ""); try reflexivity.
  simpl. rewrite Z.gtb_ltb. reflexivity.
Qed.

Lemma ltb_reversed (s t : string) :
  s <> t -> String.ltb t s = negb (String.ltb s t).
Proof.
  intros Hne. unfold String.ltb. rewrite (String.compare_antisym s t).
  destruct (String.compare t s) eqn:E; try reflexivity.
  apply String.compare_eq_iff in E. congruence.
Qed.

End SortingFacts.

(** X24.  [numberSort] is not a consistent comparison.  For two strings
    with the same text around their digits of which one has no digit
    at all, it answers -1 whichever comes first, because [parseInt] of
    no digits is [NaN]: so a string without digits sorts before itself.
    For every other pair of strings, swapping the arguments negates the
    answer. *)
Theorem numberSort_swapped (coerced_lt : value -> value -> bool) (to_double : Z -> Z)
  (a b : string) :
  exists r r' : Z,
    numberSort coerced_lt to_double (VStr a) (VStr b) = Ok r /\
    numberSort coerced_lt to_double (VStr b) (VStr a) = Ok r' /\
    (if String.eqb (remove_digits a) (remove_digits b) && (digit_free a || digit_free b)
     then r = -1 /\ r' = -1
     else r' = - r).
Proof.
  rewrite !numberSort_strings, !parseInt10_order. unfold digit_free.
  rewrite (String.eqb_sym (remove_digits b)), (Z.eqb_sym (to_double (digits_value 0 (keep_digits b)))).
  rewrite (orb_comm (String.eqb (keep_digits b) "")).
  eexists _, _. split; [reflexivity|]. split; [reflexivity|].
  destruct (String.eqb_spec (remove_digits a) (remove_digits b)) as [_|Hne]; simpl.
  - destruct (String.eqb (keep_digits a) "" || String.eqb (keep_digits b) "");
      [split; reflexivity|].
    destruct (Z.eqb_spec (to_double (digits_value 0 (keep_digits a)))
                (to_double (digits_value 0 (keep_digits b)))); [reflexivity|].
    rewrite !Z.gtb_ltb.
    destruct (Z.ltb_spec (to_double (digits_value 0 (keep_digits b)))
                (to_double (digits_value 0 (keep_digits a)))),
             (Z.ltb_spec (to_double (digits_value 0 (keep_digits a)))
                (to_double (digits_value 0 (keep_digits b)))); lia.
  - rewrite (ltb_reversed _ _ Hne).
    destruct (String.ltb (remove_digits a) (remove_digits b)); reflexivity.
Qed.

Lemma digit_not_dot (c : Ascii.ascii) : is_digit c = true -> Ascii.eqb c "."%char = false.
Proof.
  intros Hc. destruct (Ascii.eqb_spec c "."%char) as [->|_]; [|reflexivity].
  discriminate.
Qed.

Lemma digits_only (c : Ascii.ascii) (s : string) :
  remove_digits (String c s) = EmptyString ->
  is_digit c = true /\ remove_digits s = EmptyString.
Proof.
  simpl. destruct (is_digit c); [auto|discriminate].
Qed.

Lemma keep_digits_numeral (s : string) :
  remove_digits s = EmptyString -> keep_digits s = s.
Proof.
  induction s as [|c s IH]; intros H; [reflexivity|].
  apply digits_only in H as [Hc H]. simpl. rewrite Hc, (IH H). reflexivity.
Qed.

Lemma digits_value_nonneg (s : string) (acc : Z) :
  remove_digits s = EmptyString -> 0 <= acc -> 0 <= digits_value acc s.
Proof.
  revert acc. induction s as [|c s IH]; intros acc H Hacc; [exact Hacc|].
  apply digits_only in H as [Hc H]. simpl. apply (IH _ H).
  unfold is_digit in Hc. apply andb_true_iff in Hc as [Hc _]. apply Z.leb_le in Hc. lia.
Qed.

Lemma split_dot_numeral (s : string) :
  remove_digits s = EmptyString -> split_dot s = [s].
Proof.
  induction s as [|c s IH]; intros H; [reflexivity|].
  apply digits_only in H as [Hc H]. simpl.
  rewrite (digit_not_dot c Hc), (IH H). reflexivity.
Qed.

Lemma split_dot_numeral_dot (s rest : string) :
  remove_digits s = EmptyString ->
  split_dot (s ++ "." ++ rest) = s :: split_dot rest.
Proof.
  induction s as [|c s IH]; intros H; [reflexivity|].
  apply digits_only in H as [Hc H].
  change (split_dot (String c (s ++ "." ++ rest)) = String c s :: split_dot rest).
  simpl. rewrite (digit_not_dot c Hc), (IH H). reflexivity.
Qed.

Lemma split_dot_join_dots (parts : list string) :
  parts <> [] -> Forall (fun s => remove_digits s = EmptyString) parts ->
  split_dot (join_dots parts) = parts.
Proof.
  induction parts as [|p parts IH]; intros Hne Hall; [contradiction|].
  inversion Hall as [|? ? Hp Hrest]; subst.
  destruct parts as [|q parts]; [apply split_dot_numeral, Hp|].
  change (join_dots (p :: q :: parts)) with (p ++ "." ++ join_dots (q :: parts))%string.
  rewrite (split_dot_numeral_dot p _ Hp), IH; [reflexivity|discriminate|exact Hrest].
Qed.

Lemma numberSort_numerals (coerced_lt : value -> value -> bool) (to_double : Z -> Z)
  (x y : string) :
  (forall z, 0 <= z <= 2 ^ 53 -> to_double z = z) ->
  numeral x = true -> digits_value 0 x <= 2 ^ 53 ->
  numeral y = true -> digits_value 0 y <= 2 ^ 53 ->
  numberSort coerced_lt to_double (VStr x) (VStr y) =
  Ok (if digits_value 0 x =? digits_value 0 y then 0
      else if digits_value 0 x >? digits_value 0 y then 1 else -1).
Proof.
  intros Hexact Hx Hvx Hy Hvy. unfold numeral in Hx, Hy.
  apply andb_true_iff in Hx as [Hx0 Hx], Hy as [Hy0 Hy].
  apply String.eqb_eq in Hx, Hy. apply negb_true_iff in Hx0, Hy0.
  rewrite numberSort_strings, parseInt10_order, Hx, Hy.
  rewrite (keep_digits_numeral x Hx), (keep_digits_numeral y Hy), Hx0, Hy0.
  rewrite !Hexact by (split; [apply digits_value_nonneg; [assumption|lia]|assumption]).
  reflexivity.
Qed.

(** X25.  On two addresses made of four numerals each, [ipSort] orders
    by the numbers the numerals denote, entry by entry from the left,
    not by their text: it returns 0 when all four agree and otherwise 1
    or -1 according to the first entry that differs. *)
Theorem ipSort_by_number (coerced_lt : value -> value -> bool) (to_double : Z -> Z)
  (a b : list string) :
  (forall z, 0 <= z <= 2 ^ 53 -> to_double z = z) ->
  length a = 4%nat -> length b = 4%nat ->
  Forall (fun s => numeral s = true /\ digits_value 0 s <= 2 ^ 53) a ->
  Forall (fun s => numeral s = true /\ digits_value 0 s <= 2 ^ 53) b ->
  ipSort coerced_lt to_double (join_dots a) (join_dots b) =
  Ok (compare_entries (map (digits_value 0) a) (map (digits_value 0) b)).
Proof.
  intros Hexact Hla Hlb Ha Hb.
  assert (forall l, Forall (fun s => numeral s = true /\ digits_value 0 s <= 2 ^ 53) l ->
                    Forall (fun s => remove_digits s = EmptyString) l) as Hdigits.
  { intros l Hl. eapply Forall_impl; [exact Hl|]. intros s [Hs _]. simpl.
    unfold numeral in Hs. apply andb_true_iff in Hs as [_ Hs]. apply String.eqb_eq, Hs. }
  unfold ipSort.
  rewrite (split_dot_join_dots a), (split_dot_join_dots b);
    [|intros ->; discriminate|apply Hdigits, Hb|intros ->; discriminate|apply Hdigits, Ha].
  destruct a as [|a0 [|a1 [|a2 [|a3 [|]]]]]; try discriminate.
  destruct b as [|b0 [|b1 [|b2 [|b3 [|]]]]]; try discriminate.
  inversion Ha as [|? ? [Ha0 Va0] Ha']; subst. inversion Ha' as [|? ? [Ha1 Va1] Ha'']; subst.
  inversion Ha'' as [|? ? [Ha2 Va2] Ha''']; subst.
  inversion Ha''' as [|? ? [Ha3 Va3] _]; subst.
  inversion Hb as [|? ? [Hb0 Vb0] Hb']; subst. inversion Hb' as [|? ? [Hb1 Vb1] Hb'']; subst.
  inversion Hb'' as [|? ? [Hb2 Vb2] Hb''']; subst.
  inversion Hb''' as [|? ? [Hb3 Vb3] _]; subst.
  cbn [ipSort_from part_at lookup list_lookup map compare_entries].
  rewrite !(numberSort_numerals coerced_lt to_double) by assumption.
  destruct (digits_value 0 a0 =? digits_value 0 b0);
    [|destruct (digits_value 0 a0 >? digits_value 0 b0); reflexivity].
  destruct (digits_value 0 a1 =? digits_value 0 b1);
    [|destruct (digits_value 0 a1 >? digits_value 0 b1); reflexivity].
  destruct (digits_value 0 a2 =? digits_value 0 b2);
    [|destruct (digits_value 0 a2 >? digits_value 0 b2); reflexivity].
  destruct (digits_value 0 a3 =? digits_value 0 b3);
    [|destruct (digits_value 0 a3 >? digits_value 0 b3); reflexivity].
  reflexivity.
Qed.

Lemma ipSort_by_number_witness :
  ipSort never_lt (fun z => z) "10.100.0.7" "10.9.0.12" = Ok 1 /\
  ipSort never_lt (fun z => z) "10.9.0.12" "10.09.0.12" = Ok 0.
Proof.
  split.
  - apply (ipSort_by_number never_lt (fun z => z)
             ["10"; "100"; "0"; "7"]%string ["10"; "9"; "0"; "12"]%string);
      [reflexivity|reflexivity|reflexivity| |];
      repeat constructor; vm_compute; discriminate.
  - apply (ipSort_by_number never_lt (fun z => z)
             ["10"; "9"; "0"; "12"]%string ["10"; "09"; "0"; "12"]%string);
      [reflexivity|reflexivity|reflexivity| |];
      repeat constructor; vm_compute; discriminate.
Defined.

(** ** Promise helpers *)

Lemma chain_falsy (world callback : Type) (call : callback -> world -> value * world)
  (then_ : value -> callback -> world -> value * world)
  (callbackList : list callback) (chain : value) (w : world) :
  falsy chain = true ->
  foldl (chain_step world callback call then_) (chain, w) callbackList =
  (match callbackList with [] => chain | _ => VUndef end,
   call_all world callback call callbackList w).
Proof.
  revert chain w. induction callbackList as [|func rest IH]; intros chain w Hchain;
    [reflexivity|].
  simpl. rewrite Hchain. simpl. rewrite (IH VUndef _ eq_refl).
  destruct rest; reflexivity.
Qed.

(** X26.  [chainPromises] chains nothing: the function it hands to
    [reduce] returns no value, so the accumulator is never a promise and
    [then] is never called, whatever it would do.  Every callback is
    called at once and in order, without arguments, and the result is
    [undefined] ([null] for an empty list), not a promise. *)
Theorem chainPromises_chains_nothing (world callback : Type)
  (call : callback -> world -> value * world)
  (then_ then' : value -> callback -> world -> value * world)
  (callbackList : list callback) (w : world) :
  chainPromises world callback call then_ callbackList w =
    (match callbackList with [] => VNull | _ => VUndef end,
     call_all world callback call callbackList w) /\
  chainPromises world callback call then_ callbackList w =
    chainPromises world callback call then' callbackList w.
Proof.
  unfold chainPromises. rewrite !chain_falsy by reflexivity. split; reflexivity.
Qed.

(** ** Device names *)

Lemma string_pair_ind (P : string -> Prop) :
  P EmptyString -> (forall c, P (String c EmptyString)) ->
  (forall c d rest, P rest -> P (String d rest) -> P (String c (String d rest))) ->
  forall s, P s.
Proof.
  intros H0 H1 H2 s.
  enough (P s /\ forall c, P (String c s)) as [H _] by exact H.
  induction s as [|d rest [IH IH']]; [split; [exact H0|exact H1]|].
  split; [apply IH'|]. intros c. apply H2; [exact IH|apply IH'].
Qed.

Lemma halve_slashes_pair (c d : Ascii.ascii) (rest : string) :
  halve_slashes (String c (String d rest)) =
  if Ascii.eqb c "/"%char && Ascii.eqb d "/"%char
  then String "/"%char (halve_slashes rest)
  else String c (halve_slashes (String d rest)).
Proof. reflexivity. Qed.

Lemma has_double_slash_pair (c d : Ascii.ascii) (rest : string) :
  has_double_slash (String c (String d rest)) =
  (Ascii.eqb c "/"%char && Ascii.eqb d "/"%char) || has_double_slash (String d rest).
Proof. reflexivity. Qed.

Lemma halve_slashes_shortens (s : string) :
  (String.length (halve_slashes s) <= String.length s)%nat /\
  (has_double_slash s = true ->
   (String.length (halve_slashes s) < String.length s)%nat).
Proof.
  induction s as [|c|c d rest [IH _] [IH1 IH2]] using string_pair_ind;
    [split; [reflexivity|discriminate]|split; [reflexivity|discriminate]|].
  rewrite halve_slashes_pair, has_double_slash_pair.
  destruct (Ascii.eqb c "/"%char && Ascii.eqb d "/"%char).
  - cbn [String.length]. split; [lia|intros _; lia].
  - set (inner := halve_slashes (String d rest)) in *.
    cbn [String.length orb] in *. split; [lia|]. intros Hd. specialize (IH2 Hd). lia.
Qed.

Lemma collapse_slashes_body (s : string) :
  collapse_slashes s =
  if has_double_slash s then collapse_slashes (halve_slashes s) else s.
Proof.
  rewrite collapse_slashes_equation_1. unfold collapse_slashes_unfold_clause_1.
  destruct (bool_dec (has_double_slash s) true) as [H|H].
  - rewrite H. reflexivity.
  - apply not_true_is_false in H. rewrite H. reflexivity.
Qed.

(** What holds of a string without two slashes in a row, and is kept by
    one pass of the loop backwards, holds of what the loop returns. *)
Lemma collapse_slashes_ind (P : string -> string -> Prop) :
  (forall s, has_double_slash s = false -> P s s) ->
  (forall s r, has_double_slash s = true -> P (halve_slashes s) r -> P s r) ->
  forall s, P s (collapse_slashes s).
Proof.
  intros Hstop Hpass s.
  remember (String.length s) as n eqn:Hn. revert s Hn.
  induction (lt_wf n) as [n _ IH]. intros s Hn.
  rewrite collapse_slashes_body. destruct (has_double_slash s) eqn:Hs.
  - apply Hpass; [exact Hs|]. apply (IH (String.length (halve_slashes s))); [|reflexivity].
    subst n. apply halve_slashes_shortens, Hs.
  - apply Hstop, Hs.
Qed.

Lemma all_allowed_cons (c : Ascii.ascii) (s : string) :
  all_allowed (String c s) = allowed_char c && all_allowed s.
Proof. reflexivity. Qed.

Lemma all_allowed_append (s t : string) :
  all_allowed (s ++ t) = all_allowed s && all_allowed t.
Proof.
  induction s as [|c s IH]; [reflexivity|].
  change (all_allowed (String c (s ++ t)) = all_allowed (String c s) && all_allowed t).
  rewrite !all_allowed_cons, IH. apply andb_assoc.
Qed.

Lemma keep_allowed_allowed (s : string) : all_allowed (keep_allowed s) = true.
Proof.
  induction s as [|c s IH]; [reflexivity|]. simpl.
  destruct (allowed_char c) eqn:Hc; [|exact IH].
  rewrite all_allowed_cons, Hc, IH. reflexivity.
Qed.

Lemma halve_slashes_allowed (s : string) :
  all_allowed s = true -> all_allowed (halve_slashes s) = true.
Proof.
  induction s as [|c|c d rest IH IH'] using string_pair_ind; [auto|auto|].
  rewrite halve_slashes_pair, !all_allowed_cons. intros H.
  apply andb_true_iff in H as [Hc H]. apply andb_true_iff in H as [Hd H].
  destruct (Ascii.eqb c "/"%char && Ascii.eqb d "/"%char).
  - rewrite all_allowed_cons, (IH H). reflexivity.
  - rewrite all_allowed_cons, Hc, IH'; [reflexivity|].
    rewrite all_allowed_cons, Hd, H. reflexivity.
Qed.

Lemma has_double_slash_raw (s : string) :
  has_double_slash (s ++ ".raw") = has_double_slash s.
Proof.
  induction s as [|c|c d rest _ IH] using string_pair_ind; [reflexivity| |].
  - change (has_double_slash (String c ".raw") = false).
    rewrite has_double_slash_pair, andb_false_r. reflexivity.
  - change (has_double_slash (String c (String d (rest ++ ".raw"))) =
            has_double_slash (String c (String d rest))).
    rewrite !has_double_slash_pair. f_equal. exact IH.
Qed.

Lemma substring_past (s t : string) (m : nat) :
  String.substring (String.length s) m (s ++ t) = String.substring 0 m t.
Proof.
  induction s as [|c s IH]; [reflexivity|]. exact IH.
Qed.

Lemma last_four_raw (s : string) : last_four (s ++ ".raw") = ".raw"%string.
Proof.
  unfold last_four. rewrite string_length_append.
  replace (String.length s + String.length ".raw" - 4)%nat with (String.length s)
    by (simpl; lia).
  rewrite substring_past. reflexivity.
Qed.

Lemma last_four_split (r : string) :
  last_four r = ".raw"%string -> exists stem, r = (stem ++ ".raw")%string.
Proof.
  unfold last_four. induction r as [|c r IH]; [discriminate|].
  destruct (Nat.le_gt_cases 4 (String.length r)) as [Hlen|Hlen].
  - replace (String.length (String c r) - 4)%nat with (S (String.length r - 4))
      by (simpl; lia).
    intros H. destruct (IH H) as [stem ->]. exists (String c stem). reflexivity.
  - replace (String.length (String c r) - 4)%nat with 0%nat by (simpl; lia).
    destruct r as [|c1 [|c2 [|c3 [|c4 r]]]]; simpl in Hlen; try lia; try discriminate.
    simpl. intros H. exists EmptyString. exact H.
Qed.

(** The three facts [cleanDeviceName] establishes about its result. *)
Lemma cleanDeviceName_parts (name : string) :
  last_four (cleanDeviceName name) = ".raw"%string /\
  all_allowed (cleanDeviceName name) = true /\
  has_double_slash (cleanDeviceName name) = false.
Proof.
  unfold cleanDeviceName.
  set (filtered := keep_allowed _).
  assert (all_allowed (collapse_slashes filtered) = true /\
          has_double_slash (collapse_slashes filtered) = false) as [Hallowed Hsingle].
  { assert (all_allowed filtered = true) as Hf by apply keep_allowed_allowed.
    revert Hf. apply (collapse_slashes_ind
      (fun s r => all_allowed s = true ->
                  all_allowed r = true /\ has_double_slash r = false)).
    - intros s Hs Ha. split; assumption.
    - intros s r _ IH Ha. apply IH, halve_slashes_allowed, Ha. }
  destruct ((Z.of_nat (String.length (collapse_slashes filtered)) >? 4)
            && String.eqb (last_four (collapse_slashes filtered)) ".raw") eqn:Htest.
  - apply andb_true_iff in Htest as [_ Hraw]. apply String.eqb_eq in Hraw. auto.
  - split; [apply last_four_raw|]. split.
    + rewrite all_allowed_append, Hallowed. reflexivity.
    + rewrite has_double_slash_raw. exact Hsingle.
Qed.

(** X27.  Whatever the name, [cleanDeviceName] returns a string that
    ends in [.raw], is made of letters, digits and the characters
    [- _ . /] only, and has no two slashes in a row. *)
Theorem cleanDeviceName_shape (name : string) :
  (exists stem, cleanDeviceName name = (stem ++ ".raw")%string) /\
  all_allowed (cleanDeviceName name) = true /\
  has_double_slash (cleanDeviceName name) = false.
Proof.
  destruct (cleanDeviceName_parts name) as (Hraw & Hallowed & Hsingle).
  split; [apply last_four_split, Hraw|]. split; assumption.
Qed.

Lemma drop_trailing_slashes_raw (stem : string) :
  drop_trailing_slashes (stem ++ ".raw") = (stem ++ ".raw")%string.
Proof.
  induction stem as [|c stem IH]; [reflexivity|].
  change (drop_trailing_slashes (String c (stem ++ ".raw")) = String c (stem ++ ".raw")).
  cbn [drop_trailing_slashes]. rewrite IH.
  replace (String.eqb (stem ++ ".raw") "") with false; [rewrite andb_false_r; reflexivity|].
  destruct stem; reflexivity.
Qed.

Lemma spaces_to_underscores_allowed (s : string) :
  all_allowed s = true -> spaces_to_underscores s = s.
Proof.
  induction s as [|c s IH]; [reflexivity|]. rewrite all_allowed_cons. intros H.
  apply andb_true_iff in H as [Hc H]. simpl. rewrite (IH H).
  destruct (Ascii.eqb_spec c " "%char) as [->|_]; [discriminate|reflexivity].
Qed.

Lemma keep_allowed_fixed (s : string) : all_allowed s = true -> keep_allowed s = s.
Proof.
  induction s as [|c s IH]; [reflexivity|]. rewrite all_allowed_cons. intros H.
  apply andb_true_iff in H as [Hc H]. simpl. rewrite Hc, (IH H). reflexivity.
Qed.

(** X28.  A cleaned name is not always clean: cleaning it again
    returns it unchanged provided it does not start with a slash (one
    can be left when characters in front of it are dropped) and is not
    [.raw] alone (the result for a name of which nothing is left). *)
Theorem cleanDeviceName_again (name : string) :
  drop_leading_slashes (cleanDeviceName name) = cleanDeviceName name ->
  cleanDeviceName name <> ".raw"%string ->
  cleanDeviceName (cleanDeviceName name) = cleanDeviceName name.
Proof.
  destruct (cleanDeviceName_parts name) as (Hraw & Hallowed & Hsingle).
  set (r := cleanDeviceName name) in *. clearbody r. intros Hlead Hne.
  destruct (last_four_split r Hraw) as [stem Hstem].
  assert (keep_allowed (spaces_to_underscores
                          (drop_trailing_slashes (drop_leading_slashes r))) = r) as Hpipe.
  { rewrite Hlead, Hstem, drop_trailing_slashes_raw, <- Hstem.
    rewrite (spaces_to_underscores_allowed r Hallowed). apply keep_allowed_fixed, Hallowed. }
  unfold cleanDeviceName. rewrite Hpipe. cbv zeta.
  rewrite collapse_slashes_body, Hsingle, Hraw.
  replace (Z.of_nat (String.length r) >? 4) with true; [reflexivity|].
  symmetry. apply Z.gtb_lt. rewrite Hstem, string_length_append.
  destruct stem; [contradiction|]. simpl. lia.
Qed.

Lemma cleanDeviceName_again_witness :
  cleanDeviceName "/mnt//my disk(1)/" = "mnt/my_disk1.raw"%string /\
  cleanDeviceName (cleanDeviceName "/mnt//my disk(1)/") = "mnt/my_disk1.raw"%string /\
  cleanDeviceName "(+)/disk" = "/disk.raw"%string /\
  cleanDeviceName "/disk.raw" = "disk.raw"%string /\
  cleanDeviceName "//" = ".raw"%string /\
  cleanDeviceName ".raw" = ".raw.raw"%string.
Proof.
  assert (cleanDeviceName "/mnt//my disk(1)/" = "mnt/my_disk1.raw"%string) as Hfirst
      by (vm_compute; reflexivity).
  split; [exact Hfirst|]. split.
  - rewrite (cleanDeviceName_again "/mnt//my disk(1)/").
    + exact Hfirst.
    + rewrite Hfirst. reflexivity.
    + rewrite Hfirst. discriminate.
  - repeat split; vm_compute; reflexivity.
Defined.

(** ** Number formatting *)

Lemma add_zeros_replicate (turns : nat) (newString : string) :
  add_zeros turns newString = newString +:+ replicate_string turns "0".
Proof.
  revert newString. induction turns as [|n IH]; intros newString; simpl.
  - rewrite string_append_nil_r. reflexivity.
  - rewrite IH, string_append_assoc. reflexivity.
Qed.

Lemma replicate_string_length (n : nat) : String.length (replicate_string n "0") = n.
Proof.
  induction n as [|n IH]; [reflexivity|].
  change (S (String.length (replicate_string n "0")) = S n). f_equal. exact IH.
Qed.

Lemma pad_fraction_body (fraction : string) (decimals : Z) :
  pad_fraction fraction decimals =
  if Z.of_nat (String.length fraction) <? decimals
  then pad_fraction (fraction +:+ "0") decimals
  else fraction.
Proof.
  rewrite pad_fraction_equation_1. unfold pad_fraction_unfold_clause_1.
  destruct (Z_lt_dec (Z.of_nat (String.length fraction)) decimals) as [H|H].
  - apply Z.ltb_lt in H. rewrite H. reflexivity.
  - apply Z.nlt_ge, Z.ltb_ge in H. rewrite H. reflexivity.
Qed.

Lemma pad_fraction_replicate (fraction : string) (decimals : Z) :
  pad_fraction fraction decimals =
  fraction +:+ replicate_string (Z.to_nat (decimals - Z.of_nat (String.length fraction))) "0".
Proof.
  remember (Z.to_nat (decimals - Z.of_nat (String.length fraction))) as n eqn:Hn.
  revert fraction Hn. induction n as [|n IH]; intros fraction Hn;
    rewrite pad_fraction_body.
  - destruct (Z.ltb_spec (Z.of_nat (String.length fraction)) decimals); [lia|].
    simpl. rewrite string_append_nil_r. reflexivity.
  - destruct (Z.ltb_spec (Z.of_nat (String.length fraction)) decimals); [|lia].
    rewrite (IH (fraction +:+ "0")).
    + rewrite string_append_assoc. reflexivity.
    + rewrite string_length_append. simpl. lia.
Qed.

(** X29.  [setDecimals] never shortens a fraction.  With a count that
    is positive once 0 has been replaced by 2, the text of a value with
    a fraction comes back with zeros appended up to that count, and with
    all its digits when it has more; the text of a value without
    fraction gets a dot and exactly that many zeros. *)
Theorem setDecimals_pads (isNaN : value -> bool) (toString : value -> result string)
  (value0 : value) (decimals : option Z) (text : string) :
  isNaN value0 = false -> toString value0 = Ok text ->
  0 < decimals_or_2 decimals ->
  (forall whole, split_dot text = [whole] ->
     setDecimals isNaN toString value0 decimals =
     Ok (whole +:+ "." +:+ replicate_string (Z.to_nat (decimals_or_2 decimals)) "0")) /\
  (forall whole fraction rest, split_dot text = whole :: fraction :: rest ->
     setDecimals isNaN toString value0 decimals =
     Ok (whole +:+ "." +:+ fraction +:+
         replicate_string
           (Z.to_nat (decimals_or_2 decimals - Z.of_nat (String.length fraction))) "0")).
Proof.
  intros Hnan Htext Hpos. unfold setDecimals. rewrite Hnan, Htext. cbn [fmap result_fmap].
  destruct (Z.leb_spec (decimals_or_2 decimals) 0) as [|_]; [lia|]. split.
  - intros whole ->. cbn [length Nat.eqb app nth].
    rewrite add_zeros_replicate, pad_fraction_replicate.
    change ("" +:+ replicate_string (Z.to_nat (decimals_or_2 decimals)) "0")
      with (replicate_string (Z.to_nat (decimals_or_2 decimals)) "0").
    rewrite replicate_string_length, Z2Nat.id, Z.sub_diag by lia.
    cbn [Z.to_nat replicate_string]. rewrite string_append_nil_r. reflexivity.
  - intros whole fraction rest ->. cbn [length Nat.eqb nth].
    rewrite pad_fraction_replicate. reflexivity.
Qed.

Lemma setDecimals_pads_witness :
  let isNaN := fun v => strict_eq v VNaN || strict_eq v VUndef in
  let toString := fun v =>
    match v with VStr s => Ok s | VUndef | VNull => Throw TypeError | _ => Ok ""%string end in
  setDecimals isNaN toString (VStr "12") (Some 0) = Ok "12.00"%string /\
  setDecimals isNaN toString (VStr "1.23456") (Some 2) = Ok "1.23456"%string /\
  setDecimals isNaN toString (VStr "1.5") (Some 3) = Ok "1.500"%string.
Proof.
  intros isNaN toString. split; [|split].
  - apply (proj1 (setDecimals_pads isNaN toString (VStr "12") (Some 0) "12"
                    eq_refl eq_refl ltac:(reflexivity)) "12"%string). reflexivity.
  - apply (proj2 (setDecimals_pads isNaN toString (VStr "1.23456") (Some 2) "1.23456"
                    eq_refl eq_refl ltac:(reflexivity)) "1"%string "23456"%string []).
    reflexivity.
  - apply (proj2 (setDecimals_pads isNaN toString (VStr "1.5") (Some 3) "1.5"
                    eq_refl eq_refl ltac:(reflexivity)) "1"%string "5"%string []).
    reflexivity.
Defined.

(** ** Relative sizes of the entries of a disk *)

Lemma borrow_body (fuel index runningIndex : nat) (data : list Sized) :
  borrow fuel index runningIndex data =
  match data !! index with
  | None => Some (Throw TypeError)
  | Some partition =>
      if negb (runningIndex =? index)%nat && (relativeSize partition <? minSize) then
        match fuel with
        | O => None
        | S fuel' =>
            let runningIndex :=
              if (runningIndex =? length data)%nat then 0%nat else runningIndex in
            if negb (runningIndex =? index)%nat then
              match data !! runningIndex with
              | None => Some (Throw TypeError)
              | Some other =>
                  if relativeSize other >=? minSize * 2 then
                    borrow fuel' index (S runningIndex)
                      (alter (fun e => {| relativeSize := relativeSize e - minSize;
                                          small := small e |}) runningIndex
                         (alter (fun _ => {| relativeSize := minSize; small := true |})
                            index data))
                  else borrow fuel' index (S runningIndex) data
              end
            else borrow fuel' index (S runningIndex) data
        end
      else Some (Ok data)
  end.
Proof. destruct fuel; reflexivity. Qed.

(** From the first entry the loop cannot come back to where it
    started: with no entry to take from it goes round for ever. *)
Lemma borrow_first_loops (fuel : nat) (first : Sized) (rest : list Sized)
  (runningIndex : nat) :
  relativeSize first < minSize ->
  Forall (fun e => relativeSize e < minSize * 2) rest ->
  (1 <= runningIndex <= length (first :: rest))%nat ->
  borrow fuel 0 runningIndex (first :: rest) = None.
Proof.
  intros Hfirst Hrest. revert runningIndex.
  induction fuel as [|fuel IH]; intros runningIndex Hrun; rewrite borrow_body;
    change ((first :: rest) !! 0%nat) with (Some first);
    (replace (runningIndex =? 0)%nat with false by (symmetry; apply Nat.eqb_neq; lia));
    (replace (relativeSize first <? minSize) with true by (symmetry; apply Z.ltb_lt, Hfirst));
    cbn [negb andb]; [reflexivity|].
  cbv zeta. destruct (Nat.eqb_spec runningIndex (length (first :: rest))) as [->|Hne].
  - cbn [Nat.eqb negb]. apply IH. simpl. lia.
  - replace (runningIndex =? 0)%nat with false by (symmetry; apply Nat.eqb_neq; lia).
    cbn [negb]. destruct runningIndex as [|i]; [lia|].
    change ((first :: rest) !! S i) with (rest !! i).
    destruct (lookup_lt_is_Some_2 rest i) as [other Hother]; [simpl in Hrun, Hne; lia|].
    rewrite Hother.
    rewrite List.Forall_forall in Hrest.
    assert (relativeSize other < minSize * 2) as Hsmall
        by (apply Hrest, list_elem_of_In; eapply list_elem_of_lookup_2, Hother).
    replace (relativeSize other >=? minSize * 2) with false
      by (symmetry; rewrite Z.geb_leb; apply Z.leb_gt, Hsmall).
    apply IH. simpl in *. lia.
Qed.

(** From any other entry the loop is back at its start after at most as
    many turns as there are entries. *)
Lemma borrow_ends (fuel index runningIndex : nat) (data : list Sized) :
  (1 <= index < length data)%nat -> (runningIndex <= length data)%nat ->
  ((if (runningIndex <=? index)%nat then index - runningIndex
    else length data - runningIndex + index) <= fuel)%nat ->
  exists data', borrow fuel index runningIndex data = Some (Ok data') /\
                length data' = length data.
Proof.
  revert runningIndex data.
  induction fuel as [|fuel IH]; intros runningIndex data Hindex Hrun Hfuel;
    rewrite borrow_body;
    destruct (lookup_lt_is_Some_2 data index) as [partition Hp]; try lia; rewrite Hp;
    (destruct (negb (runningIndex =? index)%nat && (relativeSize partition <? minSize))
       eqn:Hcond; [|exists data; split; reflexivity]);
    apply andb_true_iff in Hcond as [Hne _]; apply negb_true_iff, Nat.eqb_neq in Hne.
  - exfalso. destruct (Nat.leb_spec runningIndex index); lia.
  - cbv zeta.
    set (next := if (runningIndex =? length data)%nat then 0%nat else runningIndex).
    assert (next < length data /\ next <> index /\
            ((if (S next <=? index)%nat then index - S next
              else length data - S next + index) <= fuel))%nat as (Hnext & Hni & Hleft).
    { subst next. destruct (Nat.eqb_spec runningIndex (length data)) as [->|Hl].
      - destruct (Nat.leb_spec (length data) index); [lia|].
        destruct (Nat.leb_spec 1 index); lia.
      - destruct (Nat.leb_spec runningIndex index), (Nat.leb_spec (S runningIndex) index);
          lia. }
    clearbody next.
    replace (next =? index)%nat with false by (symmetry; apply Nat.eqb_neq, Hni).
    cbn [negb]. destruct (lookup_lt_is_Some_2 data next Hnext) as [other Hother].
    rewrite Hother. destruct (relativeSize other >=? minSize * 2).
    + destruct (IH (S next)
                  (alter (fun e => {| relativeSize := relativeSize e - minSize;
                                      small := small e |}) next
                     (alter (fun _ => {| relativeSize := minSize; small := true |})
                        index data))) as (data' & Hrun' & Hlen');
        rewrite ?length_alter; try lia.
      exists data'. split; [exact Hrun'|]. rewrite Hlen', !length_alter. reflexivity.
    + apply IH; lia.
Qed.

(** X30.  The loop that lets a small entry take room from a larger one
    can hang.  When the first entry of a list of several is below
    [minSize] and no other entry has twice [minSize] to give, the search
    for a giver wraps around to index 0 and steps past it before the
    test that would stop it, so that no number of turns ends it.  For
    every entry but the first the search is over after at most as many
    turns as there are entries. *)
Theorem first_small_entry_hangs (first : Sized) (rest : list Sized) :
  rest <> [] -> relativeSize first < minSize ->
  Forall (fun e => relativeSize e < minSize * 2) rest ->
  (forall fuel, spread_small fuel (first :: rest) = None) /\
  (forall index data, (1 <= index < length data)%nat ->
     exists data', borrow (length data) index (S index) data = Some (Ok data') /\
                   length data' = length data).
Proof.
  intros Hrest Hfirst Hothers. split.
  - intros fuel. unfold spread_small.
    destruct rest as [|second rest]; [contradiction|].
    cbn [length Nat.ltb Nat.leb each_small lookup list_lookup].
    replace (relativeSize first <? minSize) with true by (symmetry; apply Z.ltb_lt, Hfirst).
    rewrite (borrow_first_loops fuel first (second :: rest) 1 Hfirst Hothers);
      [reflexivity|simpl; lia].
  - intros index data Hindex. apply borrow_ends; [exact Hindex|lia|].
    destruct (Nat.leb_spec (S index) index); lia.
Qed.

Lemma first_small_entry_hangs_witness :
  let first := {| relativeSize := 2; small := false |} in
  let rest := replicate 20 {| relativeSize := 5; small := false |} in
  relativeSize first < minSize /\
  spread_small 1000 (first :: rest) = None /\
  spread_small 1000 (rest ++ [first]) = Some (Ok (rest ++ [first])).
Proof.
  intros first rest. split; [reflexivity|]. split.
  - apply (first_small_entry_hangs first rest); [discriminate|reflexivity|].
    repeat constructor.
  - vm_compute. reflexivity.
Defined.
